(** * clvvscan: the scheduling core of [pogom/search.py]

    A shallow embedding of the scan scheduler: the hour-clock helpers
    ([timeDif], [SbSearch]), the hexagonal step generator, the login and
    retry discipline of the worker threads, the spawn assigner
    ([assign_spawns] with its nested [insert] and [greedy_assign]), the
    main loops of the two overseers, the start-up delay of the threads
    and the paging of the status printer.

    Conventions.  Python integers are [Z].  Times of spawn points, speeds
    and delays are Python numbers that become floats as soon as a distance
    is divided; they are embedded as exact rationals [Q], with [float('inf')]
    as a separate constructor.  Latitudes, longitudes and altitudes of the
    step generator are IEEE doubles ([PrimFloat.float]); the trigonometry of
    Python's [math] module is an interface. *)

From Stdlib Require Import ZArith QArith Qround Qabs List Lia Lqa Bool.
From Stdlib Require Import Permutation Sorted PrimFloat.
From Equations Require Import Equations.
Import ListNotations.

Local Open Scope Z_scope.

(** ** Times past the hour *)

Module Clock.
Local Open Scope Q_scope.

(** [timeDif(a, b)]: difference between two times past the hour.  The
    arguments are Python numbers: [curSec()] is an integer, a spawn's
    ['time'] may be a float once the assigner has shifted it. *)
Definition timeDif (a b : Q) : Q :=
  let dif := a - b in
  let dif := if Qlt_le_dec dif (-1800) then dif + 3600 else dif in
  let dif := if Qlt_le_dec 1800 dif then dif - 3600 else dif in
  dif.

(** A time past the hour, as [curSec] produces it. *)
Definition past_hour (t : Q) : Prop := 0 <= t < 3600.

End Clock.

(** ** Spawn points *)

(** A spawn point is a Python dict with the keys ['lat'], ['lng'], ['time']
    and, once assigned, ['worker']. *)
Record spawn : Type := mkSpawn {
  lat : Q;
  lng : Q;
  time : Q;
  worker : option nat
}.

(** ** The schedule cursor *)

Module Cursor.

(** [Slist[mp]['time']]; the loop only indexes inside the list, the default
    is never read there. *)
Definition time_at (Slist : list spawn) (i : Z) : Q :=
  nth (Z.to_nat i) (map time Slist) 0%Q.

(** The [while first < last] loop of [SbSearch], on its two variables. *)
Equations? search_loop (Slist : list spawn) (T : Q) (first last : Z) : Z
  by wf (Z.to_nat (last - first)) lt :=
  search_loop Slist T first last with Z_lt_dec first last => {
    | left _ with Qlt_le_dec (time_at Slist ((first + last) / 2)) T => {
        | left _ := search_loop Slist T ((first + last) / 2 + 1) last;
        | right _ := search_loop Slist T first ((first + last) / 2) };
    | right _ := first }.
Proof.
  - assert (first <= (first + last) / 2 < last)
      by (split; [apply Z.div_le_lower_bound | apply Z.div_lt_upper_bound]; lia).
    lia.
  - assert (first <= (first + last) / 2 < last)
      by (split; [apply Z.div_le_lower_bound | apply Z.div_lt_upper_bound]; lia).
    lia.
Qed.

(** [SbSearch(Slist, T)]. *)
Definition SbSearch (Slist : list spawn) (T : Q) : Z :=
  let first := 0 in
  let last := Z.of_nat (length Slist) - 1 in
  search_loop Slist T first last.

(** Ascending by ['time'], as [spawns.sort(key=itemgetter('time'))] leaves
    the list. *)
Definition time_sorted (Slist : list spawn) : Prop :=
  StronglySorted (fun a b => (time a <= time b)%Q) Slist.

(** A three-entry schedule, used to evaluate the cursor. *)
Definition sample_schedule : list spawn :=
  [ mkSpawn 0 0 10 (Some 0%nat);
    mkSpawn 0 0 20 (Some 1%nat);
    mkSpawn 0 0 30 (Some 0%nat) ].

End Cursor.


(** ** The hexagonal step generator *)

Module Steps.

#[local] Set Warnings "-inexact-float".
Local Open Scope float_scope.

(** The functions of Python's [math] module used by [get_new_coords] that
    are not IEEE primitives.  They are taken total: the [ValueError] that
    [math.asin] raises outside [-1, 1] is outside the model. *)
Record libm : Type := mkLibm {
  sin : float -> float;
  cos : float -> float;
  asin : float -> float;
  atan2 : float -> float -> float
}.

(** A location as the generator yields it and the workers consume it:
    [(lat, lng, altitude)]. *)
Definition location : Type := float * float * float.

Definition loc_lat (l : location) : float := fst (fst l).
Definition loc_lng (l : location) : float := snd (fst l).
Definition loc_alt (l : location) : float := snd l.

Definition pi : float := 3.141592653589793.

(** [math.radians] and [math.degrees]. *)
Definition radians (x : float) : float := x * (pi / 180).
Definition degrees (x : float) : float := x * (180 / pi).

Section WithLibm.
Variable m : libm.

(** [get_new_coords(init_loc, distance, bearing)]: reads [init_loc[0]] and
    [init_loc[1]] only and returns the two-element list [[lat, lng]]. *)
Definition get_new_coords (init_loc : float * float) (distance bearing : float)
  : float * float :=
  let R := 6378.1 in
  let bearing := radians bearing in
  let init_coords := (radians (fst init_loc), radians (snd init_loc)) in
  let new_lat :=
    asin m (sin m (fst init_coords) * cos m (distance / R) +
            cos m (fst init_coords) * sin m (distance / R) * cos m bearing) in
  let new_lon :=
    snd init_coords +
    atan2 m (sin m bearing * sin m (distance / R) * cos m (fst init_coords))
            (cos m (distance / R) - sin m (fst init_coords) * sin m new_lat) in
  (degrees new_lat, degrees new_lon).

Definition NORTH : float := 0.
Definition EAST : float := 90.
Definition SOUTH : float := 180.
Definition WEST : float := 270.

Section Grid.
Variables xdist ydist : float.

(** The body of [for i in range(ring)] before its [yield]: one move in the
    given direction (0 to 5). *)
Definition move (direction : nat) (loc : float * float) : float * float :=
  match direction with
  | 0%nat => get_new_coords loc xdist EAST
  | 1%nat => get_new_coords (get_new_coords loc ydist SOUTH) (xdist / 2) EAST
  | 2%nat => get_new_coords (get_new_coords loc ydist SOUTH) (xdist / 2) WEST
  | 3%nat => get_new_coords loc xdist WEST
  | 4%nat => get_new_coords (get_new_coords loc ydist NORTH) (xdist / 2) WEST
  | 5%nat => get_new_coords (get_new_coords loc ydist NORTH) (xdist / 2) EAST
  | _ => loc
  end.

(** [for i in range(ring)]: the yielded locations and the final [loc]. *)
Fixpoint walk_side (direction : nat) (i : nat) (loc : float * float)
  : list location * (float * float) :=
  match i with
  | O => ([], loc)
  | S i' =>
      let loc := move direction loc in
      let '(rest, loc') := walk_side direction i' loc in
      ((fst loc, snd loc, 0) :: rest, loc')
  end.

(** [for direction in range(6)], over the directions still to walk. *)
Fixpoint walk_sides (directions : list nat) (ring : nat) (loc : float * float)
  : list location * (float * float) :=
  match directions with
  | [] => ([], loc)
  | direction :: rest =>
      let '(out1, loc1) := walk_side direction ring loc in
      let '(out2, loc2) := walk_sides rest ring loc1 in
      (out1 ++ out2, loc2)
  end.

(** One pass of the [while ring < step_count] body: move to the top left
    of the ring, then walk its six sides. *)
Definition walk_ring (ring : nat) (loc : float * float)
  : list location * (float * float) :=
  let loc := get_new_coords loc ydist NORTH in
  let loc := get_new_coords loc (xdist / 2) WEST in
  walk_sides (seq 0 6) ring loc.

(** The [while ring < step_count] loop, from the current [ring] on. *)
Equations? walk_rings (step_count ring : Z) (loc : float * float)
  : list location by wf (Z.to_nat (step_count - ring)) lt :=
  walk_rings step_count ring loc with Z_lt_dec ring step_count => {
    | left _ :=
        fst (walk_ring (Z.to_nat ring) loc)
          ++ walk_rings step_count (ring + 1)
               (snd (walk_ring (Z.to_nat ring) loc));
    | right _ := [] }.
Proof. lia. Qed.

End Grid.

(** [generate_location_steps(initial_loc, step_count, step_distance)], the
    generator's output as a list. *)
Definition generate_location_steps
  (initial_loc : location) (step_count : Z) (step_distance : float)
  : list location :=
  let pulse_radius := step_distance in
  let xdist := PrimFloat.sqrt 3 * pulse_radius in
  let ydist := 3 * (pulse_radius / 2) in
  (loc_lat initial_loc, loc_lng initial_loc, 0)
    :: walk_rings xdist ydist step_count 1
         (loc_lat initial_loc, loc_lng initial_loc).

End WithLibm.

(** A location on the ground, as the generator yields them. *)
Definition at_altitude_zero (l : location) : Prop := loc_alt l = 0.

End Steps.

(** ** Effects of the worker threads *)

Module Effects.

(** The exceptions that travel through the worker loops. *)
Inductive exn : Type :=
| AuthException
| TooManyLoginAttempts
| UnboundLocalError
| ZeroDivisionError
| ValueError
| OtherException.

Inductive result (A : Type) : Type :=
| Returns (a : A)
| Raises (e : exn).
Arguments Returns {A} a.
Arguments Raises {A} e.

(** The values the threads store in [status['message']]. *)
Inductive message : Type :=
| MsgCreatingThread
| MsgWaitingForItem
| MsgSearching
| MsgAbandoning
| MsgBanned
| MsgNoResponse (failed_total : Z) (sleep_time : Q)
| MsgParsingFailed (failed_total : Z) (sleep_time : Q)
| MsgScanDelay (sleep_time : Q)
| MsgSkipping.

(** The lines the threads write to the log. *)
Inductive log_line : Type :=
| LogCredentialsValid
| LogLoginFailed
| LogLoginSuccessful
| LogStepBeginning
| LogOverRetries
| LogBanned
| LogDownloadFailed
| LogParsingFailed
| LogStepCompleted
| LogSkipping.

(** What a thread does to the world outside its own variables: the queue,
    the API session, the log and the clock. *)
Inductive event : Type :=
| QueueGet
| QueuePut
| TaskDone
| SetPosition
| SetAuthentication
| MapRequest
| ParseMap
| Log (l : log_line)
| Sleep (seconds : Q).

(** The per-worker [status] dict. *)
Record status : Type := mkStatus {
  st_message : message;
  st_success : Z;
  st_fail : Z;
  st_noitems : Z;
  st_skip : Z
}.

(** A computation of a thread: it reads and writes the status record,
    leaves a trace of events, and returns or raises. *)
Definition M (A : Type) : Type := status -> result A * status * list event.

Definition ret {A : Type} (a : A) : M A := fun s => (Returns a, s, []).

Definition bind {A B : Type} (c : M A) (k : A -> M B) : M B := fun s =>
  match c s with
  | (Returns a, s1, t1) =>
      let '(r, s2, t2) := k a s1 in (r, s2, t1 ++ t2)
  | (Raises e, s1, t1) => (Raises e, s1, t1)
  end.

Definition raise {A : Type} (e : exn) : M A := fun s => (Raises e, s, []).
Definition emit (e : event) : M unit := fun s => (Returns tt, s, [e]).
Definition modify (f : status -> status) : M unit := fun s => (Returns tt, f s, []).

Definition set_message (m : message) : M unit :=
  modify (fun s => mkStatus m (st_success s) (st_fail s) (st_noitems s) (st_skip s)).
Definition incr_success : M unit :=
  modify (fun s => mkStatus (st_message s) (st_success s + 1) (st_fail s) (st_noitems s) (st_skip s)).
Definition incr_fail : M unit :=
  modify (fun s => mkStatus (st_message s) (st_success s) (st_fail s + 1) (st_noitems s) (st_skip s)).
Definition incr_noitems : M unit :=
  modify (fun s => mkStatus (st_message s) (st_success s) (st_fail s) (st_noitems s + 1) (st_skip s)).
Definition incr_skip : M unit :=
  modify (fun s => mkStatus (st_message s) (st_success s) (st_fail s) (st_noitems s) (st_skip s + 1)).

(** The seconds a trace spends in [time.sleep]. *)
Fixpoint sleep_total (t : list event) : Q :=
  match t with
  | [] => 0
  | Sleep seconds :: t' => seconds + sleep_total t'
  | _ :: t' => sleep_total t'
  end.

Definition is_event (e e' : event) : bool :=
  match e, e' with
  | QueueGet, QueueGet | QueuePut, QueuePut | TaskDone, TaskDone
  | SetPosition, SetPosition | SetAuthentication, SetAuthentication
  | MapRequest, MapRequest | ParseMap, ParseMap => true
  | Log LogBanned, Log LogBanned => true
  | _, _ => false
  end.

(** How often a trace holds the given queue or API event, or the
    heartbeat line [Log LogBanned]. *)
Definition occurrences (e : event) (t : list event) : nat :=
  length (filter (is_event e) t).

End Effects.

Declare Scope thread_scope.
Delimit Scope thread_scope with thread.
Notation "x <- c ;; k" := (Effects.bind c (fun x => k))
  (at level 61, c at next level, right associativity) : thread_scope.
Notation "c ;; k" := (Effects.bind c (fun _ => k))
  (at level 61, right associativity) : thread_scope.

(** The command-line arguments the threads read. *)
Record args : Type := mkArgs {
  scan_retries : Z;
  scan_delay : Q;
  login_retries : Z;
  login_delay : Q
}.

(** ** [check_login] *)

Module Login.
Import Effects.
Local Open Scope thread_scope.

(** What one call of [api.set_authentication] does. *)
Inductive auth_outcome : Type :=
| AuthOk
| AuthFails                (* raises AuthException *)
| AuthCrashes.             (* raises anything else *)

(** The [while i < args.login_retries] loop.  The [i]-th call of
    [set_authentication] (counting from 0) ends as [auth i] says: [i] is
    the number of failed calls so far. *)
Equations? login_loop (a : args) (auth : Z -> auth_outcome) (i : Z) : M unit
  by wf (Z.to_nat (login_retries a - i)) lt :=
  login_loop a auth i with Z_lt_dec i (login_retries a) => {
    | left _ with auth i => {
        | AuthOk := emit SetAuthentication;
        | AuthCrashes := emit SetAuthentication ;; raise OtherException;
        | AuthFails :=
            emit SetAuthentication ;;
            (if i >=? login_retries a
             then raise TooManyLoginAttempts
             else emit (Log LogLoginFailed) ;;
                  emit (Sleep (login_delay a)) ;;
                  login_loop a auth (i + 1)) };
    | right _ := ret tt }.
Proof. lia. Qed.

(** [check_login(args, account, api, position)].  [ticket] is [None] when
    [api._auth_provider] or its [_ticket_expire] is falsy, and otherwise
    the [remaining_time] the function computes. *)
Definition check_login (a : args) (ticket : option Q) (auth : Z -> auth_outcome)
  : M unit :=
  let login :=
    emit SetPosition ;;
    login_loop a auth 0 ;;
    emit (Log LogLoginSuccessful) in
  match ticket with
  | Some remaining_time =>
      if Qlt_le_dec 60 remaining_time
      then emit (Log LogCredentialsValid)
      else login
  | None => login
  end.

End Login.

(** ** The worker threads *)

Module Worker.
Import Effects.
Local Open Scope thread_scope.

(** The two worker functions share their retry loop almost line by line;
    [mode] marks the places where they differ. *)
Inductive mode : Type :=
| Grid         (* search_worker_thread *)
| SpawnScan.   (* search_worker_thread_ss *)

(** What [map_request] and [parse_map] do in one attempt.  [map_request]
    catches every exception itself and then returns [False]. *)
Inductive response : Type :=
| NoResponse                 (* response_dict is falsy *)
| ParseKeyError              (* parse_map raises KeyError *)
| ParseCrashes               (* parse_map raises anything else *)
| Found (findCount : Z).

(** The world as one attempt of the retry loop meets it. *)
Record attempt : Type := mkAttempt {
  ticket : option Q;
  auth : Z -> Login.auth_outcome;
  answer : response
}.

(** The distance of a loop counter from its limit, the measure of the
    cooldown loop. *)
Definition steps_below (limit counter : Z) : nat := Z.to_nat (limit - counter).

(** The cooldown: [while long_sleep_time < (2 * 60 * 20)]. *)
Equations? long_sleep (long_sleep_time : Z) : M unit
  by wf (steps_below (2 * 60 * 20) long_sleep_time) lt :=
  long_sleep slept with Z_lt_dec slept (2 * 60 * 20) => {
    | left _ :=
        emit (Log LogBanned) ;;
        set_message MsgBanned ;;
        emit (Sleep 300) ;;
        long_sleep (slept + 300);
    | right _ := ret tt }.
Proof. unfold steps_below. lia. Qed.

(** The loop "to try very hard to scan this step".  The [failed_total]-th
    attempt meets the world [world failed_total].  The loop returns the
    value of the thread's variable [sleep_time] when it is left, [None]
    when it was never assigned. *)
Equations? retry_loop (md : mode) (a : args) (world : Z -> attempt)
  (sleep_time : option Q) (failed_total : Z) : M (option Q)
  by wf (Z.to_nat (scan_retries a - failed_total)) lt :=
  retry_loop md a world sleep_time failed_total
    with Z_lt_dec failed_total (scan_retries a) => {
    | right _ :=
        (* failed_total >= args.scan_retries *)
        emit (Log LogOverRetries) ;;
        match md with
        | Grid => set_message MsgAbandoning
        | SpawnScan => ret tt
        end ;;
        emit TaskDone ;;
        long_sleep 0 ;;
        ret sleep_time;
    | left _ :=
        let sleep_time := (scan_delay a * (1 + inject_Z failed_total))%Q in
        Login.check_login a (ticket (world failed_total))
                          (auth (world failed_total)) ;;
        emit MapRequest ;;
        match answer (world failed_total) with
        | NoResponse =>
            emit (Log LogDownloadFailed) ;;
            incr_fail ;;
            set_message (MsgNoResponse (failed_total + 1) sleep_time) ;;
            emit (Sleep sleep_time) ;;
            retry_loop md a world (Some sleep_time) (failed_total + 1)
        | Found findCount =>
            emit ParseMap ;;
            emit (Log LogStepCompleted) ;;
            emit TaskDone ;;
            (if findCount >? 0 then incr_success else incr_noitems) ;;
            ret (Some sleep_time)
        | ParseKeyError =>
            emit ParseMap ;;
            emit (Log LogParsingFailed) ;;
            incr_fail ;;
            set_message (MsgParsingFailed (failed_total + 1) sleep_time) ;;
            emit (Sleep sleep_time) ;;
            match md with
            | Grid => ret tt
            | SpawnScan => emit (Sleep sleep_time)
            end ;;
            retry_loop md a world (Some sleep_time) (failed_total + 1)
        | ParseCrashes =>
            emit ParseMap ;;
            raise OtherException
        end }.
Proof. all: lia. Qed.

(** One pass of the "search forever loop" of [search_worker_thread_ss]:
    from the wait on the queue to the end of the job.  [now] is what
    [curSec()] returns when the job is looked at, [spawntime] the job's
    third component, [sleep_time] the thread's variable of that name as
    the previous jobs left it. *)
Definition ss_job (a : args) (now : Z) (spawntime : Q)
  (world : Z -> attempt) (sleep_time : option Q) : M (option Q) :=
  set_message MsgWaitingForItem ;;
  emit QueueGet ;;
  set_message MsgSearching ;;
  emit (Log LogStepBeginning) ;;
  if Qlt_le_dec (Clock.timeDif (inject_Z now) spawntime) 840
  then
    emit SetPosition ;;
    sleep_time <- retry_loop SpawnScan a world sleep_time 0 ;;
    match sleep_time with
    | Some seconds =>
        set_message (MsgScanDelay seconds) ;;
        emit (Sleep seconds) ;;
        ret sleep_time
    | None => raise UnboundLocalError
    end
  else
    emit TaskDone ;;
    emit (Log LogSkipping) ;;
    incr_skip ;;
    set_message MsgSkipping ;;
    ret sleep_time.

(** An attempt that counts as a failure of the scan: the login check
    returns, and either nothing came back or parsing raised [KeyError]. *)
Definition failed_attempt (a : args) (w : attempt) : Prop :=
  (forall s, exists s' t,
      Login.check_login a (ticket w) (auth w) s = (Returns tt, s', t)) /\
  (answer w = NoResponse \/ answer w = ParseKeyError).

(** A world in which the credentials are always fresh and the map request
    never brings anything back. *)
Definition silent_world : Z -> attempt :=
  fun _ => mkAttempt (Some 3000%Q) (fun _ => Login.AuthOk) NoResponse.

Definition fresh_status : status := mkStatus MsgCreatingThread 0 0 0 0.

(** The trace of the cooldown: eight heartbeats, each followed by a sleep
    of five minutes. *)
Definition cooldown_trace : list event :=
  concat (repeat [Log LogBanned; Sleep 300] 8).

(** What a computation did: its result, the status it left, its trace. *)
Definition outcome {A : Type} (x : result A * status * list event) : result A :=
  fst (fst x).
Definition status_after {A : Type} (x : result A * status * list event) : status :=
  snd (fst x).
Definition trace {A : Type} (x : result A * status * list event) : list event :=
  snd x.

(** [c] emits only events that [ok] accepts. *)
Definition emits_only {A : Type} (ok : event -> bool) (c : M A) : Prop :=
  forall s, forallb ok (trace (c s)) = true.

(** [c] leaves the counter [field] of the status as it found it. *)
Definition preserves {A : Type} (field : status -> Z) (c : M A) : Prop :=
  forall s, field (status_after (c s)) = field s.

Definition not_requeue (e : event) : bool := negb (is_event QueuePut e).

(** A run called [task_done] once if it returned, never if it raised. *)
Definition done_once {A : Type} (x : result A * status * list event) : Prop :=
  occurrences TaskDone (trace x)
  = match outcome x with
    | Returns _ => 1%nat
    | Raises _ => 0%nat
    end.

End Worker.

(** ** The spawn assigner *)

Module Assigner.
Import Effects.
Local Open Scope Q_scope.

(** A Python float that may be [float('inf')]: speeds, delays and the
    limits they are compared with. *)
Inductive num : Type :=
| Fin (q : Q)
| Inf.

Definition num_leb (a b : num) : bool :=
  match a, b with
  | _, Inf => true
  | Inf, Fin _ => false
  | Fin x, Fin y => Qle_bool x y
  end.

Definition num_ltb (a b : num) : bool := negb (num_leb b a).

Definition num_eqb (a b : num) : bool :=
  match a, b with
  | Inf, Inf => true
  | Fin x, Fin y => Qeq_bool x y
  | _, _ => false
  end.

(** Python's [max(a, b)]: [b] only when it is greater than [a]. *)
Definition num_max (a b : num) : num := if num_ltb a b then b else a.
Definition pymax (a b : Q) : Q := if Qlt_le_dec a b then b else a.

(** [x % 3600] on Python numbers: the result lies in [0, 3600). *)
Definition mod3600 (x : Q) : Q := x - 3600 * inject_Z (Qfloor (x / 3600)).

(** The cost [(delay, s0, s1, s2)] that [insert] returns. *)
Record score : Type := mkScore {
  delay : num;
  s0 : num;
  s1 : num;
  s2 : num
}.

(** Tuple comparison, as [min(scores)] uses it on [((delay, s0, s1, s2), i)]:
    the first components that differ decide. *)
Definition score_eqb (a b : score) : bool :=
  num_eqb (delay a) (delay b) && num_eqb (s0 a) (s0 b)
  && num_eqb (s1 a) (s1 b) && num_eqb (s2 a) (s2 b).

Definition score_ltb (a b : score) : bool :=
  if negb (num_eqb (delay a) (delay b)) then num_ltb (delay a) (delay b)
  else if negb (num_eqb (s0 a) (s0 b)) then num_ltb (s0 a) (s0 b)
  else if negb (num_eqb (s1 a) (s1 b)) then num_ltb (s1 a) (s1 b)
  else if negb (num_eqb (s2 a) (s2 b)) then num_ltb (s2 a) (s2 b)
  else false.

Definition entry_ltb (a b : score * nat) : bool :=
  if negb (score_eqb (fst a) (fst b)) then score_ltb (fst a) (fst b)
  else (snd a <? snd b)%nat.

(** [min(scores)]: the first entry that no later entry is below;
    [ValueError] on the empty list. *)
Fixpoint min_from (m : score * nat) (rest : list (score * nat)) : score * nat :=
  match rest with
  | [] => m
  | x :: rest' => min_from (if entry_ltb x m then x else m) rest'
  end.

Definition min_entry (scores : list (score * nat)) : result (score * nat) :=
  match scores with
  | [] => Raises ValueError
  | x :: rest => Returns (min_from x rest)
  end.

Definition set_time (sp : spawn) (t : Q) : spawn :=
  mkSpawn (lat sp) (lng sp) t (worker sp).
Definition set_worker (index : nat) (sp : spawn) : spawn :=
  mkSpawn (lat sp) (lng sp) (time sp) (Some index).

(** [l.index(False) if False in l else len(l)]. *)
Fixpoint first_false (l : list bool) : nat :=
  match l with
  | [] => 0
  | true :: l' => S (first_false l')
  | false :: _ => 0
  end.

(** [queue.insert(k, sp)]. *)
Definition list_insert (k : nat) (sp : spawn) (queue : list spawn) : list spawn :=
  firstn k queue ++ sp :: skipn k queue.

(** [spawns.sort(key=itemgetter('time'))]: a stable sort. *)
Fixpoint sort_insert (x : spawn) (l : list spawn) : list spawn :=
  match l with
  | [] => [x]
  | y :: l' =>
      if Qle_bool (time x) (time y) then x :: y :: l'
      else y :: sort_insert x l'
  end.

Definition sort_by_time (l : list spawn) : list spawn :=
  fold_right sort_insert [] l.

Section WithParameters.

(** [geopy.distance.distance(...).meters] between two spawn points. *)
Variable dist : spawn -> spawn -> Q.
Variable scan_delay : Q.
Variable max_speed : num.
Variable max_delay : num.

(** [speed(sp1, sp2)]. *)
Definition speed (sp1 sp2 : spawn) : num :=
  let time := pymax (mod3600 (time sp2 - time sp1)) scan_delay in
  if Qeq_bool time 0 then Inf else Fin (dist sp1 sp2 / time).

(** [x / max_speed] in float arithmetic. *)
Definition over_max_speed (x : Q) : result Q :=
  match max_speed with
  | Inf => Returns 0
  | Fin v => if Qeq_bool v 0 then Raises ZeroDivisionError else Returns (x / v)
  end.

Definition no_room : score := mkScore Inf (Fin 0) (Fin 0) (Fin 0).

(** The slot [k] that [insert] finds for [sp], and the indices [i] and
    [j] of the points before and after it. *)
Definition slot (queue : list spawn) (sp : spawn) : nat :=
  first_false (map (fun p => Qle_bool (time p) (time sp)) queue).
Definition prev_index (k : nat) (queue : list spawn) : nat :=
  Z.to_nat ((Z.of_nat k - 1) mod Z.of_nat (length queue)).
Definition next_index (k : nat) (queue : list spawn) : nat :=
  (k mod length queue)%nat.

(** The time [insert] gives [sp] before any wiggle: "at least scan_delay
    after the previous point". *)
Definition clamped_time (queue : list spawn) (sp : spawn) : Q :=
  pymax (time sp)
        (time (nth (prev_index (slot queue sp) queue) queue sp) + scan_delay).

(** The middle of [insert] on a queue that is not empty: from "Find the
    slot to insert sp" to the end of the [if]/[elif] chain.  It yields
    the copy of [sp] with the scan time the chain gave it, and the score. *)
Definition placement (queue : list spawn) (sp : spawn) : result (spawn * score) :=
  let k := slot queue sp in
  let i := prev_index k queue in
  let j := next_index k queue in
  let qi := nth i queue sp in
  let qj := nth j queue sp in
  let sp := set_time sp (pymax (time sp) (time qi + scan_delay)) in
  let s1 := speed qi sp in
  let s2 := speed sp qj in
  if negb (i =? j)%nat
     && negb (Qle_bool (2 * scan_delay) (mod3600 (time qj - time qi)))
  then Returns (sp, no_room)
  else if num_leb s1 max_speed && num_leb s2 max_speed
  then Returns (sp, mkScore (Fin 0) (num_max s1 s2) s1 s2)
  else if num_ltb max_speed s2
  then Returns (sp, no_room)
  else
    match over_max_speed (dist qi sp) with
    | Raises e => Raises e
    | Returns travel =>
        let time2wait := travel - (time sp - time qi) in
        if negb (Qle_bool time2wait (mod3600 (time sp - time qj)))
        then Returns (sp, no_room)
        else
          let sp := set_time sp (time sp + time2wait) in
          let s1 := max_speed in
          let s2 := speed sp qj in
          Returns (sp, mkScore (Fin time2wait) (num_max s1 s2) s1 s2)
    end.

(** [insert(queue, sp, dry)]: the queue as the call leaves it, and the
    score it returns.  [sp] is copied on entry, so the caller's spawn point
    is never changed. *)
Definition insert (queue : list spawn) (sp : spawn) (dry : bool)
  : result (list spawn * score) :=
  match queue with
  | [] =>
      Returns (if dry then queue else queue ++ [sp],
               mkScore (Fin 0) max_speed max_speed max_speed)
  | _ :: _ =>
      match placement queue sp with
      | Raises e => Raises e
      | Returns (placed, score) =>
          Returns (if negb dry && num_ltb (delay score) Inf
                   then list_insert (slot queue sp) placed queue
                   else queue,
                   score)
      end
  end.

(** [[(insert(q, sp, True), i) for i, q in enumerate(Q)]], from index [i]. *)
Fixpoint dry_scores (i : nat) (Q : list (list spawn)) (sp : spawn)
  : result (list (score * nat)) :=
  match Q with
  | [] => Returns []
  | q :: Q' =>
      match insert q sp true with
      | Raises e => Raises e
      | Returns (_, sc) =>
          match dry_scores (S i) Q' sp with
          | Raises e => Raises e
          | Returns rest => Returns ((sc, i) :: rest)
          end
      end
  end.

(** [Q[index] = q]; the index is always that of an existing queue. *)
Fixpoint set_queue (index : nat) (q : list spawn) (Q : list (list spawn))
  : list (list spawn) :=
  match Q, index with
  | [], _ => []
  | _ :: Q', O => q :: Q'
  | q0 :: Q', S index' => q0 :: set_queue index' q Q'
  end.

(** The variables of [greedy_assign]'s loop: the queues, the delays and
    the points that could not be covered. *)
Record assignment : Type := mkAssignment {
  queues : list (list spawn);
  delays : list num;
  bad : list spawn
}.

(** The body of [for sp in spawns]. *)
Definition greedy_step (st : assignment) (sp : spawn) : result assignment :=
  match dry_scores 0 (queues st) sp with
  | Raises e => Raises e
  | Returns scores =>
      match min_entry scores with
      | Raises e => Raises e
      | Returns (min_score, min_index) =>
          if num_leb (delay min_score) max_delay
          then
            match insert (nth min_index (queues st) []) sp false with
            | Raises e => Raises e
            | Returns (q, _) =>
                Returns (mkAssignment
                           (set_queue min_index q (queues st))
                           (if num_ltb (Fin 0) (delay min_score)
                            then delays st ++ [delay min_score]
                            else delays st)
                           (bad st))
            end
          else
            Returns (mkAssignment (queues st) (delays st) (bad st ++ [sp]))
      end
  end.

Fixpoint greedy_loop (st : assignment) (spawns : list spawn) : result assignment :=
  match spawns with
  | [] => Returns st
  | sp :: spawns' =>
      match greedy_step st sp with
      | Raises e => Raises e
      | Returns st' => greedy_loop st' spawns'
      end
  end.

(** [greedy_assign(spawns, n)]. *)
Definition greedy_assign (spawns : list spawn) (n : nat) : result assignment :=
  let spawns := sort_by_time spawns in
  let Q := repeat [] n in
  greedy_loop (mkAssignment Q [] []) spawns.

(** "Assign worker id to each spawn point". *)
Fixpoint tag_workers (index : nat) (Q : list (list spawn)) : list (list spawn) :=
  match Q with
  | [] => []
  | queue :: Q' => map (set_worker index) queue :: tag_workers (S index) Q'
  end.

(** [assign_spawns(spawns, num_workers, scan_delay, max_speed, max_delay)]:
    the merged schedule it returns. *)
Definition assign_spawns (spawns : list spawn) (num_workers : nat)
  : result (list spawn) :=
  match greedy_assign spawns num_workers with
  | Raises e => Raises e
  | Returns st =>
      let Q := tag_workers 0 (queues st) in
      let spawns := concat Q in
      Returns (sort_by_time spawns)
  end.

End WithParameters.

(** The speed limit is [float('inf')] or a positive number. *)
Definition positive_speed (v : num) : Prop :=
  match v with
  | Inf => True
  | Fin q => 0 < q
  end.

(** The forward distance on the hour circle from entry [i] of a queue to
    the entry after it (the first entry after the last). *)
Definition circular_gap (queue : list spawn) (i : nat) : Q :=
  let zero := mkSpawn 0 0 0 None in
  mod3600 (time (nth (S i mod length queue) queue zero) - time (nth i queue zero)).

(** Every two circularly consecutive entries are at least [scan_delay]
    apart, unless the queue has a sole occupant. *)
Definition well_spaced (scan_delay : Q) (queue : list spawn) : Prop :=
  (length queue <= 1)%nat \/
  forall i, (i < length queue)%nat -> scan_delay <= circular_gap queue i.

(** A stand-in for the geodesic distance when the assigner is evaluated:
    111195 metres per degree along each axis.  It is 0 between points with
    the same coordinates, as the geodesic distance is; the evaluations
    below use such points only. *)
Definition degree_dist (sp1 sp2 : spawn) : Q :=
  111195 * (Qabs (lat sp1 - lat sp2) + Qabs (lng sp1 - lng sp2)).

(** Where a spawn point is: the part of it the assigner never changes. *)
Definition coords (sp : spawn) : Q * Q := (lat sp, lng sp).

(** A spawn point at the origin with the given time. *)
Definition at_origin (t : Q) : spawn := mkSpawn 0 0 t None.

(** What a boolean "less than" and "equal" must offer for a minimum to
    mean something: a strict order that is total up to the equality. *)
Record strict_total {K : Type} (lt eq : K -> K -> bool) : Prop := {
  eq_reflexive : forall a, eq a a = true;
  eq_symmetric : forall a b, eq a b = true -> eq b a = true;
  eq_transitive : forall a b c, eq a b = true -> eq b c = true -> eq a c = true;
  lt_not_eq : forall a b, lt a b = true -> eq a b = false;
  lt_transitive : forall a b c, lt a b = true -> lt b c = true -> lt a c = true;
  lt_eq_left : forall a b c, eq a b = true -> lt a c = lt b c;
  lt_eq_right : forall a b c, eq a b = true -> lt c a = lt c b;
  lt_total : forall a b, lt a b = false -> lt b a = false -> eq a b = true
}.

(** No queue begins later than the time [t]. *)
Definition heads_before (Qs : list (list spawn)) (t : Q) : Prop :=
  forall q h rest, In q Qs -> q = h :: rest -> time h <= t.

(** A delay that [greedy_assign] may record under the limit [limit]. *)
Definition recorded (limit : Q) (d : num) : Prop :=
  exists q, d = Fin q /\ 0 < q /\ q <= limit.

(** The speed limit is the number 0: the only way to a division by zero. *)
Definition zero_speed (max_speed : num) : Prop :=
  exists v, max_speed = Fin v /\ v == 0.

End Assigner.

(** ** The thread start-up delay *)

Module Stagger.
Import Effects.
Local Open Scope Q_scope.

(** The [delay] that [stagger_thread(args, account)] computes when there
    is more than one account.  [accounts] is [len(args.accounts)], [index]
    is [args.accounts.index(account)] and [random] is the value that
    [random.random()] returns; [args.scan_delay] is a float, as in the
    worker threads.  The arithmetic is exact here; [stagger_delay_rounded]
    below has the rounding of the doubles. *)
Definition stagger_delay (a : args) (accounts index : nat) (random : Q) : Q :=
  if Qlt_le_dec (scan_delay a) (inject_Z (Z.of_nat accounts))
  then
    (* force ~1 second delay between threads if you have many accounts *)
    if (0 <? index)%nat
    then inject_Z (Z.of_nat index) + (random - (5 # 10)) / 2
    else 0
  else (scan_delay a / inject_Z (Z.of_nat accounts)) * inject_Z (Z.of_nat index).

Definition stagger_thread (a : args) (accounts index : nat) (random : Q)
  : M unit :=
  if (1 <? accounts)%nat
  then emit (Sleep (stagger_delay a accounts index random))
  else ret tt.

(** What [random.random()] can return: a number of [[0, 1)]. *)
Definition unit_interval (random : Q) : Prop := 0 <= random /\ random < 1.

(** The arithmetic of doubles, as far as the delay needs it.  Every
    operation on doubles returns the exact result rounded; of the
    rounding [rnd] it is known that it is monotone, that it leaves the
    multiples of a quarter as they are, and that it moves no number by
    more than a quarter, for numbers up to [limit] in size.  Rounding to
    the nearest double is such a rounding for [limit = 2^50]; the
    identity is one for every [limit]. *)
Record rounding (limit : Q) (rnd : Q -> Q) : Prop := {
  rnd_monotone : forall x y, x <= y -> rnd x <= rnd y;
  rnd_quarters :
    forall k : Z,
      - limit <= inject_Z k * (1 # 4) -> inject_Z k * (1 # 4) <= limit ->
      rnd (inject_Z k * (1 # 4)) == inject_Z k * (1 # 4);
  rnd_close :
    forall x, - limit <= x -> x <= limit ->
      x - (1 # 4) <= rnd x /\ rnd x <= x + (1 # 4)
}.

(** The [delay] of [stagger_thread] with the rounding of each of its
    operations written out: [index + ((random.random() - .5) / 2)] is a
    subtraction, a division and an addition, and
    [(args.scan_delay / len(args.accounts)) * index] a division and a
    multiplication.  With the identity for [rnd] this is
    [stagger_delay]. *)
Definition stagger_delay_rounded (rnd : Q -> Q) (a : args)
  (accounts index : nat) (random : Q) : Q :=
  if Qlt_le_dec (scan_delay a) (inject_Z (Z.of_nat accounts))
  then
    if (0 <? index)%nat
    then rnd (inject_Z (Z.of_nat index) + rnd (rnd (random - (5 # 10)) / 2))
    else 0
  else rnd (rnd (scan_delay a / inject_Z (Z.of_nat accounts))
            * inject_Z (Z.of_nat index)).

(** A coarse rounding to evaluate the delay with: to the nearest eighth,
    halves upwards. *)
Definition nearest_eighth (x : Q) : Q :=
  inject_Z (Qfloor (x * 8 + (1 # 2))) * (1 # 8).

End Stagger.

(** ** The pages of the status printer *)

Module StatusPage.

(** [usable_height = height - 6], at least 1. *)
Definition usable_height (height : Z) : Z :=
  let usable_height := height - 6 in
  if usable_height <? 1 then 1 else usable_height.

(** [math.ceil((len(threadStatus) - 1) / float(usable_height))]. *)
Definition total_pages (entries usable_height : Z) : Z :=
  Qceiling (inject_Z (entries - 1) / inject_Z usable_height)%Q.

(** "Prevent moving outside the valid range of pages". *)
Definition clamp_page (current_page total_pages : Z) : Z :=
  let current_page :=
    if current_page >? total_pages then total_pages else current_page in
  if current_page <? 1 then 1 else current_page.

Section Items.
Context {name : Type}.
Variable is_worker : name -> bool.

(** The loop [for item in sorted(threadStatus)], from the entry it has
    reached on: the entries whose status line is printed. *)
Fixpoint print_workers (start_line end_line current_line : Z)
  (items : list name) : list name :=
  match items with
  | [] => []
  | item :: rest =>
      if is_worker item
      then
        let current_line := current_line + 1 in
        if current_line <? start_line
        then print_workers start_line end_line current_line rest
        else if current_line >? end_line
             then []
             else item :: print_workers start_line end_line current_line rest
      else print_workers start_line end_line current_line rest
  end.

(** One pass of the display: the page shown (what [current_page[0]] is
    after clamping) and the workers whose status lines are printed.
    [items] is [sorted(threadStatus)]. *)
Definition status_page (height current_page : Z) (items : list name)
  : Z * list name :=
  let usable_height := usable_height height in
  let total_pages := total_pages (Z.of_nat (length items)) usable_height in
  let current_page := clamp_page current_page total_pages in
  let start_line := usable_height * (current_page - 1) in
  let end_line := start_line + usable_height in
  (current_page, print_workers start_line end_line 1 items).

End Items.

(** The keys of [threadStatus]: the overseer and the numbered workers. *)
Inductive thread_name : Type :=
| OverseerName
| WorkerName (i : nat).

Definition is_worker_name (name : thread_name) : bool :=
  match name with
  | OverseerName => false
  | WorkerName _ => true
  end.

(** [sorted(threadStatus)] for [n] workers: ['Overseer'] sorts before
    every ['Worker NNN'], and [WorkerName i] is the worker key at place
    [i] of the sorted keys. *)
Definition thread_names (n : nat) : list thread_name :=
  OverseerName :: map WorkerName (seq 0 n).

End StatusPage.

(** ** The spawn-scan overseer *)

Module Overseer.
Local Open Scope Q_scope.

(** The exceptions of a subscript. *)
Inductive lookup_error : Type :=
| IndexError
| KeyError.

(** [l[i]] on a Python list: a negative index counts from the end. *)
Definition py_index {A : Type} (l : list A) (i : Z) : option A :=
  if (0 <=? i)%Z then nth_error l (Z.to_nat i)
  else if (- Z.of_nat (length l) <=? i)%Z
       then nth_error l (Z.to_nat (i + Z.of_nat (length l)))
       else None.

(** The tuple [(pos, location, spawns[pos]['time'])] put on a queue. *)
Record search_args : Type := mkSearchArgs {
  step : Z;
  step_location : Q * Q * Q;
  spawntime : Q
}.

(** "find the inital location (spawn thats 60sec old)":
    [SbSearch(spawns, (curSec() + 3540) % 3600)], [now] being what
    [curSec()] returns. *)
Definition initial_target (now : Z) : Z := ((now + 3540) mod 3600)%Z.

Definition initial_position (spawns : list spawn) (now : Z) : Z :=
  Cursor.SbSearch spawns (inject_Z (initial_target now)).

(** [q.put(x)] on the queue [w] of the list of queues. *)
Fixpoint put (queues : list (list search_args)) (w : nat) (x : search_args)
  : list (list search_args) :=
  match queues, w with
  | [], _ => []
  | q :: rest, O => (q ++ [x]) :: rest
  | q :: rest, S w' => q :: put rest w' x
  end.

(** What one evaluation of the condition of the inner [while] leads to. *)
Inductive poll : Type :=
| Waits                                       (* time.sleep(1), poll again *)
| Queues (search_items_queues : list (list search_args)) (pos : Z)
| Fails (e : lookup_error).

(** The overseer's loop from one reading [now] of [curSec()] to the next:
    either the spawn point at [pos] is not yet 60 seconds old and the
    thread sleeps a second, or its job is put on the queue of its worker
    and [pos] moves on. *)
Definition overseer_poll (spawns : list spawn)
  (search_items_queues : list (list search_args)) (pos now : Z) : poll :=
  match py_index spawns pos with
  | None => Fails IndexError
  | Some sp =>
      if Qlt_le_dec (Clock.timeDif (inject_Z now) (time sp)) 60
      then Waits
      else
        let location := (lat sp, lng sp, 4032 # 100) in
        let search_args := mkSearchArgs pos location (time sp) in
        match worker sp with
        | None => Fails KeyError
        | Some w =>
            match nth_error search_items_queues w with
            | None => Fails IndexError
            | Some _ =>
                Queues (put search_items_queues w search_args)
                       ((pos + 1) mod Z.of_nat (length spawns))%Z
            end
        end
  end.

(** The state of the loop after the readings [clock] of [curSec()], one
    for each evaluation of the inner condition: the queues and [pos], or
    the exception that ended the thread. *)
Fixpoint overseer_run (spawns : list spawn)
  (search_items_queues : list (list search_args)) (pos : Z) (clock : list Z)
  : lookup_error + list (list search_args) * Z :=
  match clock with
  | [] => inr (search_items_queues, pos)
  | now :: clock' =>
      match overseer_poll spawns search_items_queues pos now with
      | Waits => overseer_run spawns search_items_queues pos clock'
      | Queues search_items_queues' pos' =>
          overseer_run spawns search_items_queues' pos' clock'
      | Fails e => inl e
      end
  end.

(** The job [x] is the job of a spawn point of the schedule that is
    assigned to the worker [w]. *)
Definition job_of (spawns : list spawn) (w : nat) (x : search_args) : Prop :=
  exists sp, py_index spawns (step x) = Some sp /\
             worker sp = Some w /\
             spawntime x = time sp /\
             step_location x = (lat sp, lng sp, 4032 # 100).

(** Every queue holds jobs of its own worker only. *)
Definition own_jobs (spawns : list spawn) (queues : list (list search_args))
  : Prop :=
  forall w q, nth_error queues w = Some q -> Forall (job_of spawns w) q.

End Overseer.

(** ** The grid overseer *)

Module GridOverseer.
Import Steps.
#[local] Set Warnings "-inexact-float".

(** The values of [threadStatus['Overseer']['message']]. *)
Inductive overseer_message : Type :=
| Initializing
| ScanningIsPaused
| QueuingNextStep
| ProcessingSearchQueue.

(** The variables of [search_overseer_thread] that outlive a turn of its
    main loop.  [current_location] is [None] for the initial [False]. *)
Record state : Type := mkState {
  search_items_queue : list (Z * location);
  current_location : option location;
  locations : list location;
  message : overseer_message
}.

(** The options the loop reads. *)
Record options : Type := mkOptions {
  no_pokemon : bool;
  spawnpoints_only : bool;
  step_limit : Z
}.

(** [enumerate(locations, step)]. *)
Fixpoint enumerate (step : Z) (locations : list location)
  : list (Z * location) :=
  match locations with
  | [] => []
  | step_location :: rest => (step, step_location) :: enumerate (step + 1) rest
  end.

Section Turn.
Variable m : libm.
Variable o : options.
(** [any_spawnpoints_in_range], for the spawn points the database returns
    around the location given first. *)
Variable any_spawnpoints_in_range : location -> location -> bool.

(** The block "update our list of coords" with "repopulate our spawn
    points": the steps to scan around [current_location]. *)
Definition scan_locations (current_location : location) : list location :=
  let step_distance := if no_pokemon o then 0.9%float else 0.07%float in
  let locations :=
    generate_location_steps m current_location (step_limit o) step_distance in
  if spawnpoints_only o
  then filter (any_spawnpoints_in_range current_location) locations
  else locations.

(** One turn of the main loop, the worker threads not touching the queue
    meanwhile.  It returns the state and what is left in
    [new_location_queue]. *)
Definition overseer_turn (paused : bool) (new_location_queue : list location)
  (st : state) : state * list location :=
  if paused
  then
    (mkState [] (current_location st) (locations st) ScanningIsPaused,
     new_location_queue)
  else
    let st :=
      match new_location_queue with
      | [] => st
      | l :: rest =>
          (* the most recent location of the queue *)
          let current_location := last rest l in
          mkState [] (Some current_location) (scan_locations current_location)
                  (message st)
      end in
    match search_items_queue st with
    | [] =>
        (mkState (enumerate 1 (locations st)) (current_location st)
                 (locations st)
                 (match locations st with
                  | [] => message st
                  | _ :: _ => QueuingNextStep
                  end),
         [])
    | _ :: _ =>
        (mkState (search_items_queue st) (current_location st) (locations st)
                 ProcessingSearchQueue,
         [])
    end.

(** [search_items_queue.get()] in a worker thread: the head of the queue
    leaves it; on an empty queue the worker blocks. *)
Definition worker_get (st : state) : state :=
  mkState (tl (search_items_queue st)) (current_location st) (locations st)
          (message st).

(** What happens to the queue, in the order in which it happens. *)
Inductive action : Type :=
| OverseerTurn (paused : bool) (new_location_queue : list location)
| WorkerGet.

Definition act (st : state) (a : action) : state :=
  match a with
  | OverseerTurn paused new_location_queue =>
      fst (overseer_turn paused new_location_queue st)
  | WorkerGet => worker_get st
  end.

Definition run (actions : list action) (st : state) : state :=
  fold_left act actions st.

(** The queue holds a tail of the numbered grid, and the grid is the one
    of the current location. *)
Definition queue_of_grid (st : state) : Prop :=
  (exists k, search_items_queue st
             = skipn k (enumerate 1 (locations st))) /\
  match current_location st with
  | None => locations st = []
  | Some current => locations st = scan_locations current
  end.

End Turn.

(** The state in which the main loop is entered. *)
Definition initial_state : state := mkState [] None [] Initializing.

End GridOverseer.
(** * Properties *)

Section Loops.

(** Induction for a loop whose counter only grows and that stops at
    [limit]: a turn at [i] may rely on every later turn. *)
Lemma counting_loop_ind (limit : Z) (P : Z -> Prop) :
  (forall i, (forall j, i < limit -> i < j -> P j) -> P i) -> forall i, P i.
Proof.
  intros Hstep i.
  remember (Z.to_nat (limit - i)) as n eqn:En. revert i En.
  induction n as [n IH] using lt_wf_ind. intros i En.
  apply Hstep. intros j Hlt Hij.
  apply (IH (Z.to_nat (limit - j))); [lia | reflexivity].
Qed.

End Loops.

Section ClockFacts.
Import Clock.
Local Open Scope Q_scope.

(** C5 (as stated, refuted): [timeDif 0 1800] is [-1800], which is outside
    the half-open interval (-1800, 1800]. *)
Lemma timeDif_lower_end_attained :
  past_hour 0 /\ past_hour 1800 /\
  ~ (-1800 < timeDif 0 1800 /\ timeDif 0 1800 <= 1800).
Proof.
  unfold past_hour. repeat split; try (vm_compute; congruence).
  intros [H _]. vm_compute in H. discriminate H.
Qed.

(** C5 (amended): for times past the hour [a] and [b], [timeDif a b] lies
    in the closed interval [-1800, 1800], and [timeDif a b] is exactly the
    negation of [timeDif b a], with no exceptional point. *)
Theorem timeDif_range_antisym (a b : Q) :
  past_hour a -> past_hour b ->
  (-1800 <= timeDif a b /\ timeDif a b <= 1800) /\
  timeDif a b == - timeDif b a.
Proof.
  unfold past_hour, timeDif. intros Ha Hb. cbv zeta.
  destruct (Qlt_le_dec (a - b) (-1800)); destruct (Qlt_le_dec (b - a) (-1800));
    repeat match goal with
           | |- context [Qlt_le_dec ?x ?y] => destruct (Qlt_le_dec x y)
           end; repeat split; lra.
Qed.

Lemma timeDif_range_antisym_witness :
  (-1800 <= timeDif 0 1800 /\ timeDif 0 1800 <= 1800) /\
  timeDif 0 1800 == - timeDif 1800 0.
Proof.
  apply (timeDif_range_antisym 0 1800); unfold past_hour; lra.
Defined.

End ClockFacts.

Section CursorFacts.
Import Cursor.

Lemma midpoint_between (first last : Z) :
  first < last -> first <= (first + last) / 2 < last.
Proof.
  intro H. split; [apply Z.div_le_lower_bound | apply Z.div_lt_upper_bound]; lia.
Qed.

Ltac midpoint :=
  match goal with
  | H : ?f < ?l |- _ => pose proof (midpoint_between f l H)
  end.

(** The loop never leaves the interval it starts on. *)
Lemma search_loop_bounds (Slist : list spawn) (T : Q) (first last : Z) :
  first <= last -> first <= search_loop Slist T first last <= last.
Proof.
  funelim (search_loop Slist T first last); intro Hle; try midpoint;
    try match goal with
        | IH : _ -> _ <= search_loop _ _ _ _ <= _ |- _ =>
            specialize (IH ltac:(lia))
        end; lia.
Qed.

(** When every entry the loop can probe is below [T], the loop walks up to
    [last]. *)
Lemma search_loop_all_below (Slist : list spawn) (T : Q) (first last : Z) :
  first <= last ->
  (forall i, first <= i < last -> (time_at Slist i < T)%Q) ->
  search_loop Slist T first last = last.
Proof.
  funelim (search_loop Slist T first last); intros Hle Hbelow; try midpoint.
  - lia.
  - match goal with
    | IH : _ -> _ -> search_loop _ _ _ _ = _ |- _ =>
        apply IH; [lia | intros i Hi; apply Hbelow; lia]
    end.
  - exfalso.
    match goal with
    | Hge : (T <= time_at Slist ?m)%Q |- _ =>
        apply (Qlt_not_le _ _ (Hbelow m ltac:(lia))); exact Hge
    end.
Qed.

(** The lower-bound invariant: everything left of [first] is below [T] and
    the entry at [last] is not. *)
Lemma search_loop_lower_bound (Slist : list spawn) (T : Q) (first last : Z) :
  first <= last ->
  (forall i j, first <= i <= j -> j <= last ->
               (time_at Slist i <= time_at Slist j)%Q) ->
  (T <= time_at Slist last)%Q ->
  (T <= time_at Slist (search_loop Slist T first last))%Q /\
  (forall i, first <= i < search_loop Slist T first last ->
             (time_at Slist i < T)%Q).
Proof.
  funelim (search_loop Slist T first last); intros Hle Hsorted Hlast;
    try midpoint.
  - assert (E : first = last) by lia.
    split; [rewrite E; assumption | intros; lia].
  - match goal with
    | IH : _ -> _ -> _ -> _ /\ _ |- _ =>
        destruct IH as [IH1 IH2];
          [lia | intros; apply Hsorted; lia | assumption | ]
    end.
    split; [exact IH1 |].
    intros i Hi.
    destruct (Z_lt_dec i ((first + last) / 2 + 1)) as [Hlow | Hhigh].
    + apply Qle_lt_trans with (time_at Slist ((first + last) / 2));
        [apply Hsorted; lia | assumption].
    + apply IH2. lia.
  - match goal with
    | IH : _ -> _ -> _ -> _ /\ _ |- _ =>
        destruct IH as [IH1 IH2];
          [lia | intros; apply Hsorted; lia | assumption | ]
    end.
    split; assumption.
Qed.

Lemma time_sorted_index (Slist : list spawn) :
  time_sorted Slist ->
  forall i j, 0 <= i <= j -> j < Z.of_nat (length Slist) ->
              (time_at Slist i <= time_at Slist j)%Q.
Proof.
  unfold time_at. induction 1 as [| a l Hs IH Hall]; intros i j Hij Hj.
  - simpl in Hj. lia.
  - simpl length in Hj. simpl map.
    destruct (Z.to_nat i) as [| i'] eqn:Ei; destruct (Z.to_nat j) as [| j'] eqn:Ej.
    + apply Qle_refl.
    + simpl. rewrite Forall_forall in Hall.
      change (nth j' (map time l) 0%Q)
        with (nth j' (map time l) (time (mkSpawn 0 0 0 None))).
      rewrite map_nth. apply Hall. apply nth_In. lia.
    + lia.
    + simpl. specialize (IH (Z.of_nat i') (Z.of_nat j')).
      rewrite !Nat2Z.id in IH. apply IH; lia.
Qed.

(** C10: on a nonempty list, [SbSearch] returns an index in
    [0, len(Slist) - 1] for every threshold [T]; when every entry's time is
    strictly below [T] it returns the last index [len(Slist) - 1]. *)
Theorem SbSearch_in_range (Slist : list spawn) (T : Q) :
  Slist <> [] ->
  0 <= SbSearch Slist T <= Z.of_nat (length Slist) - 1 /\
  ((forall i, 0 <= i < Z.of_nat (length Slist) -> (time_at Slist i < T)%Q) ->
   SbSearch Slist T = Z.of_nat (length Slist) - 1).
Proof.
  intro Hne. unfold SbSearch. cbv zeta.
  assert (Hlen : 0 <= Z.of_nat (length Slist) - 1)
    by (destruct Slist; [congruence | simpl length; lia]).
  split.
  - apply search_loop_bounds. exact Hlen.
  - intro Hbelow. apply search_loop_all_below; [exact Hlen |].
    intros i Hi. apply Hbelow. lia.
Qed.

Lemma SbSearch_in_range_witness :
  0 <= SbSearch sample_schedule 40 <= 2 /\
  ((forall i, 0 <= i < 3 -> (time_at sample_schedule i < 40)%Q) ->
   SbSearch sample_schedule 40 = 2).
Proof.
  apply (SbSearch_in_range sample_schedule 40). discriminate.
Defined.

(** C7: on a nonempty list sorted ascending by ['time'] that has an entry
    with time at least [T], [SbSearch] returns the smallest index whose
    time is at least [T]: the entry there is not below [T], every entry
    before it is, and no index with an entry at or above [T] is smaller. *)
Theorem SbSearch_smallest_index (Slist : list spawn) (T : Q) :
  Slist <> [] ->
  time_sorted Slist ->
  (exists k, 0 <= k < Z.of_nat (length Slist) /\ (T <= time_at Slist k)%Q) ->
  0 <= SbSearch Slist T < Z.of_nat (length Slist) /\
  (T <= time_at Slist (SbSearch Slist T))%Q /\
  (forall i, 0 <= i < SbSearch Slist T -> (time_at Slist i < T)%Q) /\
  (forall j, 0 <= j -> (T <= time_at Slist j)%Q -> SbSearch Slist T <= j).
Proof.
  intros Hne Hsorted [k [Hk HkT]].
  cut (0 <= SbSearch Slist T < Z.of_nat (length Slist) /\
       (T <= time_at Slist (SbSearch Slist T))%Q /\
       (forall i, 0 <= i < SbSearch Slist T -> (time_at Slist i < T)%Q)).
  { intros [Hrange [Hat Hbefore]]. repeat split; try assumption; try lia.
    intros j Hj HjT. destruct (Z_lt_dec j (SbSearch Slist T)) as [Hlt | Hge];
      [| lia].
    exfalso. apply (Qlt_not_le _ _ (Hbefore j ltac:(lia))). exact HjT. }
  pose proof (SbSearch_bounds_aux := search_loop_bounds Slist T 0
                (Z.of_nat (length Slist) - 1)).
  unfold SbSearch. cbv zeta.
  assert (Hlen : 0 <= Z.of_nat (length Slist) - 1) by lia.
  specialize (SbSearch_bounds_aux Hlen).
  split; [lia |].
  apply search_loop_lower_bound.
  - exact Hlen.
  - intros i j Hij Hj. apply time_sorted_index; [assumption | lia | lia].
  - apply Qle_trans with (time_at Slist k); [exact HkT |].
    apply time_sorted_index; [assumption | lia | lia].
Qed.

Lemma SbSearch_smallest_index_witness :
  0 <= SbSearch sample_schedule 15 < 3 /\
  (15 <= time_at sample_schedule (SbSearch sample_schedule 15))%Q /\
  (forall i, 0 <= i < SbSearch sample_schedule 15 ->
             (time_at sample_schedule i < 15)%Q) /\
  (forall j, 0 <= j -> (15 <= time_at sample_schedule j)%Q ->
             SbSearch sample_schedule 15 <= j).
Proof.
  apply (SbSearch_smallest_index sample_schedule 15).
  - discriminate.
  - unfold time_sorted, sample_schedule.
    repeat (constructor; try discriminate).
  - exists 1. vm_compute. split; [split; [discriminate | reflexivity] | discriminate].
Defined.

End CursorFacts.

Section StepFacts.
Import Steps.
Variable m : libm.




Lemma walk_rings_unfold xdist ydist step_count ring loc :
  walk_rings m xdist ydist step_count ring loc =
  if Z_lt_dec ring step_count then
    fst (walk_ring m xdist ydist (Z.to_nat ring) loc)
      ++ walk_rings m xdist ydist step_count (ring + 1)
           (snd (walk_ring m xdist ydist (Z.to_nat ring) loc))
  else [].
Proof.
  funelim (walk_rings m xdist ydist step_count ring loc);
    match goal with
    | H : Z_lt_dec _ _ = _ |- _ => rewrite H
    end; reflexivity.
Qed.


End StepFacts.

Section StepClaims.
Import Steps.
#[local] Set Warnings "-inexact-float".



End StepClaims.

Section ThreadFacts.
Import Effects Login Worker.
Local Open Scope thread_scope.

(** *** Traces and counters through the monad *)

Lemma emits_only_ret {A} ok (a : A) : emits_only ok (ret a).
Proof. intro s. reflexivity. Qed.

Lemma emits_only_raise {A} ok e : emits_only ok (@raise A e).
Proof. intro s. reflexivity. Qed.

Lemma emits_only_modify ok f : emits_only ok (modify f).
Proof. intro s. reflexivity. Qed.

Lemma emits_only_emit ok e : ok e = true -> emits_only ok (emit e).
Proof. intros H s. unfold trace. simpl. rewrite H. reflexivity. Qed.

Lemma emits_only_bind {A B} ok (c : M A) (k : A -> M B) :
  emits_only ok c -> (forall a, emits_only ok (k a)) -> emits_only ok (bind c k).
Proof.
  intros Hc Hk s. unfold bind, trace. specialize (Hc s). unfold trace in Hc.
  destruct (c s) as [[[a | e] s1] t1]; simpl in *.
  - specialize (Hk a s1). unfold trace in Hk.
    destruct (k a s1) as [[r s2] t2]. simpl in *.
    rewrite forallb_app, Hc, Hk. reflexivity.
  - exact Hc.
Qed.

Lemma preserves_ret {A} field (a : A) : preserves field (ret a).
Proof. intro s. reflexivity. Qed.

Lemma preserves_raise {A} field e : preserves field (@raise A e).
Proof. intro s. reflexivity. Qed.

Lemma preserves_emit field e : preserves field (emit e).
Proof. intro s. reflexivity. Qed.

Lemma preserves_bind {A B} field (c : M A) (k : A -> M B) :
  preserves field c -> (forall a, preserves field (k a)) ->
  preserves field (bind c k).
Proof.
  intros Hc Hk s. unfold bind, status_after. specialize (Hc s).
  unfold status_after in Hc.
  destruct (c s) as [[[a | e] s1] t1]; simpl in *.
  - specialize (Hk a s1). unfold status_after in Hk.
    destruct (k a s1) as [[r s2] t2]. simpl in *. congruence.
  - exact Hc.
Qed.

Lemma preserves_skip_set_message m : preserves st_skip (set_message m).
Proof. intro s. reflexivity. Qed.
Lemma preserves_skip_incr_fail : preserves st_skip incr_fail.
Proof. intro s. reflexivity. Qed.
Lemma preserves_skip_incr_success : preserves st_skip incr_success.
Proof. intro s. reflexivity. Qed.
Lemma preserves_skip_incr_noitems : preserves st_skip incr_noitems.
Proof. intro s. reflexivity. Qed.

Create HintDb thread discriminated.
#[local] Hint Resolve emits_only_ret emits_only_raise emits_only_modify
  emits_only_emit preserves_ret preserves_raise preserves_emit
  preserves_skip_set_message preserves_skip_incr_fail
  preserves_skip_incr_success preserves_skip_incr_noitems : thread.

(** Splits a goal about a sequence of thread actions into its actions. *)
Ltac thread_steps :=
  repeat first
    [ apply emits_only_bind; [| intro]
    | apply preserves_bind; [| intro]
    | progress unfold set_message, incr_fail, incr_success, incr_noitems,
        incr_skip
    | assumption
    | solve [auto with thread]
    | solve [apply emits_only_emit; reflexivity] ].

(** Replays the [with] clauses an unfolding of a loop went through. *)
Ltac unfold_with_clauses :=
  repeat match goal with
         | H : _ = left _ |- _ => rewrite H; clear H
         | H : _ = right _ |- _ => rewrite H; clear H
         | H : _ = AuthOk |- _ => rewrite H; clear H
         | H : _ = AuthFails |- _ => rewrite H; clear H
         | H : _ = AuthCrashes |- _ => rewrite H; clear H
         end.

(** *** [check_login] *)

(** One turn of the login loop. *)
Lemma login_loop_unfold a auth i :
  login_loop a auth i =
  if Z_lt_dec i (login_retries a) then
    match auth i with
    | AuthOk => emit SetAuthentication
    | AuthCrashes => emit SetAuthentication ;; raise OtherException
    | AuthFails =>
        emit SetAuthentication ;;
        (if i >=? login_retries a
         then raise TooManyLoginAttempts
         else emit (Log LogLoginFailed) ;;
              emit (Sleep (login_delay a)) ;;
              login_loop a auth (i + 1))
    end
  else ret tt.
Proof.
  funelim (login_loop a auth i); unfold_with_clauses; reflexivity.
Qed.

Lemma login_loop_emits_only ok a auth i :
  ok SetAuthentication = true -> ok (Log LogLoginFailed) = true ->
  (forall d, ok (Sleep d) = true) ->
  emits_only ok (login_loop a auth i).
Proof.
  intros H1 H2 H3. revert i.
  apply (counting_loop_ind (login_retries a)). intros i IH.
  rewrite login_loop_unfold.
  destruct (Z_lt_dec i (login_retries a)) as [Hlt | Hge]; [| thread_steps].
  specialize (IH (i + 1) Hlt ltac:(lia)).
  destruct (auth i); thread_steps.
  destruct (i >=? login_retries a); thread_steps.
Qed.

Lemma login_loop_preserves field a auth i :
  preserves field (login_loop a auth i).
Proof.
  revert i. apply (counting_loop_ind (login_retries a)). intros i IH.
  rewrite login_loop_unfold.
  destruct (Z_lt_dec i (login_retries a)) as [Hlt | Hge]; [| thread_steps].
  specialize (IH (i + 1) Hlt ltac:(lia)).
  destruct (auth i); thread_steps.
  destruct (i >=? login_retries a); thread_steps.
Qed.

Lemma check_login_emits_only ok a ticket auth :
  ok SetAuthentication = true -> ok SetPosition = true ->
  (forall l, ok (Log l) = true) -> (forall d, ok (Sleep d) = true) ->
  emits_only ok (check_login a ticket auth).
Proof.
  intros H1 H2 H3 H4. unfold check_login.
  assert (emits_only ok (emit SetPosition ;; login_loop a auth 0 ;;
                         emit (Log LogLoginSuccessful))).
  { thread_steps. apply login_loop_emits_only; auto. }
  destruct ticket as [remaining_time |]; [| assumption].
  destruct (Qlt_le_dec 60 remaining_time); [thread_steps | assumption].
Qed.

Lemma check_login_preserves field a ticket auth :
  preserves field (check_login a ticket auth).
Proof.
  unfold check_login.
  assert (preserves field (emit SetPosition ;; login_loop a auth 0 ;;
                           emit (Log LogLoginSuccessful))).
  { thread_steps. apply login_loop_preserves. }
  destruct ticket as [remaining_time |]; [| assumption].
  destruct (Qlt_le_dec 60 remaining_time); [thread_steps | assumption].
Qed.

(** The guard [i >= args.login_retries] sits inside a loop that runs only
    while [i < args.login_retries]: the [raise] behind it is never reached. *)
Lemma login_loop_never_too_many a auth i s :
  outcome (login_loop a auth i s) <> Raises TooManyLoginAttempts.
Proof.
  revert i s. apply (counting_loop_ind (login_retries a)
                       (fun i => forall s, outcome (login_loop a auth i s) <> _)).
  intros i IH s. rewrite login_loop_unfold.
  destruct (Z_lt_dec i (login_retries a)) as [Hlt | Hge]; [| discriminate].
  destruct (auth i); try discriminate.
  destruct (Z.geb_spec i (login_retries a)) as [Hge | _]; [lia |].
  unfold bind, emit, outcome. simpl. specialize (IH (i + 1) Hlt ltac:(lia) s). unfold outcome in IH.
  destruct (login_loop a auth (i + 1) s) as [[[[] | e] s2] t2]; simpl in *.
  - discriminate.
  - exact IH.
Qed.

(** When every call of [set_authentication] raises [AuthException], the
    loop ends by its own condition and returns. *)
Lemma login_loop_all_fail_returns a i s :
  outcome (login_loop a (fun _ => AuthFails) i s) = Returns tt.
Proof.
  revert i s. apply (counting_loop_ind (login_retries a)
    (fun i => forall s, outcome (login_loop a (fun _ => AuthFails) i s) = _)).
  intros i IH s. rewrite login_loop_unfold.
  destruct (Z_lt_dec i (login_retries a)) as [Hlt | Hge]; [| reflexivity].
  destruct (Z.geb_spec i (login_retries a)) as [Hge | _]; [lia |].
  unfold bind, emit, outcome. simpl. specialize (IH (i + 1) Hlt ltac:(lia) s). unfold outcome in IH.
  destruct (login_loop a (fun _ => AuthFails) (i + 1) s) as [[r s2] t2].
  simpl in *. exact IH.
Qed.

(** C3 (the code departs from the specification): [check_login] never
    raises [TooManyLoginAttempts]; when every one of the [login_retries]
    calls of [set_authentication] raises [AuthException] it returns
    normally. *)
Theorem check_login_exhausted_returns_normally
  (a : args) (ticket : option Q) (s : status) :
  outcome (check_login a ticket (fun _ => AuthFails) s) = Returns tt /\
  (forall auth,
      outcome (check_login a ticket auth s) <> Raises TooManyLoginAttempts).
Proof.
  assert (Hlogin : forall auth,
    outcome ((emit SetPosition ;; login_loop a auth 0 ;;
              emit (Log LogLoginSuccessful)) s) <> Raises TooManyLoginAttempts).
  { intro auth. unfold bind, emit, outcome. simpl.
    pose proof (login_loop_never_too_many a auth 0 s) as H.
    unfold outcome in H.
    destruct (login_loop a auth 0 s) as [[[[] | e] s2] t2]; simpl in *;
      [discriminate | exact H]. }
  assert (Hfail :
    outcome ((emit SetPosition ;; login_loop a (fun _ => AuthFails) 0 ;;
              emit (Log LogLoginSuccessful)) s) = Returns tt).
  { unfold bind, emit, outcome. simpl.
    pose proof (login_loop_all_fail_returns a 0 s) as H.
    unfold outcome in H.
    destruct (login_loop a (fun _ => AuthFails) 0 s) as [[[[] | e] s2] t2];
      simpl in *; [reflexivity | discriminate]. }
  unfold check_login. split.
  - destruct ticket as [remaining_time |]; [| exact Hfail].
    destruct (Qlt_le_dec 60 remaining_time); [reflexivity | exact Hfail].
  - intro auth. destruct ticket as [remaining_time |]; [| apply Hlogin].
    destruct (Qlt_le_dec 60 remaining_time); [discriminate | apply Hlogin].
Qed.

(** With [login_retries = 3] and three failed logins the function sleeps
    three times, logs "successful" and returns. *)
Example check_login_three_failures :
  check_login (mkArgs 5 10 3 5) None (fun _ => AuthFails) fresh_status
  = (Returns tt, fresh_status,
     [SetPosition;
      SetAuthentication; Log LogLoginFailed; Sleep 5;
      SetAuthentication; Log LogLoginFailed; Sleep 5;
      SetAuthentication; Log LogLoginFailed; Sleep 5;
      Log LogLoginSuccessful]).
Proof. vm_compute. reflexivity. Qed.

(** *** The retry loop and the cooldown *)

Lemma long_sleep_unfold slept :
  long_sleep slept =
  if Z_lt_dec slept (2 * 60 * 20) then
    emit (Log LogBanned) ;;
    set_message MsgBanned ;;
    emit (Sleep 300) ;;
    long_sleep (slept + 300)
  else ret tt.
Proof.
  funelim (long_sleep slept); unfold_with_clauses; reflexivity.
Qed.

Lemma retry_loop_unfold md a world sleep_time failed_total :
  retry_loop md a world sleep_time failed_total =
  if Z_lt_dec failed_total (scan_retries a) then
    let sleep_time := (scan_delay a * (1 + inject_Z failed_total))%Q in
    check_login a (ticket (world failed_total)) (auth (world failed_total)) ;;
    emit MapRequest ;;
    match answer (world failed_total) with
    | NoResponse =>
        emit (Log LogDownloadFailed) ;;
        incr_fail ;;
        set_message (MsgNoResponse (failed_total + 1) sleep_time) ;;
        emit (Sleep sleep_time) ;;
        retry_loop md a world (Some sleep_time) (failed_total + 1)
    | Found findCount =>
        emit ParseMap ;;
        emit (Log LogStepCompleted) ;;
        emit TaskDone ;;
        (if findCount >? 0 then incr_success else incr_noitems) ;;
        ret (Some sleep_time)
    | ParseKeyError =>
        emit ParseMap ;;
        emit (Log LogParsingFailed) ;;
        incr_fail ;;
        set_message (MsgParsingFailed (failed_total + 1) sleep_time) ;;
        emit (Sleep sleep_time) ;;
        match md with
        | Grid => ret tt
        | SpawnScan => emit (Sleep sleep_time)
        end ;;
        retry_loop md a world (Some sleep_time) (failed_total + 1)
    | ParseCrashes =>
        emit ParseMap ;;
        raise OtherException
    end
  else
    emit (Log LogOverRetries) ;;
    match md with
    | Grid => set_message MsgAbandoning
    | SpawnScan => ret tt
    end ;;
    emit TaskDone ;;
    long_sleep 0 ;;
    ret sleep_time.
Proof.
  funelim (retry_loop md a world sleep_time failed_total);
    unfold_with_clauses; reflexivity.
Qed.

(** The cooldown as it runs: eight turns, whatever the status. *)
Lemma long_sleep_runs_cooldown s :
  long_sleep 0 s
  = (Returns tt,
     mkStatus MsgBanned (st_success s) (st_fail s) (st_noitems s) (st_skip s),
     cooldown_trace).
Proof.
  do 9 (rewrite long_sleep_unfold;
        match goal with
        | |- context [Z_lt_dec ?x ?y] => destruct (Z_lt_dec x y); [| try lia]
        end; try lia; cbn [Z.add Pos.add Pos.succ Pos.add_carry]).
  reflexivity.
Qed.

Lemma long_sleep_emits_only slept : emits_only not_requeue (long_sleep slept).
Proof.
  revert slept. apply (counting_loop_ind (2 * 60 * 20)). intros slept IH.
  rewrite long_sleep_unfold.
  destruct (Z_lt_dec slept (2 * 60 * 20)) as [Hlt | Hge]; [| thread_steps].
  specialize (IH (slept + 300) Hlt ltac:(lia)). thread_steps.
Qed.


(** The retry loop never puts anything on a queue. *)
Lemma retry_loop_emits_only md a world sleep_time failed_total :
  emits_only not_requeue (retry_loop md a world sleep_time failed_total).
Proof.
  revert failed_total sleep_time.
  apply (counting_loop_ind (scan_retries a)
           (fun f => forall st, emits_only not_requeue (retry_loop md a world st f))).
  intros f IH st. rewrite retry_loop_unfold.
  destruct (Z_lt_dec f (scan_retries a)) as [Hlt | Hge].
  - specialize (IH (f + 1) Hlt ltac:(lia)). cbv zeta.
    apply emits_only_bind;
      [apply check_login_emits_only; reflexivity | intro].
    apply emits_only_bind; [thread_steps | intro].
    destruct (answer (world f)); thread_steps.
    + destruct md; thread_steps.
    + destruct (findCount >? 0); thread_steps.
  - pose proof (long_sleep_emits_only 0). destruct md; thread_steps.
Qed.


Lemma absent_event_occurrences (e : event) (t : list event) :
  forallb (fun e' => negb (is_event e e')) t = true -> occurrences e t = 0%nat.
Proof.
  unfold occurrences. induction t as [| e' t IH]; cbn [forallb filter]; intro H.
  - reflexivity.
  - apply andb_true_iff in H. destruct H as [He Ht].
    apply negb_true_iff in He. rewrite He. apply IH. exact Ht.
Qed.

(** When every attempt fails the loop runs through all of them and ends in
    the cooldown. *)
Lemma retry_loop_exhausted md a world :
  (forall i, 0 <= i < scan_retries a -> failed_attempt a (world i)) ->
  forall failed_total, 0 <= failed_total ->
  forall sleep_time s,
  exists sleep_time' s' attempts,
    retry_loop md a world sleep_time failed_total s
    = (Returns sleep_time', s',
       attempts ++ Log LogOverRetries :: TaskDone :: cooldown_trace) /\
    occurrences TaskDone attempts = 0%nat.
Proof.
  intro Hfail.
  apply (counting_loop_ind (scan_retries a)
    (fun f => 0 <= f -> forall st s, exists st' s' attempts,
       retry_loop md a world st f s
       = (Returns st', s',
          attempts ++ Log LogOverRetries :: TaskDone :: cooldown_trace) /\
       occurrences TaskDone attempts = 0%nat)).
  intros f IH Hf st s. rewrite retry_loop_unfold.
  destruct (Z_lt_dec f (scan_retries a)) as [Hlt | Hge].
  - specialize (IH (f + 1) Hlt ltac:(lia) ltac:(lia)).
    destruct (Hfail f ltac:(lia)) as [Hlogin Hanswer].
    destruct (Hlogin s) as [s1 [t1 Hs1]].
    pose proof (check_login_emits_only (fun e => negb (is_event TaskDone e)) a
                  (ticket (world f)) (auth (world f))
                  eq_refl eq_refl (fun _ => eq_refl) (fun _ => eq_refl) s)
      as Hquiet.
    rewrite Hs1 in Hquiet. unfold trace in Hquiet. cbn [snd] in Hquiet.
    pose proof (absent_event_occurrences TaskDone t1 Hquiet) as Ht1.
    cbv zeta. unfold bind at 1. rewrite Hs1.
    destruct Hanswer as [Ha | Ha]; rewrite Ha.
    + match goal with
      | |- context [retry_loop md a world ?st' (f + 1)] =>
          destruct (IH st'
            (mkStatus (MsgNoResponse (f + 1) (scan_delay a * (1 + inject_Z f))%Q)
               (st_success s1) (st_fail s1 + 1) (st_noitems s1) (st_skip s1)))
            as [st2 [s2 [att [Hrec Hatt]]]]
      end.
      unfold bind, emit, incr_fail, set_message, modify. simpl.
      rewrite Hrec.
      exists st2, s2,
        (t1 ++ MapRequest :: Log LogDownloadFailed
            :: Sleep (scan_delay a * (1 + inject_Z f))%Q :: att).
      split.
      * rewrite <- app_assoc. reflexivity.
      * unfold occurrences in *. rewrite filter_app, length_app, Ht1.
        simpl. exact Hatt.
    + match goal with
      | |- context [retry_loop md a world ?st' (f + 1)] =>
          destruct (IH st'
            (mkStatus (MsgParsingFailed (f + 1) (scan_delay a * (1 + inject_Z f))%Q)
               (st_success s1) (st_fail s1 + 1) (st_noitems s1) (st_skip s1)))
            as [st2 [s2 [att [Hrec Hatt]]]]
      end.
      destruct md; unfold bind, emit, incr_fail, set_message, modify, ret;
        simpl; rewrite Hrec.
      * exists st2, s2,
          (t1 ++ MapRequest :: ParseMap :: Log LogParsingFailed
              :: Sleep (scan_delay a * (1 + inject_Z f))%Q :: att).
        split.
        -- rewrite <- app_assoc. reflexivity.
        -- unfold occurrences in *. rewrite filter_app, length_app, Ht1.
           simpl. exact Hatt.
      * exists st2, s2,
          (t1 ++ MapRequest :: ParseMap :: Log LogParsingFailed
              :: Sleep (scan_delay a * (1 + inject_Z f))%Q
              :: Sleep (scan_delay a * (1 + inject_Z f))%Q :: att).
        split.
        -- rewrite <- app_assoc. reflexivity.
        -- unfold occurrences in *. rewrite filter_app, length_app, Ht1.
           simpl. exact Hatt.
  - destruct md; unfold bind, emit, set_message, modify, ret; simpl;
      rewrite long_sleep_runs_cooldown; simpl;
      eexists _, _, []; (split; [| reflexivity]);
      simpl; try rewrite app_nil_r; reflexivity.
Qed.

(** C2 (the code departs from the specification): when [scan_retries]
    attempts in a row fail, either worker marks the job done, puts nothing
    back on a queue and cools down; the cooldown is eight heartbeats, each
    followed by a sleep of 300 seconds, 2400 seconds (forty minutes) in
    all and not the two hours (7200 seconds) that the specification and
    the source comment announce. *)
Theorem exhausted_retries_cooldown
  (md : mode) (a : args) (world : Z -> attempt) (sleep_time : option Q)
  (s : status) :
  (forall i, 0 <= i < scan_retries a -> failed_attempt a (world i)) ->
  exists sleep_time' s' attempts,
    retry_loop md a world sleep_time 0 s
    = (Returns sleep_time', s',
       attempts ++ Log LogOverRetries :: TaskDone :: cooldown_trace) /\
    occurrences TaskDone attempts = 0%nat /\
    occurrences QueuePut
      (attempts ++ Log LogOverRetries :: TaskDone :: cooldown_trace) = 0%nat /\
    occurrences (Log LogBanned) cooldown_trace = 8%nat /\
    sleep_total cooldown_trace = 2400%Q /\
    ~ (sleep_total cooldown_trace == 7200)%Q.
Proof.
  intro Hfail.
  destruct (retry_loop_exhausted md a world Hfail 0 ltac:(lia) sleep_time s)
    as [st' [s' [attempts [Hrun Hdone]]]].
  exists st', s', attempts.
  split; [exact Hrun |]. split; [exact Hdone |]. split.
  - pose proof (retry_loop_emits_only md a world sleep_time 0 s) as Hquiet.
    rewrite Hrun in Hquiet. unfold trace in Hquiet. cbn [snd] in Hquiet.
    apply absent_event_occurrences. exact Hquiet.
  - split; [reflexivity |]. split; [reflexivity |].
    vm_compute. discriminate.
Qed.

Lemma exhausted_retries_cooldown_witness :
  exists sleep_time' s' attempts,
    retry_loop Grid (mkArgs 3 10 3 5) silent_world None 0 fresh_status
    = (Returns sleep_time', s',
       attempts ++ Log LogOverRetries :: TaskDone :: cooldown_trace) /\
    occurrences TaskDone attempts = 0%nat /\
    occurrences QueuePut
      (attempts ++ Log LogOverRetries :: TaskDone :: cooldown_trace) = 0%nat /\
    occurrences (Log LogBanned) cooldown_trace = 8%nat /\
    sleep_total cooldown_trace = 2400%Q /\
    ~ (sleep_total cooldown_trace == 7200)%Q.
Proof.
  apply (exhausted_retries_cooldown Grid (mkArgs 3 10 3 5) silent_world None
           fresh_status).
  intros i Hi. split.
  - intro s. exists s, [Log LogCredentialsValid]. reflexivity.
  - left. reflexivity.
Defined.

(** *** Stale jobs in spawn-scan mode *)





End ThreadFacts.

Section AssignerEvaluations.
Import Effects Assigner.
Local Open Scope Q_scope.

(** C1 (as stated, refuted): one worker, [scan_delay = 10], two spawn
    points at the same place with times 0 and 3595.  Both are committed
    to the worker, and from 3595 round the hour to 0 there are 5 seconds,
    less than [scan_delay], in a schedule of two points. *)
Lemma two_points_across_the_hour :
  greedy_assign degree_dist 10 (Fin 1) (Fin 0) [at_origin 0; at_origin 3595] 1
  = Returns (mkAssignment [[at_origin 0; at_origin 3595]] [] []) /\
  ~ well_spaced 10 [at_origin 0; at_origin 3595].
Proof.
  split; [vm_compute; reflexivity |].
  intros [Hsole | Hgaps].
  - simpl in Hsole. lia.
  - specialize (Hgaps 1%nat ltac:(simpl; lia)).
    vm_compute in Hgaps. apply Hgaps. reflexivity.
Qed.

(** C4 (as stated, refuted): one worker, [scan_delay = 10],
    [max_delay = 0], two spawn points at the same place with times 100 and
    105.  The second is committed at 110, five seconds after its natural
    time, with a delay of 0 on its score. *)
Lemma clamp_shift_exceeds_max_delay :
  greedy_assign degree_dist 10 (Fin 1) (Fin 0) [at_origin 100; at_origin 105] 1
  = Returns (mkAssignment [[at_origin 100; at_origin 110]] [] []) /\
  ~ (110 - 105 <= 0).
Proof.
  split; [vm_compute; reflexivity | vm_compute; intro H; apply H; reflexivity].
Qed.

(** C9 (the code departs from the specification): with
    [max_delay = float('inf')] a point for which no worker has room passes
    the test [delay <= max_delay], is not inserted by [insert], and is not
    added to [bad] either.  Of three points at the same place with times
    100, 101 and 102 the third is in neither list, and the merged schedule
    holds two entries. *)
Theorem point_lost_under_infinite_max_delay :
  greedy_assign degree_dist 10 (Fin 1) Inf
    [at_origin 100; at_origin 101; at_origin 102] 1
  = Returns (mkAssignment [[at_origin 100; at_origin 110]] [Inf] []) /\
  assign_spawns degree_dist 10 (Fin 1) Inf
    [at_origin 100; at_origin 101; at_origin 102] 1
  = Returns [mkSpawn 0 0 100 (Some 0%nat); mkSpawn 0 0 110 (Some 0%nat)].
Proof.
  split; vm_compute; reflexivity.
Qed.

(** The entry after the slot is not protected either.  Under the stand-in
    distance, with a speed limit that makes the way from the origin to
    the second point take 100 seconds: the second point (natural time 150)
    is wiggled to 200, and a third point 8 metres from it, natural time
    195, is then committed between the two, 5 seconds before its
    successor. *)
Example wiggled_successor_too_close :
  match greedy_assign degree_dist 10 (Fin (111195 # 100000)) (Fin 60)
          [at_origin 100; mkSpawn 0 (1 # 1000) 150 None;
           mkSpawn 0 (92 # 100000) 195 None] 1 with
  | Returns st =>
      match queues st with
      | [[first; second; third]] =>
          time first == 100 /\ time second == 195 /\ time third == 200
      | _ => False
      end
  | Raises _ => False
  end.
Proof. vm_compute. repeat split. Qed.

End AssignerEvaluations.

Section AssignerFacts.
Import Effects Assigner.
Local Open Scope Q_scope.

Variable dist : spawn -> spawn -> Q.
Variable scan_delay : Q.
Variable max_speed : num.
Variable max_delay : num.

#[local] Abbreviation placement := (placement dist scan_delay max_speed).
#[local] Abbreviation insert := (insert dist scan_delay max_speed).
#[local] Abbreviation speed := (speed dist scan_delay).
#[local] Abbreviation clamped_time := (clamped_time scan_delay).
#[local] Abbreviation greedy_step := (greedy_step dist scan_delay max_speed max_delay).
#[local] Abbreviation greedy_loop := (greedy_loop dist scan_delay max_speed max_delay).
#[local] Abbreviation greedy_assign := (greedy_assign dist scan_delay max_speed max_delay).
#[local] Abbreviation assign_spawns := (assign_spawns dist scan_delay max_speed max_delay).

Lemma mod3600_nonneg (x : Q) : 0 <= mod3600 x.
Proof.
  unfold mod3600. pose proof (Qfloor_le (x / 3600)) as H.
  assert (Hx : x == 3600 * (x / 3600)) by (field).
  lra.
Qed.

Lemma pymax_le_r (a b : Q) : b <= pymax a b.
Proof. unfold pymax. destruct (Qlt_le_dec a b); lra. Qed.

Lemma pymax_le_l (a b : Q) : a <= pymax a b.
Proof. unfold pymax. destruct (Qlt_le_dec a b); lra. Qed.

Lemma Qle_bool_false (x y : Q) : Qle_bool x y = false -> y < x.
Proof.
  intro H. apply Qnot_le_lt. intro Hle.
  apply Qle_bool_iff in Hle. congruence.
Qed.

(** [placement] only changes the time of the point. *)
Lemma placement_same_point queue sp placed sc :
  placement queue sp = Returns (placed, sc) ->
  lat placed = lat sp /\ lng placed = lng sp /\ worker placed = worker sp.
Proof.
  unfold Assigner.placement. cbv zeta.
  repeat match goal with
         | |- context [if ?c then _ else _] => destruct c
         | |- context [over_max_speed ?v ?x] => destruct (over_max_speed v x)
         end;
    intro H; inversion H; subst; auto.
Qed.

(** The committed time is the clamped time plus the delay of the score. *)
Lemma placement_time queue sp placed sc d :
  placement queue sp = Returns (placed, sc) ->
  delay sc = Fin d ->
  time placed == clamped_time queue sp + d.
Proof.
  unfold Assigner.placement, Assigner.clamped_time. cbv zeta.
  repeat match goal with
         | |- context [if ?c then _ else _] => destruct c
         | |- context [over_max_speed ?v ?x] => destruct (over_max_speed v x)
         end;
    intros H Hd; inversion H; subst; simpl in Hd; try discriminate;
    inversion Hd; subst; simpl; lra.
Qed.

(** A point that finds room is placed at least [scan_delay] after the
    point before its slot. *)
Lemma placement_after_predecessor queue sp placed sc :
  positive_speed max_speed ->
  (forall a b, 0 <= dist a b) ->
  placement queue sp = Returns (placed, sc) ->
  delay sc <> Inf ->
  time (nth (prev_index (slot queue sp) queue) queue sp) + scan_delay
  <= time placed.
Proof.
  intros Hspeed Hdist. unfold Assigner.placement. cbv zeta.
  set (qi := nth (prev_index (slot queue sp) queue) queue sp).
  set (qj := nth (next_index (slot queue sp) queue) queue sp).
  set (clamped := set_time sp (pymax (time sp) (time qi + scan_delay))).
  assert (Hclamp : time qi + scan_delay <= time clamped)
    by (apply pymax_le_r).
  destruct (negb (prev_index (slot queue sp) queue =? next_index (slot queue sp) queue)%nat
            && negb (Qle_bool (2 * scan_delay) (mod3600 (time qj - time qi)))).
  { intros H Hd. inversion H; subst. contradiction Hd. reflexivity. }
  destruct (num_leb (speed qi clamped) max_speed
            && num_leb (speed clamped qj) max_speed) eqn:Hok.
  { intros H Hd. inversion H; subst. exact Hclamp. }
  destruct (num_ltb max_speed (speed clamped qj)) eqn:Hs2.
  { intros H Hd. inversion H; subst. contradiction Hd. reflexivity. }
  (* only s1 exceeds the limit *)
  assert (Hs1 : num_leb (speed qi clamped) max_speed = false).
  { unfold num_ltb in Hs2. apply negb_false_iff in Hs2.
    rewrite Hs2, andb_true_r in Hok. exact Hok. }
  unfold over_max_speed.
  destruct max_speed as [v |]; [| destruct (speed qi clamped); discriminate].
  simpl in Hspeed.
  destruct (Qeq_bool v 0) eqn:Hv0; [intros H; discriminate |].
  destruct (negb (Qle_bool (dist qi clamped / v - (time clamped - time qi))
                           (mod3600 (time clamped - time qj)))).
  { intros H Hd. inversion H; subst. contradiction Hd. reflexivity. }
  intros H Hd. inversion H; subst. clear H Hd. simpl.
  (* the wiggled time is the predecessor's time plus dist / v *)
  assert (Htravel : scan_delay <= dist qi clamped / v).
  { unfold Assigner.speed in Hs1. cbv zeta in Hs1.
    set (t := pymax (mod3600 (time clamped - time qi)) scan_delay) in *.
    assert (Ht_sd : scan_delay <= t) by (apply pymax_le_r).
    assert (Ht_0 : 0 <= t).
    { apply Qle_trans with (mod3600 (time clamped - time qi));
        [apply mod3600_nonneg | apply pymax_le_l]. }
    destruct (Qeq_bool t 0) eqn:Ht.
    - apply Qeq_bool_iff in Ht.
      apply Qle_trans with 0; [lra |].
      apply Qle_shift_div_l; [exact Hspeed |]. specialize (Hdist qi clamped). lra.
    - simpl in Hs1. apply Qle_bool_false in Hs1.
      assert (Htpos : 0 < t).
      { apply Qeq_bool_neq in Ht. lra. }
      apply Qle_trans with t; [exact Ht_sd |].
      apply Qle_shift_div_l; [exact Hspeed |].
      apply Qlt_le_weak.
      assert (Hd : dist qi clamped == dist qi clamped / t * t)
        by (field; lra).
      rewrite Hd. rewrite (Qmult_comm t v).
      apply Qmult_lt_compat_r; assumption. }
  lra.
Qed.

(** A dry run and a real run of [insert] return the same score; the dry
    run leaves the queue alone. *)
Lemma insert_dry_run queue sp :
  match insert queue sp true, insert queue sp false with
  | Returns (q1, sc1), Returns (q2, sc2) => q1 = queue /\ sc1 = sc2
  | Raises e1, Raises e2 => e1 = e2
  | _, _ => False
  end.
Proof.
  unfold Assigner.insert. destruct queue as [| q0 queue'].
  - split; reflexivity.
  - destruct (placement (q0 :: queue') sp) as [[placed sc] | e].
    + split; reflexivity.
    + reflexivity.
Qed.

(** What a real run of [insert] leaves in the queue. *)
Lemma insert_commit queue sp queue' sc :
  insert queue sp false = Returns (queue', sc) ->
  (queue' = queue /\ delay sc = Inf) \/
  exists placed d,
    delay sc = Fin d /\
    queue' = list_insert (slot queue sp) placed queue /\
    lat placed = lat sp /\ lng placed = lng sp /\ worker placed = worker sp /\
    match queue with
    | [] => placed = sp /\ d = 0
    | _ :: _ => placement queue sp = Returns (placed, sc)
    end.
Proof.
  unfold Assigner.insert. destruct queue as [| q0 rest].
  - intro H. inversion H; subst. right. exists sp, 0.
    simpl. repeat split; reflexivity.
  - destruct (placement (q0 :: rest) sp) as [[placed sc'] | e] eqn:Hp;
      [| discriminate].
    intro H. inversion H; subst. clear H.
    destruct (delay sc) as [d |] eqn:Hd.
    + right. exists placed, d.
      destruct (placement_same_point _ _ _ _ Hp) as [Hlat [Hlng Hw]].
      simpl. repeat split; auto.
    + left. split; reflexivity.
Qed.

(** *** One turn of [greedy_assign]'s loop *)

Lemma min_from_In (m : score * nat) (rest : list (score * nat)) :
  In (min_from m rest) (m :: rest).
Proof.
  revert m. induction rest as [| x rest IH]; intro m; simpl.
  - left. reflexivity.
  - destruct (IH (if entry_ltb x m then x else m)) as [H | H].
    + destruct (entry_ltb x m); [right; left | left]; exact H.
    + right. right. exact H.
Qed.

Lemma min_entry_In (scores : list (score * nat)) (e : score * nat) :
  min_entry scores = Returns e -> In e scores.
Proof.
  destruct scores as [| x rest]; simpl; intro H; inversion H; subst.
  apply min_from_In.
Qed.

(** Every entry of the score list is the dry-run score of the queue with
    its index. *)
Lemma dry_scores_In (Q : list (list spawn)) (sp : spawn) :
  forall (i : nat) (scores : list (score * nat)) (sc : score) (index : nat),
  dry_scores dist scan_delay max_speed i Q sp = Returns scores ->
  In (sc, index) scores ->
  (i <= index < i + length Q)%nat /\
  exists q, insert (nth (index - i) Q []) sp true = Returns (q, sc).
Proof.
  induction Q as [| q0 Q' IH]; intros i scores sc index Hscores Hin; simpl in *.
  - inversion Hscores; subst. contradiction.
  - destruct (insert q0 sp true) as [[q sc0] | e] eqn:Hq0; [| discriminate].
    destruct (dry_scores dist scan_delay max_speed (S i) Q' sp)
      as [rest | e] eqn:Hrest; [| discriminate].
    inversion Hscores; subst. destruct Hin as [Hhead | Htail].
    + inversion Hhead; subst. split; [lia |].
      rewrite Nat.sub_diag. exists q. exact Hq0.
    + destruct (IH (S i) rest sc index Hrest Htail) as [Hrange [q' Hq']].
      split; [lia |].
      replace (index - i)%nat with (S (index - S i)) by lia.
      exists q'. exact Hq'.
Qed.

(** The outcome of one turn: the point is rejected, or a real run of
    [insert] on the chosen queue decides. *)
Lemma greedy_step_cases (st st' : assignment) (sp : spawn) :
  greedy_step st sp = Returns st' ->
  exists sc w,
    (w < length (queues st))%nat /\
    ((num_leb (delay sc) max_delay = false /\
      queues st' = queues st /\ bad st' = bad st ++ [sp]) \/
     (num_leb (delay sc) max_delay = true /\
      bad st' = bad st /\
      exists q,
        insert (nth w (queues st) []) sp false = Returns (q, sc) /\
        queues st' = set_queue w q (queues st))).
Proof.
  unfold Assigner.greedy_step.
  destruct (dry_scores dist scan_delay max_speed 0 (queues st) sp)
    as [scores | e] eqn:Hscores; [| discriminate].
  destruct (min_entry scores) as [[min_score min_index] | e] eqn:Hmin;
    [| discriminate].
  apply min_entry_In in Hmin.
  destruct (dry_scores_In _ _ _ _ _ _ Hscores Hmin) as [Hrange [q Hdry]].
  rewrite Nat.sub_0_r in Hdry.
  pose proof (insert_dry_run (nth min_index (queues st) []) sp) as Hsame.
  rewrite Hdry in Hsame.
  destruct (num_leb (delay min_score) max_delay) eqn:Hgate.
  - destruct (insert (nth min_index (queues st) []) sp false)
      as [[q' sc'] | e] eqn:Hreal; [| contradiction].
    destruct Hsame as [_ Hsc]. subst sc'.
    intro H. inversion H; subst. clear H.
    exists min_score, min_index. split; [lia |]. right.
    split; [exact Hgate |]. split; [reflexivity |].
    exists q'. split; [exact Hreal | reflexivity].
  - intro H. inversion H; subst. clear H.
    exists min_score, min_index. split; [lia |]. left.
    repeat split; auto.
Qed.

Lemma set_queue_same (Q : list (list spawn)) (w : nat) :
  set_queue w (nth w Q []) Q = Q.
Proof.
  revert w. induction Q as [| q Q' IH]; intros [| w']; simpl;
    try reflexivity.
  rewrite IH. reflexivity.
Qed.

(** The outcome of one turn, with what [insert] did spelled out: the
    queues are left as they were, or one queue received the placed copy
    of the point at its slot. *)
Lemma greedy_step_commit (st st' : assignment) (sp : spawn) :
  greedy_step st sp = Returns st' ->
  queues st' = queues st \/
  exists w placed d sc,
    (w < length (queues st))%nat /\
    queues st'
    = set_queue w (list_insert (slot (nth w (queues st) []) sp) placed
                               (nth w (queues st) []))
                (queues st) /\
    lat placed = lat sp /\ lng placed = lng sp /\
    delay sc = Fin d /\ num_leb (Fin d) max_delay = true /\
    match nth w (queues st) [] with
    | [] => placed = sp /\ d = 0
    | _ :: _ => placement (nth w (queues st) []) sp = Returns (placed, sc)
    end.
Proof.
  intro Hstep.
  destruct (greedy_step_cases _ _ _ Hstep)
    as [sc [w [Hw [[_ [Hq _]] | [Hgate [_ [q [Hins Hq]]]]]]]].
  - left. exact Hq.
  - destruct (insert_commit _ _ _ _ Hins)
      as [[Hsame _] | [placed [d [Hd [Hq' [Hlat [Hlng [_ Hplace]]]]]]]].
    + left. rewrite Hq, Hsame. apply set_queue_same.
    + right. exists w, placed, d, sc.
      rewrite Hd in Hgate. subst q. repeat split; auto.
Qed.

Lemma degree_dist_nonneg (a b : spawn) : 0 <= degree_dist a b.
Proof.
  unfold degree_dist.
  pose proof (Qabs_nonneg (lat a - lat b)).
  pose proof (Qabs_nonneg (lng a - lng b)).
  apply Qmult_le_0_compat; lra.
Qed.

(** *** The whole loop: nothing is lost while [max_delay] is finite *)

Lemma list_insert_perm (k : nat) (x : spawn) (l : list spawn) :
  Permutation (list_insert k x l) (x :: l).
Proof.
  unfold list_insert. rewrite <- (firstn_skipn k l) at 3.
  symmetry. apply Permutation_middle.
Qed.

Lemma concat_set_queue_perm (Q : list (list spawn)) (w : nat) (q : list spawn)
  (x : spawn) :
  (w < length Q)%nat ->
  Permutation q (x :: nth w Q []) ->
  Permutation (concat (set_queue w q Q)) (x :: concat Q).
Proof.
  revert w. induction Q as [| q0 Q' IH]; intros [| w'] Hw Hq; simpl in *;
    try lia.
  - rewrite Hq. reflexivity.
  - rewrite (IH w' ltac:(lia) Hq).
    change (x :: q0 ++ concat Q') with ((x :: q0) ++ concat Q').
    rewrite <- Permutation_middle. reflexivity.
Qed.

Lemma length_set_queue (Q : list (list spawn)) (w : nat) (q : list spawn) :
  length (set_queue w q Q) = length Q.
Proof.
  revert w. induction Q as [| q0 Q' IH]; intros [| w']; simpl; auto.
Qed.

(** One turn moves the point into a queue or into [bad]. *)
Lemma greedy_step_partition (st st' : assignment) (sp : spawn) (limit : Q) :
  max_delay = Fin limit ->
  greedy_step st sp = Returns st' ->
  length (queues st') = length (queues st) /\
  Permutation (map coords (concat (queues st')) ++ map coords (bad st'))
              (coords sp :: map coords (concat (queues st))
                 ++ map coords (bad st)).
Proof.
  intros Hlimit Hstep.
  destruct (greedy_step_cases _ _ _ Hstep)
    as [sc [w [Hw [[_ [Hq Hbad]] | [Hgate [Hbad [q [Hins Hq]]]]]]]].
  - rewrite Hq, Hbad. split; [reflexivity |].
    rewrite map_app. simpl. rewrite app_assoc.
    rewrite <- Permutation_cons_append. reflexivity.
  - rewrite Hq, Hbad. split; [apply length_set_queue |].
    destruct (insert_commit _ _ _ _ Hins)
      as [[_ Hinf] | [placed [d [_ [Hq' [Hlat [Hlng _]]]]]]].
    + rewrite Hinf, Hlimit in Hgate. discriminate.
    + assert (Hperm : Permutation (concat (set_queue w q (queues st)))
                                  (placed :: concat (queues st))).
      { apply concat_set_queue_perm; [exact Hw |].
        rewrite Hq'. apply list_insert_perm. }
      rewrite Hperm. simpl. unfold coords at 1. rewrite Hlat, Hlng.
      reflexivity.
Qed.

Lemma greedy_loop_partition (limit : Q) (spawns : list spawn) :
  max_delay = Fin limit ->
  forall st st',
  greedy_loop st spawns = Returns st' ->
  length (queues st') = length (queues st) /\
  Permutation (map coords (concat (queues st')) ++ map coords (bad st'))
              (map coords spawns ++ map coords (concat (queues st))
                 ++ map coords (bad st)).
Proof.
  intro Hlimit. induction spawns as [| sp spawns IH]; intros st st' Hloop;
    simpl in Hloop.
  - inversion Hloop; subst. split; reflexivity.
  - destruct (greedy_step st sp) as [st1 | e] eqn:Hstep; [| discriminate].
    destruct (greedy_step_partition _ _ _ _ Hlimit Hstep) as [Hlen1 Hperm1].
    destruct (IH _ _ Hloop) as [Hlen Hperm].
    split; [congruence |].
    rewrite Hperm, Hperm1. simpl. symmetry. apply Permutation_middle.
Qed.

Lemma sort_insert_perm (x : spawn) (l : list spawn) :
  Permutation (sort_insert x l) (x :: l).
Proof.
  induction l as [| y l IH]; simpl.
  - reflexivity.
  - destruct (Qle_bool (time x) (time y)); [reflexivity |].
    rewrite IH. apply perm_swap.
Qed.

Lemma sort_by_time_perm (l : list spawn) : Permutation (sort_by_time l) l.
Proof.
  induction l as [| x l IH]; simpl.
  - reflexivity.
  - rewrite sort_insert_perm. constructor. exact IH.
Qed.

Lemma sort_insert_sorted (x : spawn) (l : list spawn) :
  Cursor.time_sorted l -> Cursor.time_sorted (sort_insert x l).
Proof.
  unfold Cursor.time_sorted. induction 1 as [| y l Hs IH Hall]; simpl.
  - repeat constructor.
  - destruct (Qle_bool (time x) (time y)) eqn:Hxy.
    + apply Qle_bool_iff in Hxy. constructor.
      * constructor; assumption.
      * constructor; [exact Hxy |].
        rewrite Forall_forall in *. intros z Hz.
        apply Qle_trans with (time y); [exact Hxy | apply Hall; exact Hz].
    + apply Qle_bool_false in Hxy. constructor; [exact IH |].
      rewrite Forall_forall in *. intros z Hz.
      apply (Permutation_in _ (sort_insert_perm x l)) in Hz.
      destruct Hz as [Hz | Hz]; [subst z; lra | apply Hall; exact Hz].
Qed.

Lemma sort_by_time_sorted (l : list spawn) : Cursor.time_sorted (sort_by_time l).
Proof.
  induction l as [| x l IH]; simpl.
  - constructor.
  - apply sort_insert_sorted. exact IH.
Qed.

(** While [max_delay] is finite, [greedy_assign] splits its input exactly
    between the queues and [bad]. *)
Lemma greedy_assign_partition (limit : Q) (spawns : list spawn) (n : nat)
  (st : assignment) :
  max_delay = Fin limit ->
  greedy_assign spawns n = Returns st ->
  length (queues st) = n /\
  Permutation (map coords (concat (queues st)) ++ map coords (bad st))
              (map coords spawns).
Proof.
  intros Hlimit Hrun. unfold Assigner.greedy_assign in Hrun.
  destruct (greedy_loop_partition _ _ Hlimit _ _ Hrun) as [Hlen Hperm].
  simpl in Hlen, Hperm. rewrite repeat_length in Hlen.
  split; [exact Hlen |].
  rewrite Hperm.
  assert (Hempty : concat (repeat (@nil spawn) n) = []).
  { clear. induction n; simpl; auto. }
  rewrite Hempty. simpl. rewrite app_nil_r.
  apply Permutation_map. apply sort_by_time_perm.
Qed.

Lemma tag_workers_coords (Q : list (list spawn)) (index : nat) :
  map coords (concat (tag_workers index Q)) = map coords (concat Q).
Proof.
  revert index. induction Q as [| q Q' IH]; intro index; simpl.
  - reflexivity.
  - rewrite !map_app, IH, map_map. reflexivity.
Qed.

(** Every entry of the tagged queues carries the index of its queue. *)
Lemma tag_workers_index (Q : list (list spawn)) (index : nat) (sp : spawn) :
  In sp (concat (tag_workers index Q)) ->
  exists w original,
    (w < length Q)%nat /\ In original (nth w Q []) /\
    sp = set_worker (index + w) original.
Proof.
  revert index. induction Q as [| q Q' IH]; intros index Hin; simpl in Hin.
  - contradiction.
  - apply in_app_or in Hin. destruct Hin as [Hhead | Htail].
    + apply in_map_iff in Hhead. destruct Hhead as [original [Hsp Hq]].
      exists 0%nat, original. simpl. rewrite Nat.add_0_r.
      repeat split; [lia | exact Hq | congruence].
    + destruct (IH (S index) Htail) as [w [original [Hw [Hq Hsp]]]].
      exists (S w), original. simpl.
      replace (index + S w)%nat with (S index + w)%nat by lia.
      repeat split; [lia | exact Hq | exact Hsp].
Qed.

(** The merged schedule that [assign_spawns] returns: sorted by time, made
    of the entries of the queues, each tagged with the index of its
    queue. *)
Lemma assign_spawns_schedule (spawns : list spawn) (n : nat) (out : list spawn) :
  assign_spawns spawns n = Returns out ->
  exists st,
    greedy_assign spawns n = Returns st /\
    Cursor.time_sorted out /\
    Permutation (map coords out) (map coords (concat (queues st))) /\
    forall sp, In sp out ->
      exists w original,
        (w < length (queues st))%nat /\ In original (nth w (queues st) []) /\
        sp = set_worker w original.
Proof.
  unfold Assigner.assign_spawns.
  destruct (greedy_assign spawns n) as [st | e]; [| discriminate].
  intro H. inversion H; subst. clear H. exists st.
  split; [reflexivity |]. split; [apply sort_by_time_sorted |]. split.
  - rewrite <- (tag_workers_coords (queues st) 0).
    apply Permutation_map. apply sort_by_time_perm.
  - intros sp Hin.
    apply (Permutation_in _ (sort_by_time_perm _)) in Hin.
    apply (tag_workers_index (queues st) 0 sp Hin).
Qed.

(** *** The assigner returns *)

Lemma placement_returns (queue : list spawn) (sp : spawn) :
  positive_speed max_speed -> exists r, placement queue sp = Returns r.
Proof.
  intro Hspeed. unfold Assigner.placement, over_max_speed. cbv zeta.
  repeat match goal with
         | |- context [if ?c then _ else _] => destruct c eqn:?
         | |- context [match max_speed with _ => _ end] =>
             destruct max_speed as [v |] eqn:?
         end; try (eexists; reflexivity).
  all: exfalso; simpl in Hspeed;
    match goal with
    | H : Qeq_bool _ 0 = true |- _ => apply Qeq_bool_iff in H; lra
    end.
Qed.

Lemma insert_returns (queue : list spawn) (sp : spawn) (dry : bool) :
  positive_speed max_speed -> exists r, insert queue sp dry = Returns r.
Proof.
  intro Hspeed. unfold Assigner.insert. destruct queue as [| q0 rest].
  - eexists. reflexivity.
  - destruct (placement_returns (q0 :: rest) sp Hspeed) as [[placed sc] Hp].
    rewrite Hp. eexists. reflexivity.
Qed.

Lemma dry_scores_returns (Q : list (list spawn)) (sp : spawn) (i : nat) :
  positive_speed max_speed ->
  exists scores,
    dry_scores dist scan_delay max_speed i Q sp = Returns scores /\
    length scores = length Q.
Proof.
  intro Hspeed. revert i. induction Q as [| q Q' IH]; intro i; simpl.
  - exists []. split; reflexivity.
  - destruct (insert_returns q sp true Hspeed) as [[q' sc] Hq]. rewrite Hq.
    destruct (IH (S i)) as [rest [Hrest Hlen]]. rewrite Hrest.
    exists ((sc, i) :: rest). split; [reflexivity | simpl; congruence].
Qed.

Lemma greedy_step_returns (st : assignment) (sp : spawn) :
  positive_speed max_speed -> queues st <> [] ->
  exists st', greedy_step st sp = Returns st'.
Proof.
  intros Hspeed Hne. unfold Assigner.greedy_step.
  destruct (dry_scores_returns (queues st) sp 0 Hspeed) as [scores [Hs Hlen]].
  rewrite Hs.
  destruct scores as [| x rest].
  - destruct (queues st); [congruence | discriminate].
  - simpl. destruct (min_from x rest) as [min_score min_index].
    destruct (num_leb (delay min_score) max_delay).
    + destruct (insert_returns (nth min_index (queues st) []) sp false Hspeed)
        as [[q sc] Hq].
      rewrite Hq. eexists. reflexivity.
    + eexists. reflexivity.
Qed.

Lemma greedy_step_length (st st' : assignment) (sp : spawn) :
  greedy_step st sp = Returns st' ->
  length (queues st') = length (queues st).
Proof.
  intro Hstep.
  destruct (greedy_step_cases _ _ _ Hstep)
    as [sc [w [Hw [[_ [Hq _]] | [_ [_ [q [_ Hq]]]]]]]]; rewrite Hq.
  - reflexivity.
  - apply length_set_queue.
Qed.

Lemma greedy_loop_returns (spawns : list spawn) (st : assignment) :
  positive_speed max_speed -> queues st <> [] ->
  exists st', greedy_loop st spawns = Returns st'.
Proof.
  intro Hspeed. revert st. induction spawns as [| sp spawns IH]; intros st Hne;
    simpl.
  - eexists. reflexivity.
  - destruct (greedy_step_returns st sp Hspeed Hne) as [st1 Hstep].
    rewrite Hstep. apply IH.
    pose proof (greedy_step_length _ _ _ Hstep) as Hlen.
    destruct (queues st1); [| discriminate].
    destruct (queues st); [congruence | discriminate].
Qed.

(** With at least one worker and a positive or infinite [max_speed], and
    while [max_delay] is finite, [assign_spawns] returns a schedule sorted
    by time that, together with the rejected points, holds every input
    point exactly once. *)
Lemma assign_spawns_partition (limit : Q) (spawns : list spawn) (n : nat) :
  positive_speed max_speed -> (1 <= n)%nat -> max_delay = Fin limit ->
  exists st out,
    greedy_assign spawns n = Returns st /\
    assign_spawns spawns n = Returns out /\
    Cursor.time_sorted out /\
    Permutation (map coords out ++ map coords (bad st)) (map coords spawns).
Proof.
  intros Hspeed Hn Hlimit.
  destruct (greedy_loop_returns (sort_by_time spawns)
              (mkAssignment (repeat [] n) [] []) Hspeed) as [st Hst].
  { simpl. destruct n; [lia | discriminate]. }
  assert (Hrun : greedy_assign spawns n = Returns st) by exact Hst.
  destruct (greedy_assign_partition _ _ _ _ Hlimit Hrun) as [_ Hperm].
  assert (Hout : assign_spawns spawns n
                 = Returns (sort_by_time (concat (tag_workers 0 (queues st))))).
  { unfold Assigner.assign_spawns. rewrite Hrun. reflexivity. }
  destruct (assign_spawns_schedule _ _ _ Hout) as [st0 [Hst0 [Hsorted [Hp _]]]].
  rewrite Hrun in Hst0. inversion Hst0; subst st0.
  exists st, (sort_by_time (concat (tag_workers 0 (queues st)))).
  repeat split; auto.
  rewrite Hp. exact Hperm.
Qed.

End AssignerFacts.

(** *** How far a commit can move a point *)

Section AssignerShift.
Import Effects Assigner.
Local Open Scope Q_scope.

Lemma first_false_le_length (l : list bool) :
  (first_false l <= length l)%nat.
Proof.
  induction l as [| [|] l IH]; simpl; lia.
Qed.

Lemma first_false_before (l : list bool) :
  forall i, (i < first_false l)%nat -> nth i l false = true.
Proof.
  induction l as [| [|] l IH]; intros i Hi; simpl in Hi; try lia.
  destruct i as [| i]; [reflexivity |]. simpl. apply IH. lia.
Qed.

(** A queue whose head is not later than the point has its slot for
    the point behind the head. *)
Lemma slot_behind_head (h : spawn) (rest : list spawn) (sp : spawn) :
  time h <= time sp -> (1 <= slot (h :: rest) sp)%nat.
Proof.
  intro Hle. unfold slot. simpl.
  apply Qle_bool_iff in Hle. rewrite Hle. lia.
Qed.

(** The entry before a slot that is not the first is not later than
    the point. *)
Lemma slot_predecessor_not_later (queue : list spawn) (sp : spawn) :
  (1 <= slot queue sp)%nat ->
  time (nth (prev_index (slot queue sp) queue) queue sp) <= time sp.
Proof.
  intro Hslot.
  pose proof (first_false_le_length
                (map (fun p => Qle_bool (time p) (time sp)) queue)) as Hlen.
  rewrite length_map in Hlen. fold (slot queue sp) in Hlen.
  assert (Hprev : prev_index (slot queue sp) queue = (slot queue sp - 1)%nat).
  { unfold prev_index. rewrite Z.mod_small by lia. lia. }
  rewrite Hprev.
  pose proof (first_false_before
                (map (fun p => Qle_bool (time p) (time sp)) queue)
                (slot queue sp - 1)%nat) as Hbefore.
  fold (slot queue sp) in Hbefore. specialize (Hbefore ltac:(lia)).
  rewrite (nth_indep _ false (Qle_bool (time sp) (time sp))) in Hbefore
    by (rewrite length_map; lia).
  rewrite (map_nth (fun p => Qle_bool (time p) (time sp))) in Hbefore.
  apply Qle_bool_iff. exact Hbefore.
Qed.

(** The clamp moves a point by [scan_delay] at most, when the entry
    before its slot is not later than the point. *)
Lemma clamped_time_bounds (scan_delay : Q) (queue : list spawn) (sp : spawn) :
  (1 <= slot queue sp)%nat ->
  time sp <= clamped_time scan_delay queue sp /\
  clamped_time scan_delay queue sp <= time sp + pymax 0 scan_delay.
Proof.
  intro Hslot. pose proof (slot_predecessor_not_later queue sp Hslot) as Hqi.
  unfold clamped_time.
  set (qi := nth (prev_index (slot queue sp) queue) queue sp) in *.
  unfold pymax.
  destruct (Qlt_le_dec (time sp) (time qi + scan_delay));
    destruct (Qlt_le_dec 0 scan_delay); split; lra.
Qed.

Lemma In_set_queue (w : nat) (q : list spawn) (Qs : list (list spawn))
  (q' : list spawn) :
  In q' (set_queue w q Qs) -> q' = q \/ In q' Qs.
Proof.
  revert w. induction Qs as [| q0 Qs IH]; intros [| w] Hin; simpl in Hin;
    try contradiction.
  - destruct Hin as [Hq | Hin]; [left; congruence | right; right; exact Hin].
  - destruct Hin as [Hq | Hin]; [right; left; exact Hq |].
    destruct (IH w Hin) as [Hq | Hin']; [left; exact Hq | right; right; exact Hin'].
Qed.

Section Run.
Variable dist : spawn -> spawn -> Q.
Variable scan_delay : Q.
Variable max_speed : num.
Variable max_delay : num.

(** A turn of the loop leaves the heads where they are: a point goes to
    the head of an empty queue or behind the head of another. *)
Lemma greedy_step_heads (st st' : assignment) (sp : spawn) (t : Q) :
  greedy_step dist scan_delay max_speed max_delay st sp = Returns st' ->
  heads_before (queues st) (time sp) -> time sp <= t ->
  heads_before (queues st') t.
Proof.
  intros Hstep Hheads Ht.
  assert (Hold : forall q h rest,
            In q (queues st) -> q = h :: rest -> time h <= t).
  { intros q h rest Hin Hq.
    apply Qle_trans with (time sp); [| exact Ht].
    apply (Hheads q h rest Hin Hq). }
  destruct (greedy_step_commit _ _ _ _ _ _ _ Hstep)
    as [Hsame | [w [placed [d [sc [Hw [Hq [_ [_ [_ [_ Hplace]]]]]]]]]]].
  - rewrite Hsame. exact Hold.
  - rewrite Hq. intros q' h rest Hin Hq'.
    apply In_set_queue in Hin. destruct Hin as [Hnew | Hin];
      [| apply (Hold q' h rest Hin Hq')].
    subst q'.
    destruct (nth w (queues st) []) as [| h0 rest0] eqn:Hqueue.
    + destruct Hplace as [Hp _]. subst placed.
      unfold list_insert, slot in Hq'. simpl in Hq'.
      inversion Hq'; subst. exact Ht.
    + assert (Hh0 : time h0 <= time sp).
      { apply (Hheads (h0 :: rest0) h0 rest0); [| reflexivity].
        rewrite <- Hqueue. apply nth_In. exact Hw. }
      pose proof (slot_behind_head h0 rest0 sp Hh0) as Hslot.
      unfold list_insert in Hq'.
      destruct (slot (h0 :: rest0) sp) as [| k]; [lia |].
      simpl in Hq'. inversion Hq'; subst.
      apply Qle_trans with (time sp); assumption.
Qed.

(** Through a run over points in ascending order no queue begins later
    than a point still to come. *)
Lemma greedy_loop_heads (done : list spawn) :
  forall (rest : list spawn) (st0 st : assignment),
  Cursor.time_sorted (done ++ rest) ->
  (forall x, In x (done ++ rest) -> heads_before (queues st0) (time x)) ->
  greedy_loop dist scan_delay max_speed max_delay st0 done = Returns st ->
  forall x, In x rest -> heads_before (queues st) (time x).
Proof.
  induction done as [| a done IH]; intros rest st0 st Hsorted Hheads Hloop;
    simpl in Hloop.
  - inversion Hloop; subst. exact Hheads.
  - destruct (greedy_step dist scan_delay max_speed max_delay st0 a)
      as [st1 | e] eqn:Hstep; [| discriminate].
    simpl in Hsorted. inversion Hsorted as [| ? ? Hsorted' Hall]; subst.
    apply (IH rest st1 st Hsorted'); [| exact Hloop].
    intros x Hx.
    apply (greedy_step_heads st0 st1 a (time x) Hstep).
    + apply Hheads. left. reflexivity.
    + rewrite Forall_forall in Hall. apply Hall. exact Hx.
Qed.

Lemma heads_before_empty (n : nat) (t : Q) : heads_before (repeat [] n) t.
Proof.
  intros q h rest Hin Hq. apply repeat_spec in Hin. congruence.
Qed.

(** In a run of [greedy_assign] no queue begins later than the point
    whose turn it is. *)
Lemma greedy_assign_heads (spawns done todo : list spawn) (n : nat)
  (st : assignment) (sp : spawn) :
  sort_by_time spawns = done ++ sp :: todo ->
  greedy_loop dist scan_delay max_speed max_delay
              (mkAssignment (repeat [] n) [] []) done = Returns st ->
  heads_before (queues st) (time sp).
Proof.
  intros Hsplit Hloop.
  apply (greedy_loop_heads done (sp :: todo)
           (mkAssignment (repeat [] n) [] []) st).
  - rewrite <- Hsplit. apply sort_by_time_sorted.
  - intros x _. apply heads_before_empty.
  - exact Hloop.
  - left. reflexivity.
Qed.

(** Where a commit puts a point, when no queue begins later than the
    point: not before its natural time plus the delay of the score, and
    at most [scan_delay] (when that is positive) after it. *)
Lemma greedy_step_shift (st st' : assignment) (sp : spawn) :
  heads_before (queues st) (time sp) ->
  greedy_step dist scan_delay max_speed max_delay st sp = Returns st' ->
  queues st' = queues st \/
  exists w placed d,
    (w < length (queues st))%nat /\
    queues st'
    = set_queue w (list_insert (slot (nth w (queues st) []) sp) placed
                               (nth w (queues st) []))
                (queues st) /\
    lat placed = lat sp /\ lng placed = lng sp /\
    num_leb (Fin d) max_delay = true /\
    time placed
    == match nth w (queues st) [] with
       | [] => time sp
       | _ :: _ => clamped_time scan_delay (nth w (queues st) []) sp
       end + d /\
    time sp + d <= time placed /\
    time placed <= time sp + pymax 0 scan_delay + d.
Proof.
  intros Hheads Hstep.
  destruct (greedy_step_commit _ _ _ _ _ _ _ Hstep)
    as [Hsame | [w [placed [d [sc [Hw [Hq [Hlat [Hlng [Hd [Hgate Hplace]]]]]]]]]]].
  - left. exact Hsame.
  - right. exists w, placed, d.
    split; [exact Hw |]. split; [exact Hq |]. split; [exact Hlat |].
    split; [exact Hlng |]. split; [exact Hgate |].
    assert (H0 : 0 <= pymax 0 scan_delay) by (apply pymax_le_l).
    destruct (nth w (queues st) []) as [| h0 rest0] eqn:Hqueue.
    + destruct Hplace as [Hp Hd0]. subst placed d.
      repeat split; lra.
    + assert (Hh0 : time h0 <= time sp).
      { apply (Hheads (h0 :: rest0) h0 rest0); [| reflexivity].
        rewrite <- Hqueue. apply nth_In. exact Hw. }
      pose proof (slot_behind_head h0 rest0 sp Hh0) as Hslot.
      destruct (clamped_time_bounds scan_delay (h0 :: rest0) sp Hslot)
        as [Hlow Hhigh].
      pose proof (placement_time dist scan_delay max_speed
                    (h0 :: rest0) sp placed sc d Hplace Hd) as Htime.
      split; [exact Htime |]. split; lra.
Qed.

End Run.

(** A point that finds room is placed at least [scan_delay] after the
    point before its slot, whatever the speed limit: a limit of 0 or
    less lets no point through the wiggle. *)
Lemma placement_after_predecessor_any_speed
  (dist : spawn -> spawn -> Q) (scan_delay : Q) (max_speed : num)
  (queue : list spawn) (sp placed : spawn) (sc : score) :
  (forall a b, 0 <= dist a b) ->
  placement dist scan_delay max_speed queue sp = Returns (placed, sc) ->
  delay sc <> Inf ->
  time (nth (prev_index (slot queue sp) queue) queue sp) + scan_delay
  <= time placed.
Proof.
  intro Hdist.
  destruct max_speed as [v |];
    [| apply placement_after_predecessor; [exact I | exact Hdist]].
  destruct (Qlt_le_dec 0 v) as [Hpos | Hneg];
    [apply placement_after_predecessor; [exact Hpos | exact Hdist] |].
  unfold placement. cbv zeta.
  set (qi := nth (prev_index (slot queue sp) queue) queue sp).
  set (qj := nth (next_index (slot queue sp) queue) queue sp).
  set (clamped := set_time sp (pymax (time sp) (time qi + scan_delay))).
  assert (Hclamp : time qi + scan_delay <= time clamped)
    by (apply pymax_le_r).
  destruct (negb (prev_index (slot queue sp) queue
                  =? next_index (slot queue sp) queue)%nat
            && negb (Qle_bool (2 * scan_delay) (mod3600 (time qj - time qi)))).
  { intros H Hd. inversion H; subst. contradiction Hd. reflexivity. }
  destruct (num_leb (speed dist scan_delay qi clamped) (Fin v)
            && num_leb (speed dist scan_delay clamped qj) (Fin v)).
  { intros H Hd. inversion H; subst. exact Hclamp. }
  destruct (num_ltb (Fin v) (speed dist scan_delay clamped qj)) eqn:Hs2.
  { intros H Hd. inversion H; subst. contradiction Hd. reflexivity. }
  unfold over_max_speed.
  destruct (Qeq_bool v 0) eqn:Hv0; [intros H; discriminate |].
  exfalso.
  apply Qeq_bool_neq in Hv0.
  unfold num_ltb in Hs2. apply negb_false_iff in Hs2.
  unfold speed in Hs2. cbv zeta in Hs2.
  set (t := pymax (mod3600 (time qj - time clamped)) scan_delay) in *.
  assert (Ht0 : 0 <= t).
  { apply Qle_trans with (mod3600 (time qj - time clamped));
      [apply mod3600_nonneg | apply pymax_le_l]. }
  destruct (Qeq_bool t 0) eqn:Ht; [discriminate Hs2 |].
  apply Qeq_bool_neq in Ht. simpl in Hs2. apply Qle_bool_iff in Hs2.
  assert (Hspeed : 0 <= dist clamped qj / t).
  { apply Qle_shift_div_l; [lra |]. specialize (Hdist clamped qj). lra. }
  lra.
Qed.

End AssignerShift.

Section AssignerClaims.
Import Effects Assigner.
Local Open Scope Q_scope.

(** C1 (amended): whenever [greedy_assign] commits a spawn point to a
    worker's schedule that is not empty, the committed scan time is at
    least [scan_delay] after the time of the entry before the slot it is
    inserted at, whatever [scan_delay], [max_speed] and [max_delay] are
    (the geodesic distance being never negative).  Nothing is promised
    about the entry after the slot, nor round the hour. *)
Theorem commit_after_predecessor
  (dist : spawn -> spawn -> Q) (scan_delay : Q) (max_speed max_delay : num)
  (st st' : assignment) (sp : spawn) :
  (forall a b, 0 <= dist a b) ->
  greedy_step dist scan_delay max_speed max_delay st sp = Returns st' ->
  queues st' = queues st \/
  exists w placed,
    (w < length (queues st))%nat /\
    queues st'
    = set_queue w (list_insert (slot (nth w (queues st) []) sp) placed
                               (nth w (queues st) []))
                (queues st) /\
    lat placed = lat sp /\ lng placed = lng sp /\
    (nth w (queues st) [] = [] \/
     time (nth (prev_index (slot (nth w (queues st) []) sp)
                           (nth w (queues st) []))
               (nth w (queues st) []) sp) + scan_delay
     <= time placed).
Proof.
  intros Hdist Hstep.
  destruct (greedy_step_commit _ _ _ _ _ _ _ Hstep)
    as [Hsame | [w [placed [d [sc [Hw [Hq [Hlat [Hlng [Hd [_ Hplace]]]]]]]]]]].
  - left. exact Hsame.
  - right. exists w, placed. repeat split; auto.
    destruct (nth w (queues st) []) as [| q0 rest] eqn:Hqueue.
    + left. reflexivity.
    + right.
      apply (placement_after_predecessor_any_speed dist scan_delay max_speed
               (q0 :: rest) sp placed sc Hdist Hplace).
      rewrite Hd. discriminate.
Qed.

Lemma commit_after_predecessor_witness :
  queues (mkAssignment [[at_origin 100; at_origin 110]] [] [])
  = queues (mkAssignment [[at_origin 100]] [] []) \/
  exists w placed,
    (w < 1)%nat /\
    [[at_origin 100; at_origin 110]]
    = set_queue w (list_insert (slot (nth w [[at_origin 100]] []) (at_origin 105))
                               placed (nth w [[at_origin 100]] []))
                [[at_origin 100]] /\
    lat placed = 0 /\ lng placed = 0 /\
    (nth w [[at_origin 100]] [] = [] \/
     time (nth (prev_index (slot (nth w [[at_origin 100]] []) (at_origin 105))
                           (nth w [[at_origin 100]] []))
               (nth w [[at_origin 100]] []) (at_origin 105)) + 10
     <= time placed).
Proof.
  apply (commit_after_predecessor degree_dist 10 (Fin 0) (Fin 0)
           (mkAssignment [[at_origin 100]] [] [])
           (mkAssignment [[at_origin 100; at_origin 110]] [] [])
           (at_origin 105)).
  - apply degree_dist_nonneg.
  - vm_compute. reflexivity.
Defined.

(** C4 (amended): in every run of [greedy_assign], a spawn point that
    is committed gets the scan time [clamped + delay], where [clamped]
    is its natural time or, when that is later, the time of the entry
    before its slot plus [scan_delay], and [delay] is the delay of the
    winning score, at most [max_delay].  The entry before the slot is
    never later than the point, so the committed time is at least
    [natural + delay] and at most [natural + max(0, scan_delay) + delay]:
    no accepted scan is shifted later by more than
    [scan_delay + max_delay]. *)
Theorem commit_delay_within_max_delay
  (dist : spawn -> spawn -> Q) (scan_delay : Q) (max_speed max_delay : num)
  (spawns done todo : list spawn) (n : nat)
  (st st' : assignment) (sp : spawn) :
  sort_by_time spawns = done ++ sp :: todo ->
  greedy_loop dist scan_delay max_speed max_delay
              (mkAssignment (repeat [] n) [] []) done = Returns st ->
  greedy_step dist scan_delay max_speed max_delay st sp = Returns st' ->
  queues st' = queues st \/
  exists w placed d,
    (w < length (queues st))%nat /\
    queues st'
    = set_queue w (list_insert (slot (nth w (queues st) []) sp) placed
                               (nth w (queues st) []))
                (queues st) /\
    lat placed = lat sp /\ lng placed = lng sp /\
    num_leb (Fin d) max_delay = true /\
    time placed
    == match nth w (queues st) [] with
       | [] => time sp
       | _ :: _ => clamped_time scan_delay (nth w (queues st) []) sp
       end + d /\
    time sp + d <= time placed /\
    time placed <= time sp + pymax 0 scan_delay + d /\
    (forall limit, max_delay = Fin limit ->
       time placed <= time sp + pymax 0 scan_delay + limit).
Proof.
  intros Hsplit Hloop Hstep.
  pose proof (greedy_assign_heads dist scan_delay max_speed max_delay
                spawns done todo n st sp Hsplit Hloop) as Hheads.
  destruct (greedy_step_shift dist scan_delay max_speed max_delay
              st st' sp Hheads Hstep)
    as [Hsame | [w [placed [d [Hw [Hq [Hlat [Hlng [Hgate [Htime [Hlow Hhigh]]]]]]]]]]].
  - left. exact Hsame.
  - right. exists w, placed, d.
    split; [exact Hw |]. split; [exact Hq |]. split; [exact Hlat |].
    split; [exact Hlng |]. split; [exact Hgate |]. split; [exact Htime |].
    split; [exact Hlow |]. split; [exact Hhigh |].
    intros limit Hlimit. rewrite Hlimit in Hgate. simpl in Hgate.
    apply Qle_bool_iff in Hgate. lra.
Qed.

Lemma commit_delay_within_max_delay_witness :
  queues (mkAssignment [[at_origin 100; at_origin 110]] [] [])
  = queues (mkAssignment [[at_origin 100]] [] []) \/
  exists w placed d,
    (w < 1)%nat /\
    [[at_origin 100; at_origin 110]]
    = set_queue w (list_insert (slot (nth w [[at_origin 100]] []) (at_origin 105))
                               placed (nth w [[at_origin 100]] []))
                [[at_origin 100]] /\
    lat placed = 0 /\ lng placed = 0 /\
    num_leb (Fin d) (Fin 0) = true /\
    time placed
    == match nth w [[at_origin 100]] [] with
       | [] => 105
       | _ :: _ => clamped_time 10 (nth w [[at_origin 100]] []) (at_origin 105)
       end + d /\
    105 + d <= time placed /\
    time placed <= 105 + pymax 0 10 + d /\
    (forall limit, Fin 0 = Fin limit ->
       time placed <= 105 + pymax 0 10 + limit).
Proof.
  apply (commit_delay_within_max_delay degree_dist 10 (Fin 1) (Fin 0)
           [at_origin 105; at_origin 100] [at_origin 100] [] 1
           (mkAssignment [[at_origin 100]] [] [])
           (mkAssignment [[at_origin 100; at_origin 110]] [] [])
           (at_origin 105)).
  - vm_compute. reflexivity.
  - vm_compute. reflexivity.
  - vm_compute. reflexivity.
Defined.

End AssignerClaims.

(** * Further properties of the assigner *)

Section AssignerSchedule.
Import Effects Assigner.
Local Open Scope Q_scope.

Lemma greedy_loop_length dist scan_delay max_speed max_delay spawns :
  forall st st',
  greedy_loop dist scan_delay max_speed max_delay st spawns = Returns st' ->
  length (queues st') = length (queues st).
Proof.
  induction spawns as [| sp spawns IH]; intros st st' Hloop; simpl in Hloop.
  - inversion Hloop. reflexivity.
  - destruct (greedy_step dist scan_delay max_speed max_delay st sp)
      as [st1 | e] eqn:Hstep; [| discriminate].
    rewrite (IH _ _ Hloop). eapply greedy_step_length. exact Hstep.
Qed.

Lemma greedy_assign_length dist scan_delay max_speed max_delay spawns n st :
  greedy_assign dist scan_delay max_speed max_delay spawns n = Returns st ->
  length (queues st) = n.
Proof.
  intro Hrun. unfold greedy_assign in Hrun.
  apply greedy_loop_length in Hrun. simpl in Hrun.
  rewrite repeat_length in Hrun. exact Hrun.
Qed.

(** X1: whatever the parameters, a schedule that [assign_spawns] returns
    is sorted ascending by ['time'], and every entry of it carries a
    ['worker'] index below [num_workers], the index of the queue it was
    committed to: the overseer's lookup
    [search_items_queues[spawns[pos]['worker']]] cannot miss. *)
Theorem assign_spawns_sorted_and_tagged
  (dist : spawn -> spawn -> Q) (scan_delay : Q) (max_speed max_delay : num)
  (spawns : list spawn) (num_workers : nat) (out : list spawn) :
  assign_spawns dist scan_delay max_speed max_delay spawns num_workers
  = Returns out ->
  Cursor.time_sorted out /\
  forall sp, In sp out ->
    exists w, worker sp = Some w /\ (w < num_workers)%nat.
Proof.
  intro Hout.
  destruct (assign_spawns_schedule _ _ _ _ _ _ _ Hout)
    as [st [Hrun [Hsorted [_ Htags]]]].
  split; [exact Hsorted |].
  intros sp Hin. destruct (Htags sp Hin) as [w [original [Hw [_ Hsp]]]].
  exists w. rewrite (greedy_assign_length _ _ _ _ _ _ _ Hrun) in Hw.
  split; [rewrite Hsp; reflexivity | exact Hw].
Qed.

Lemma assign_spawns_sorted_and_tagged_witness :
  Cursor.time_sorted
    [mkSpawn 0 0 50 (Some 0%nat); mkSpawn 0 0 100 (Some 0%nat);
     mkSpawn 0 0 102 (Some 1%nat); mkSpawn 0 0 110 (Some 0%nat)] /\
  forall sp,
    In sp [mkSpawn 0 0 50 (Some 0%nat); mkSpawn 0 0 100 (Some 0%nat);
           mkSpawn 0 0 102 (Some 1%nat); mkSpawn 0 0 110 (Some 0%nat)] ->
    exists w, worker sp = Some w /\ (w < 2)%nat.
Proof.
  apply (assign_spawns_sorted_and_tagged degree_dist 10 (Fin 1) (Fin 60)
           [at_origin 100; at_origin 101; at_origin 102; at_origin 50] 2).
  vm_compute. reflexivity.
Defined.

(** X2: with at least one worker, a positive or infinite [max_speed] and
    a finite [max_delay], [assign_spawns] returns, and the returned
    schedule together with the rejected points holds every input point
    exactly once (up to the shifted times): nothing is duplicated and
    nothing is lost. *)
Theorem assign_spawns_partition_finite_max_delay
  (dist : spawn -> spawn -> Q) (scan_delay : Q) (max_speed : num) (limit : Q)
  (spawns : list spawn) (num_workers : nat) :
  positive_speed max_speed -> (1 <= num_workers)%nat ->
  exists st out,
    greedy_assign dist scan_delay max_speed (Fin limit) spawns num_workers
    = Returns st /\
    assign_spawns dist scan_delay max_speed (Fin limit) spawns num_workers
    = Returns out /\
    Permutation (map coords out ++ map coords (bad st)) (map coords spawns) /\
    (length out + length (bad st) = length spawns)%nat.
Proof.
  intros Hspeed Hn.
  destruct (assign_spawns_partition dist scan_delay max_speed (Fin limit) limit
              spawns num_workers Hspeed Hn eq_refl)
    as [st [out [Hrun [Hout [_ Hperm]]]]].
  exists st, out. repeat split; try assumption.
  apply Permutation_length in Hperm.
  rewrite length_app, !length_map in Hperm. exact Hperm.
Qed.

Lemma assign_spawns_partition_finite_max_delay_witness :
  exists st out,
    greedy_assign degree_dist 10 (Fin 1) (Fin 60)
      [at_origin 100; at_origin 101; at_origin 102] 1 = Returns st /\
    assign_spawns degree_dist 10 (Fin 1) (Fin 60)
      [at_origin 100; at_origin 101; at_origin 102] 1 = Returns out /\
    Permutation (map coords out ++ map coords (bad st))
                (map coords [at_origin 100; at_origin 101; at_origin 102]) /\
    (length out + length (bad st) = 3)%nat.
Proof.
  apply (assign_spawns_partition_finite_max_delay degree_dist 10 (Fin 1) 60
           [at_origin 100; at_origin 101; at_origin 102] 1).
  - simpl. reflexivity.
  - apply le_n.
Defined.

(** X3: a dry run of [insert] leaves the queue as it is and returns the
    very score that the real run on the same queue returns; the real run
    then lengthens the queue by one entry when the delay of that score is
    finite, and leaves it alone when it is infinite. *)
Theorem insert_dry_run_predicts_commit
  (dist : spawn -> spawn -> Q) (scan_delay : Q) (max_speed : num)
  (queue : list spawn) (sp : spawn) (queue1 : list spawn) (sc : score) :
  insert dist scan_delay max_speed queue sp true = Returns (queue1, sc) ->
  queue1 = queue /\
  exists queue2,
    insert dist scan_delay max_speed queue sp false = Returns (queue2, sc) /\
    (delay sc = Inf -> queue2 = queue) /\
    (delay sc <> Inf -> length queue2 = S (length queue)).
Proof.
  intro Hdry.
  pose proof (insert_dry_run dist scan_delay max_speed queue sp) as Hsame.
  rewrite Hdry in Hsame.
  destruct (insert dist scan_delay max_speed queue sp false)
    as [[queue2 sc2] | e] eqn:Hreal; [| contradiction].
  destruct Hsame as [Hq Hsc]. subst sc2. split; [exact Hq |].
  exists queue2. split; [reflexivity |].
  destruct (insert_commit _ _ _ _ _ _ _ Hreal)
    as [[Hsame Hinf] | [placed [d [Hd [Hq2 _]]]]].
  - split; [intros _; exact Hsame | intro Hfin; contradiction].
  - split.
    + intro Hinf. rewrite Hinf in Hd. discriminate.
    + intros _. rewrite Hq2. unfold list_insert.
      rewrite length_app. cbn [length].
      rewrite Nat.add_succ_r, <- length_app, firstn_skipn. reflexivity.
Qed.

Lemma insert_dry_run_predicts_commit_witness :
  [at_origin 100] = [at_origin 100] /\
  exists queue2,
    insert degree_dist 10 (Fin 1) [at_origin 100] (at_origin 105) false
    = Returns (queue2, mkScore (Fin 0) (Fin (0 # 10)) (Fin (0 # 10)) (Fin (0 # 3590))) /\
    (delay (mkScore (Fin 0) (Fin (0 # 10)) (Fin (0 # 10)) (Fin (0 # 3590))) = Inf ->
     queue2 = [at_origin 100]) /\
    (delay (mkScore (Fin 0) (Fin (0 # 10)) (Fin (0 # 10)) (Fin (0 # 3590))) <> Inf ->
     length queue2 = 2%nat).
Proof.
  apply (insert_dry_run_predicts_commit degree_dist 10 (Fin 1)
           [at_origin 100] (at_origin 105)).
  vm_compute. reflexivity.
Defined.

End AssignerSchedule.

Section AssignerErrors.
Import Effects Assigner.
Local Open Scope Q_scope.

Variable dist : spawn -> spawn -> Q.
Variable scan_delay : Q.
Variable max_speed : num.
Variable max_delay : num.

Lemma placement_raises queue sp e :
  placement dist scan_delay max_speed queue sp = Raises e ->
  e = ZeroDivisionError /\ zero_speed max_speed.
Proof.
  unfold placement, over_max_speed, zero_speed. cbv zeta.
  repeat match goal with
         | |- context [if ?c then _ else _] => destruct c eqn:?
         | |- context [match max_speed with _ => _ end] =>
             destruct max_speed as [v |] eqn:?
         end; intro H; try discriminate.
  inversion H; subst. split; [reflexivity |].
  exists v. split; [reflexivity |].
  match goal with
  | Hz : Qeq_bool v 0 = true |- _ => apply Qeq_bool_iff in Hz; exact Hz
  end.
Qed.

Lemma insert_raises queue sp dry e :
  insert dist scan_delay max_speed queue sp dry = Raises e ->
  e = ZeroDivisionError /\ zero_speed max_speed.
Proof.
  unfold insert. destruct queue as [| q0 rest]; [discriminate |].
  destruct (placement dist scan_delay max_speed (q0 :: rest) sp)
    as [[placed sc] | e'] eqn:Hp; [discriminate |].
  intro H. inversion H; subst. eapply placement_raises. exact Hp.
Qed.

Lemma dry_scores_raises Q sp e :
  forall i,
  dry_scores dist scan_delay max_speed i Q sp = Raises e ->
  e = ZeroDivisionError /\ zero_speed max_speed.
Proof.
  induction Q as [| q Q' IH]; intros i; simpl; [discriminate |].
  destruct (insert dist scan_delay max_speed q sp true)
    as [[q' sc] | e'] eqn:Hq.
  - destruct (dry_scores dist scan_delay max_speed (S i) Q' sp)
      as [rest | e'] eqn:Hrest; [discriminate |].
    intro H. inversion H; subst. eapply IH. exact Hrest.
  - intro H. inversion H; subst. eapply insert_raises. exact Hq.
Qed.

Lemma dry_scores_length Q sp :
  forall i scores,
  dry_scores dist scan_delay max_speed i Q sp = Returns scores ->
  length scores = length Q.
Proof.
  induction Q as [| q Q' IH]; intros i scores; simpl.
  - intro H. inversion H. reflexivity.
  - destruct (insert dist scan_delay max_speed q sp true)
      as [[q' sc] | e'] eqn:Hq; [| discriminate].
    destruct (dry_scores dist scan_delay max_speed (S i) Q' sp)
      as [rest | e'] eqn:Hrest; [| discriminate].
    intro H. inversion H; subst. simpl. rewrite (IH _ _ Hrest). reflexivity.
Qed.

Lemma greedy_step_raises st sp e :
  greedy_step dist scan_delay max_speed max_delay st sp = Raises e ->
  (e = ValueError /\ queues st = []) \/ (e = ZeroDivisionError /\ zero_speed max_speed).
Proof.
  unfold greedy_step.
  destruct (dry_scores dist scan_delay max_speed 0 (queues st) sp)
    as [scores | e'] eqn:Hscores.
  - pose proof (dry_scores_length _ _ _ _ Hscores) as Hlen.
    destruct scores as [| x rest]; simpl.
    + intro H. inversion H; subst. left. split; [reflexivity |].
      destruct (queues st); [reflexivity | discriminate].
    + destruct (min_from x rest) as [min_score min_index].
      destruct (num_leb (delay min_score) max_delay); [| discriminate].
      destruct (insert dist scan_delay max_speed
                  (nth min_index (queues st) []) sp false)
        as [[q sc] | e'] eqn:Hq; [discriminate |].
      intro H. inversion H; subst. right. eapply insert_raises. exact Hq.
  - intro H. inversion H; subst. right. eapply dry_scores_raises. exact Hscores.
Qed.

Lemma greedy_loop_raises spawns e :
  forall st,
  greedy_loop dist scan_delay max_speed max_delay st spawns = Raises e ->
  (e = ValueError /\ queues st = [] /\ spawns <> []) \/
  (e = ZeroDivisionError /\ zero_speed max_speed).
Proof.
  induction spawns as [| sp spawns IH]; intro st; simpl; [discriminate |].
  destruct (greedy_step dist scan_delay max_speed max_delay st sp)
    as [st1 | e'] eqn:Hstep.
  - intro Hloop. destruct (IH _ Hloop) as [[He [Hq _]] | Hzero].
    + left. split; [exact He |]. split; [| discriminate].
      pose proof (greedy_step_length _ _ _ _ _ _ _ Hstep) as Hlen.
      rewrite Hq in Hlen. destruct (queues st); [reflexivity | discriminate].
    + right. exact Hzero.
  - intro H. inversion H; subst.
    destruct (greedy_step_raises _ _ _ Hstep) as [[He Hq] | Hzero].
    + left. repeat split; [exact He | exact Hq | discriminate].
    + right. exact Hzero.
Qed.

Lemma tag_workers_empty_queues (index n : nat) :
  concat (tag_workers index (repeat [] n)) = [].
Proof.
  revert index. induction n as [| n IH]; intro index; simpl.
  - reflexivity.
  - apply IH.
Qed.

Lemma sort_by_time_nonempty (spawns : list spawn) :
  spawns <> [] -> sort_by_time spawns <> [].
Proof.
  intros Hne Hsorted.
  pose proof (Permutation_length (sort_by_time_perm spawns)) as Hlen.
  rewrite Hsorted in Hlen. destruct spawns; [congruence | discriminate].
Qed.

End AssignerErrors.

Section AssignerErrorClaims.
Import Effects Assigner.
Local Open Scope Q_scope.

(** X4: the ways [assign_spawns] can fail.  An empty input gives the empty
    schedule for any number of workers; a non-empty input with zero
    workers raises [ValueError] (the [min] of an empty score list); and
    whenever the function raises, it is that [ValueError] with zero
    workers, or a [ZeroDivisionError] with [max_speed] equal to 0. *)
Theorem assign_spawns_failures
  (dist : spawn -> spawn -> Q) (scan_delay : Q) (max_speed max_delay : num)
  (spawns : list spawn) (num_workers : nat) :
  assign_spawns dist scan_delay max_speed max_delay [] num_workers
  = Returns [] /\
  (spawns <> [] ->
   assign_spawns dist scan_delay max_speed max_delay spawns 0
   = Raises ValueError) /\
  (forall e,
     assign_spawns dist scan_delay max_speed max_delay spawns num_workers
     = Raises e ->
     (e = ValueError /\ num_workers = 0%nat /\ spawns <> []) \/
     (e = ZeroDivisionError /\ exists v, max_speed = Fin v /\ v == 0)).
Proof.
  split; [| split].
  - unfold assign_spawns, greedy_assign. simpl.
    rewrite tag_workers_empty_queues. reflexivity.
  - intro Hne. unfold assign_spawns, greedy_assign. simpl.
    pose proof (sort_by_time_nonempty spawns Hne) as Hsorted.
    destruct (sort_by_time spawns) as [| sp rest]; [congruence |].
    reflexivity.
  - intros e. unfold assign_spawns.
    destruct (greedy_assign dist scan_delay max_speed max_delay spawns
                num_workers) as [st | e'] eqn:Hrun; [discriminate |].
    intro H. inversion H; subst. unfold greedy_assign in Hrun.
    destruct (greedy_loop_raises _ _ _ _ _ _ _ Hrun)
      as [[He [Hq Hne]] | Hzero].
    + left. split; [exact He |]. simpl in Hq. split.
      * destruct num_workers; [reflexivity | discriminate].
      * intro Hempty. apply Hne. rewrite Hempty. reflexivity.
    + right. exact Hzero.
Qed.

End AssignerErrorClaims.

(** ** The order [min(scores)] works with *)

Section TupleOrder.
Import Effects Assigner.
Local Open Scope Q_scope.

Lemma num_order : strict_total num_ltb num_eqb.
Proof.
  assert (Hle : forall x y, Qle_bool x y = true <-> x <= y)
    by (intros; apply Qle_bool_iff).
  assert (Heq : forall x y, Qeq_bool x y = true <-> x == y)
    by (intros; apply Qeq_bool_iff).
  assert (Hnle : forall x y, Qle_bool x y = false <-> y < x).
  { intros x y. split; intro H.
    - apply Qle_bool_false. exact H.
    - destruct (Qle_bool x y) eqn:E; [| reflexivity].
      apply Hle in E. lra. }
  assert (Hneq : forall x y, Qeq_bool x y = false <-> ~ x == y).
  { intros x y. split; intro H.
    - intro E. apply Heq in E. congruence.
    - destruct (Qeq_bool x y) eqn:E; [| reflexivity].
      apply Heq in E. contradiction. }
  constructor; unfold num_ltb.
  - intros [x |]; simpl; [apply Heq; lra | reflexivity].
  - intros [x |] [y |]; simpl; try discriminate; auto.
    intro H. apply Heq. apply Heq in H. lra.
  - intros [x |] [y |] [z |]; simpl; try discriminate; auto.
    intros H1 H2. apply Heq. apply Heq in H1. apply Heq in H2. lra.
  - intros [x |] [y |]; simpl; try discriminate; auto.
    intro H. apply negb_true_iff in H. apply Hnle in H. apply Hneq. lra.
  - intros [x |] [y |] [z |]; simpl; try discriminate; auto.
    intros H1 H2. apply negb_true_iff in H1, H2. apply Hnle in H1, H2.
    apply negb_true_iff. apply Hnle. lra.
  - intros [x |] [y |] [z |]; simpl; try discriminate; auto.
    intro H. apply Heq in H. f_equal.
    apply eq_true_iff_eq. rewrite !Hle. split; intro; lra.
  - intros [x |] [y |] [z |]; simpl; try discriminate; auto.
    intro H. apply Heq in H. f_equal.
    apply eq_true_iff_eq. rewrite !Hle. split; intro; lra.
  - intros [x |] [y |]; simpl; try discriminate; auto.
    intros H1 H2. apply negb_false_iff in H1, H2.
    apply Hle in H1, H2. apply Heq. lra.
Qed.

Lemma nat_order : strict_total Nat.ltb Nat.eqb.
Proof.
  constructor; intros;
    repeat match goal with
           | H : (_ <? _)%nat = true |- _ => apply Nat.ltb_lt in H
           | H : (_ <? _)%nat = false |- _ => apply Nat.ltb_ge in H
           | H : (_ =? _)%nat = true |- _ => apply Nat.eqb_eq in H
           end;
    try (apply Nat.eqb_eq; lia); try (apply Nat.eqb_neq; lia);
    try (apply Nat.ltb_lt; lia); subst; reflexivity.
Qed.

Lemma trivial_order {A : Type} :
  strict_total (fun _ _ : A => false) (fun _ _ : A => true).
Proof. constructor; intros; try reflexivity; discriminate. Qed.

(** The order of tuples: the first components that differ decide. *)
Lemma lex_order {A K : Type} (key : A -> K) (lt eq : K -> K -> bool)
  (rest_lt rest_eq : A -> A -> bool) :
  strict_total lt eq -> strict_total rest_lt rest_eq ->
  strict_total
    (fun a b => if negb (eq (key a) (key b)) then lt (key a) (key b)
                else rest_lt a b)
    (fun a b => eq (key a) (key b) && rest_eq a b).
Proof.
  intros [Kr Ks Kt Kne Klt Kl Kright Ktot] [Rr Rs Rt Rne Rlt Rl Rright Rtot].
  constructor.
  - intro a. rewrite Kr, Rr. reflexivity.
  - intros a b H. apply andb_true_iff in H. destruct H as [H1 H2].
    rewrite (Ks _ _ H1), (Rs _ _ H2). reflexivity.
  - intros a b c H1 H2. apply andb_true_iff in H1, H2.
    destruct H1 as [H1 H1'], H2 as [H2 H2'].
    rewrite (Kt _ _ _ H1 H2), (Rt _ _ _ H1' H2'). reflexivity.
  - intros a b. destruct (eq (key a) (key b)) eqn:E; simpl.
    + intro H. apply Rne. exact H.
    + reflexivity.
  - intros a b c.
    destruct (eq (key a) (key b)) eqn:Eab;
      destruct (eq (key b) (key c)) eqn:Ebc; simpl; intros H1 H2.
    + rewrite (Kt _ _ _ Eab Ebc). simpl. eapply Rlt; eassumption.
    + assert (Eac : eq (key a) (key c) = false).
      { destruct (eq (key a) (key c)) eqn:E; [| reflexivity].
        rewrite <- Ebc. symmetry. rewrite <- (Kt _ _ _ (Ks _ _ Eab) E).
        reflexivity. }
      rewrite Eac. simpl. rewrite (Kl _ _ _ Eab). exact H2.
    + assert (Eac : eq (key a) (key c) = false).
      { destruct (eq (key a) (key c)) eqn:E; [| reflexivity].
        rewrite <- Eab. symmetry. rewrite <- (Kt _ _ _ E (Ks _ _ Ebc)).
        reflexivity. }
      rewrite Eac. simpl. rewrite <- (Kright _ _ _ Ebc). exact H1.
    + pose proof (Klt _ _ _ H1 H2) as Hac.
      rewrite (Kne _ _ Hac). simpl. exact Hac.
  - intros a b c H. apply andb_true_iff in H. destruct H as [H1 H2].
    assert (E : eq (key a) (key c) = eq (key b) (key c)).
    { destruct (eq (key b) (key c)) eqn:E.
      - apply (Kt _ _ _ H1 E).
      - destruct (eq (key a) (key c)) eqn:E'; [| reflexivity].
        rewrite <- E. symmetry. apply (Kt _ _ _ (Ks _ _ H1) E'). }
    rewrite E, (Kl _ _ _ H1), (Rl _ _ _ H2). reflexivity.
  - intros a b c H. apply andb_true_iff in H. destruct H as [H1 H2].
    assert (E : eq (key c) (key a) = eq (key c) (key b)).
    { destruct (eq (key c) (key b)) eqn:E.
      - apply (Kt _ _ _ E (Ks _ _ H1)).
      - destruct (eq (key c) (key a)) eqn:E'; [| reflexivity].
        rewrite <- E. symmetry. apply (Kt _ _ _ E' H1). }
    rewrite E, (Kright _ _ _ H1), (Rright _ _ _ H2). reflexivity.
  - intros a b.
    destruct (eq (key a) (key b)) eqn:Eab; simpl.
    + rewrite (Ks _ _ Eab). simpl. apply Rtot.
    + assert (Eba : eq (key b) (key a) = false).
      { destruct (eq (key b) (key a)) eqn:E; [| reflexivity].
        rewrite <- Eab. symmetry. apply (Ks _ _ E). }
      rewrite Eba. simpl. intros H1 H2.
      rewrite (Ktot _ _ H1 H2) in Eab. discriminate.
Qed.

Lemma score_eqb_components (a b : score) :
  score_eqb a b =
  num_eqb (delay a) (delay b)
  && (num_eqb (s0 a) (s0 b)
      && (num_eqb (s1 a) (s1 b) && (num_eqb (s2 a) (s2 b) && true))).
Proof.
  unfold score_eqb. rewrite andb_true_r, !andb_assoc. reflexivity.
Qed.

Lemma score_order : strict_total score_ltb score_eqb.
Proof.
  pose proof (lex_order delay _ _ _ _ num_order
               (lex_order s0 _ _ _ _ num_order
                  (lex_order s1 _ _ _ _ num_order
                     (lex_order s2 _ _ _ _ num_order trivial_order))))
    as H.
  destruct H as [Hr Hs Ht Hne Hlt Hl Hright Htot].
  constructor; intros;
    repeat rewrite score_eqb_components in *; unfold score_ltb in *; eauto.
Qed.

Lemma pullback_order {A K : Type} (key : A -> K) (lt eq : K -> K -> bool) :
  strict_total lt eq ->
  strict_total (fun a b => lt (key a) (key b)) (fun a b => eq (key a) (key b)).
Proof.
  intros [Kr Ks Kt Kne Klt Kl Kright Ktot]. constructor; eauto.
Qed.

Lemma entry_order :
  strict_total entry_ltb
    (fun a b : score * nat => score_eqb (fst a) (fst b) && (snd a =? snd b)%nat).
Proof.
  exact (lex_order fst _ _ _ _ score_order (pullback_order snd _ _ nat_order)).
Qed.

(** What is not below [b] while [b] is not below [c] is not below [c]. *)
Lemma not_below_transitive {K : Type} (lt eq : K -> K -> bool) :
  strict_total lt eq ->
  forall a b c, lt b a = false -> lt c b = false -> lt c a = false.
Proof.
  intros [Kr Ks Kt Kne Klt Kl Kright Ktot] a b c Hba Hcb.
  destruct (lt c a) eqn:Hca; [| reflexivity].
  destruct (lt a b) eqn:Hab.
  - rewrite (Klt _ _ _ Hca Hab) in Hcb. discriminate.
  - pose proof (Ktot _ _ Hab Hba) as Eab.
    rewrite <- (Kright _ _ _ Eab), Hca in Hcb. discriminate.
Qed.

(** [min_from] returns an entry that no entry is below. *)
Lemma min_from_least (rest : list (score * nat)) :
  forall m x, In x (m :: rest) -> entry_ltb x (min_from m rest) = false.
Proof.
  pose proof entry_order as Hord.
  induction rest as [| y rest IH]; intros m x Hin; simpl.
  - destruct Hin as [Hx | []]. subst x.
    destruct (entry_ltb m m) eqn:E; [| reflexivity].
    apply (lt_not_eq _ _ Hord) in E. rewrite (eq_reflexive _ _ Hord) in E.
    discriminate.
  - set (m' := if entry_ltb y m then y else m).
    assert (Hm' : entry_ltb m' (min_from m' rest) = false)
      by (apply IH; left; reflexivity).
    destruct Hin as [Hx | [Hx | Hx]].
    + subst x. unfold m' in *. destruct (entry_ltb y m) eqn:Hym.
      * (* y took the place of m *)
        destruct (entry_ltb m (min_from y rest)) eqn:E; [| reflexivity].
        rewrite (lt_transitive _ _ Hord _ _ _ Hym E) in Hm'. discriminate.
      * exact Hm'.
    + subst x. unfold m' in *. destruct (entry_ltb y m) eqn:Hym.
      * exact Hm'.
      * apply (not_below_transitive _ _ Hord _ m _); assumption.
    + apply IH. right. exact Hx.
Qed.

End TupleOrder.

Section AssignerChoice.
Import Effects Assigner.
Local Open Scope Q_scope.

(** Every queue has its entry in the score list. *)
Lemma dry_scores_complete dist scan_delay max_speed (Q : list (list spawn))
  (sp : spawn) :
  forall (i : nat) (scores : list (score * nat)) (w : nat) q sc,
  dry_scores dist scan_delay max_speed i Q sp = Returns scores ->
  (w < length Q)%nat ->
  insert dist scan_delay max_speed (nth w Q []) sp true = Returns (q, sc) ->
  In (sc, (i + w)%nat) scores.
Proof.
  induction Q as [| q0 Q' IH]; intros i scores w q sc Hscores Hw Hins;
    simpl in *; [lia |].
  destruct (insert dist scan_delay max_speed q0 sp true)
    as [[q1 sc0] | e] eqn:Hq0; [| discriminate].
  destruct (dry_scores dist scan_delay max_speed (S i) Q' sp)
    as [rest | e] eqn:Hrest; [| discriminate].
  inversion Hscores; subst. destruct w as [| w'].
  - left. rewrite Hq0 in Hins. inversion Hins; subst.
    rewrite Nat.add_0_r. reflexivity.
  - right. replace (i + S w')%nat with (S i + w')%nat by lia.
    eapply IH; [exact Hrest | lia | exact Hins].
Qed.

(** X5: the worker that [greedy_assign] picks for a point has the
    lexicographically smallest dry-run score [(delay, s0, s1, s2)] among
    all workers, and among the workers with an equal score it is the one
    with the lowest index. *)
Theorem greedy_choice_minimal
  (dist : spawn -> spawn -> Q) (scan_delay : Q) (max_speed : num)
  (Q : list (list spawn)) (sp : spawn)
  (scores : list (score * nat)) (sc : score) (w : nat) :
  dry_scores dist scan_delay max_speed 0 Q sp = Returns scores ->
  min_entry scores = Returns (sc, w) ->
  (w < length Q)%nat /\
  (exists q,
     insert dist scan_delay max_speed (nth w Q []) sp true = Returns (q, sc)) /\
  forall w' q' sc',
    (w' < length Q)%nat ->
    insert dist scan_delay max_speed (nth w' Q []) sp true = Returns (q', sc') ->
    score_ltb sc' sc = false /\
    (score_eqb sc' sc = true -> (w <= w')%nat).
Proof.
  intros Hscores Hmin.
  pose proof (min_entry_In _ _ Hmin) as Hin.
  destruct (dry_scores_In _ _ _ _ _ _ _ _ _ Hscores Hin) as [Hrange [q Hq]].
  rewrite Nat.sub_0_r in Hq.
  split; [lia |]. split; [exists q; exact Hq |].
  intros w' q' sc' Hw' Hins.
  pose proof (dry_scores_complete _ _ _ _ _ _ _ _ _ _ Hscores Hw' Hins) as Hin'.
  simpl in Hin'.
  assert (Hleast : entry_ltb (sc', w') (sc, w) = false).
  { destruct scores as [| x rest]; [contradiction |].
    simpl in Hmin. injection Hmin as Hm. rewrite <- Hm.
    apply min_from_least. exact Hin'. }
  unfold entry_ltb in Hleast. simpl in Hleast.
  destruct (score_eqb sc' sc) eqn:Heq; simpl in Hleast.
  - split.
    + destruct (score_ltb sc' sc) eqn:Hlt; [| reflexivity].
      rewrite (lt_not_eq _ _ score_order _ _ Hlt) in Heq. discriminate.
    + intros _. apply Nat.ltb_ge in Hleast. exact Hleast.
  - split; [exact Hleast | discriminate].
Qed.

Lemma greedy_choice_minimal_witness :
  (0 < length [[at_origin 100]; []])%nat /\
  (exists q,
     insert degree_dist 10 (Fin 1) (nth 0 [[at_origin 100]; []] [])
       (at_origin 105) true
     = Returns (q, mkScore (Fin 0) (Fin (0 # 10)) (Fin (0 # 10))
                           (Fin (0 # 3590)))) /\
  forall w' q' sc',
    (w' < length [[at_origin 100]; []])%nat ->
    insert degree_dist 10 (Fin 1) (nth w' [[at_origin 100]; []] [])
      (at_origin 105) true = Returns (q', sc') ->
    score_ltb sc' (mkScore (Fin 0) (Fin (0 # 10)) (Fin (0 # 10))
                           (Fin (0 # 3590))) = false /\
    (score_eqb sc' (mkScore (Fin 0) (Fin (0 # 10)) (Fin (0 # 10))
                            (Fin (0 # 3590))) = true -> (0 <= w')%nat).
Proof.
  apply (greedy_choice_minimal degree_dist 10 (Fin 1)
           [[at_origin 100]; []] (at_origin 105)
           [(mkScore (Fin 0) (Fin (0 # 10)) (Fin (0 # 10)) (Fin (0 # 3590)),
             0%nat);
            (mkScore (Fin 0) (Fin 1) (Fin 1) (Fin 1), 1%nat)]).
  - vm_compute. reflexivity.
  - vm_compute. reflexivity.
Defined.

(** *** No speed limit and no scan delay *)

Lemma num_leb_Inf (a : num) : num_leb a Inf = true.
Proof. destruct a; reflexivity. Qed.

Lemma set_time_same (sp : spawn) : set_time sp (time sp) = sp.
Proof. destruct sp. reflexivity. Qed.

Lemma prev_index_in_range (k : nat) (queue : list spawn) :
  queue <> [] -> (prev_index k queue < length queue)%nat.
Proof.
  intro Hne. unfold prev_index.
  assert (Hlen : (0 < Z.of_nat (length queue))%Z)
    by (destruct queue; [congruence | simpl length; lia]).
  pose proof (Z.mod_pos_bound (Z.of_nat k - 1) _ Hlen). lia.
Qed.

(** Without a speed limit and with no scan delay, a point that is not
    earlier than anything in the queue is placed as it is, at no cost. *)
Lemma insert_unlimited dist scan_delay queue sp dry :
  scan_delay <= 0 ->
  (forall p, In p queue -> time p <= time sp) ->
  exists sc,
    insert dist scan_delay Inf queue sp dry
    = Returns (if dry then queue else list_insert (slot queue sp) sp queue, sc)
    /\ delay sc = Fin 0.
Proof.
  intros Hsd Hearlier. unfold insert. destruct queue as [| q0 rest].
  - eexists. split; [destruct dry; reflexivity | reflexivity].
  - set (queue := q0 :: rest) in *.
    unfold placement. cbv zeta.
    set (qi := nth (prev_index (slot queue sp) queue) queue sp).
    set (qj := nth (next_index (slot queue sp) queue) queue sp).
    assert (Hqi : time qi <= time sp).
    { apply Hearlier. apply nth_In. apply prev_index_in_range. discriminate. }
    assert (Hclamp : pymax (time sp) (time qi + scan_delay) = time sp).
    { unfold pymax. destruct (Qlt_le_dec (time sp) (time qi + scan_delay));
        [lra | reflexivity]. }
    rewrite Hclamp, set_time_same.
    assert (Hroom : Qle_bool (2 * scan_delay) (mod3600 (time qj - time qi)) = true).
    { apply Qle_bool_iff. pose proof (mod3600_nonneg (time qj - time qi)). lra. }
    rewrite Hroom. simpl negb. rewrite andb_false_r, !num_leb_Inf. simpl.
    eexists. split; [destruct dry; reflexivity | reflexivity].
Qed.

(** X6: with [max_speed = float('inf')], a [scan_delay] of 0 (or less), a
    [max_delay] of at least 0 and at least one worker, [greedy_assign]
    returns with every input point committed to a queue exactly as it
    came in, its time untouched; nothing is rejected and no delay is
    recorded. *)
Theorem unlimited_speed_accepts_all
  (dist : spawn -> spawn -> Q) (scan_delay : Q) (max_delay : num)
  (spawns : list spawn) (num_workers : nat) :
  scan_delay <= 0 -> num_leb (Fin 0) max_delay = true ->
  (1 <= num_workers)%nat ->
  exists st,
    greedy_assign dist scan_delay Inf max_delay spawns num_workers
    = Returns st /\
    bad st = [] /\ delays st = [] /\
    Permutation (concat (queues st)) spawns.
Proof.
  intros Hsd Hgate Hn. unfold greedy_assign.
  assert (Hloop : forall l st,
    StronglySorted (fun a b => time a <= time b) l ->
    queues st <> [] ->
    (forall p x, In p (concat (queues st)) -> In x l -> time p <= time x) ->
    exists st',
      greedy_loop dist scan_delay Inf max_delay st l = Returns st' /\
      bad st' = bad st /\ delays st' = delays st /\
      Permutation (concat (queues st')) (l ++ concat (queues st))).
  { induction l as [| sp l IH]; intros st Hsorted Hne Hearlier; simpl.
    - exists st. repeat split; reflexivity.
    - inversion Hsorted as [| ? ? Hsorted' Hall]; subst.
      rewrite Forall_forall in Hall.
      (* the turn for [sp] *)
      assert (Hstep : exists w,
        (w < length (queues st))%nat /\
        greedy_step dist scan_delay Inf max_delay st sp
        = Returns (mkAssignment
                     (set_queue w
                        (list_insert (slot (nth w (queues st) []) sp) sp
                                     (nth w (queues st) []))
                        (queues st))
                     (delays st) (bad st))).
      { unfold greedy_step.
        destruct (dry_scores_returns dist scan_delay Inf (queues st) sp 0 I)
          as [scores [Hscores Hlen]].
        rewrite Hscores.
        destruct scores as [| x rest];
          [destruct (queues st); [congruence | discriminate] |].
        simpl min_entry. cbv iota beta.
        destruct (min_from x rest) as [sc w] eqn:Hmin.
        assert (Hin : In (sc, w) (x :: rest))
          by (rewrite <- Hmin; apply min_from_In).
        destruct (dry_scores_In _ _ _ _ _ _ _ _ _ Hscores Hin)
          as [Hrange [q Hq]].
        rewrite Nat.sub_0_r in Hq.
        assert (Hqueue : forall p, In p (nth w (queues st) []) ->
                                   time p <= time sp).
        { intros p Hp. apply Hearlier; [| left; reflexivity].
          apply in_concat. exists (nth w (queues st) []).
          split; [apply nth_In; lia | exact Hp]. }
        destruct (insert_unlimited dist scan_delay _ sp true Hsd Hqueue)
          as [sc1 [Hdry Hd1]].
        rewrite Hdry in Hq. inversion Hq; subst sc1.
        destruct (insert_unlimited dist scan_delay _ sp false Hsd Hqueue)
          as [sc2 [Hreal Hd2]].
        rewrite Hd1, Hgate, Hreal. simpl.
        exists w. split; [lia | reflexivity]. }
      destruct Hstep as [w [Hw Hstep]]. rewrite Hstep.
      set (st1 := mkAssignment
                    (set_queue w
                       (list_insert (slot (nth w (queues st) []) sp) sp
                                    (nth w (queues st) []))
                       (queues st))
                    (delays st) (bad st)).
      assert (Hperm1 : Permutation (concat (queues st1))
                                   (sp :: concat (queues st))).
      { simpl. apply concat_set_queue_perm;
          [exact Hw | apply list_insert_perm]. }
      assert (Hne1 : queues st1 <> []).
      { simpl. destruct (queues st); [congruence |].
        destruct w; discriminate. }
      assert (Hearlier1 : forall p x, In p (concat (queues st1)) -> In x l ->
                                      time p <= time x).
      { intros p x Hp Hx.
        apply (Permutation_in _ Hperm1) in Hp. destruct Hp as [Hp | Hp].
        - subst p. apply Hall. exact Hx.
        - apply Hearlier; [exact Hp | right; exact Hx]. }
      destruct (IH st1 Hsorted' Hne1 Hearlier1)
        as [st' [Hrun [Hbad [Hdelays Hperm]]]].
      exists st'. split; [exact Hrun |]. split; [exact Hbad |].
      split; [exact Hdelays |].
      rewrite Hperm, Hperm1. simpl. symmetry. apply Permutation_middle. }
  assert (Hempty : concat (repeat (@nil spawn) num_workers) = []).
  { clear. induction num_workers; simpl; auto. }
  destruct (Hloop (sort_by_time spawns)
              (mkAssignment (repeat [] num_workers) [] []))
    as [st [Hrun [Hbad [Hdelays Hperm]]]].
  { apply sort_by_time_sorted. }
  { simpl. destruct num_workers; [lia | discriminate]. }
  { simpl. intros p x Hp. rewrite Hempty in Hp. contradiction. }
  exists st. split; [exact Hrun |]. split; [exact Hbad |].
  split; [exact Hdelays |].
  rewrite Hperm. simpl. rewrite Hempty, app_nil_r. apply sort_by_time_perm.
Qed.

Lemma unlimited_speed_accepts_all_witness :
  exists st,
    greedy_assign degree_dist 0 Inf (Fin 0)
      [at_origin 100; mkSpawn 1 1 100 None; at_origin 50] 2 = Returns st /\
    bad st = [] /\ delays st = [] /\
    Permutation (concat (queues st))
                [at_origin 100; mkSpawn 1 1 100 None; at_origin 50].
Proof.
  apply (unlimited_speed_accepts_all degree_dist 0 (Fin 0)
           [at_origin 100; mkSpawn 1 1 100 None; at_origin 50] 2).
  - vm_compute. discriminate.
  - reflexivity.
  - apply le_S, le_n.
Defined.

End AssignerChoice.

(** * Further properties of the worker threads *)

Section LoopTurns.

(** The unfolding lemmas of the loops, under names that the modules'
    own generated constants do not hide. *)
Lemma retry_loop_turn md a world sleep_time failed_total :
  Worker.retry_loop md a world sleep_time failed_total
  = if Z_lt_dec failed_total (scan_retries a) then
      let sleep_time := (scan_delay a * (1 + inject_Z failed_total))%Q in
      Effects.bind
        (Login.check_login a (Worker.ticket (world failed_total))
                           (Worker.auth (world failed_total)))
        (fun _ =>
           Effects.bind (Effects.emit Effects.MapRequest)
             (fun _ =>
                match Worker.answer (world failed_total) with
                | Worker.NoResponse =>
                    (Effects.emit (Effects.Log Effects.LogDownloadFailed) ;;
                     Effects.incr_fail ;;
                     Effects.set_message
                       (Effects.MsgNoResponse (failed_total + 1) sleep_time) ;;
                     Effects.emit (Effects.Sleep sleep_time) ;;
                     Worker.retry_loop md a world (Some sleep_time)
                                       (failed_total + 1))%thread
                | Worker.Found findCount =>
                    (Effects.emit Effects.ParseMap ;;
                     Effects.emit (Effects.Log Effects.LogStepCompleted) ;;
                     Effects.emit Effects.TaskDone ;;
                     (if findCount >? 0 then Effects.incr_success
                      else Effects.incr_noitems) ;;
                     Effects.ret (Some sleep_time))%thread
                | Worker.ParseKeyError =>
                    (Effects.emit Effects.ParseMap ;;
                     Effects.emit (Effects.Log Effects.LogParsingFailed) ;;
                     Effects.incr_fail ;;
                     Effects.set_message
                       (Effects.MsgParsingFailed (failed_total + 1) sleep_time) ;;
                     Effects.emit (Effects.Sleep sleep_time) ;;
                     match md with
                     | Worker.Grid => Effects.ret tt
                     | Worker.SpawnScan => Effects.emit (Effects.Sleep sleep_time)
                     end ;;
                     Worker.retry_loop md a world (Some sleep_time)
                                       (failed_total + 1))%thread
                | Worker.ParseCrashes =>
                    (Effects.emit Effects.ParseMap ;;
                     Effects.raise Effects.OtherException)%thread
                end))
    else
      (Effects.emit (Effects.Log Effects.LogOverRetries) ;;
       match md with
       | Worker.Grid => Effects.set_message Effects.MsgAbandoning
       | Worker.SpawnScan => Effects.ret tt
       end ;;
       Effects.emit Effects.TaskDone ;;
       Worker.long_sleep 0 ;;
       Effects.ret sleep_time)%thread.
Proof. exact (retry_loop_unfold md a world sleep_time failed_total). Qed.

Lemma login_loop_turn a auth i :
  Login.login_loop a auth i
  = if Z_lt_dec i (login_retries a) then
      match auth i with
      | Login.AuthOk => Effects.emit Effects.SetAuthentication
      | Login.AuthCrashes =>
          (Effects.emit Effects.SetAuthentication ;;
           Effects.raise Effects.OtherException)%thread
      | Login.AuthFails =>
          (Effects.emit Effects.SetAuthentication ;;
           (if i >=? login_retries a
            then Effects.raise Effects.TooManyLoginAttempts
            else Effects.emit (Effects.Log Effects.LogLoginFailed) ;;
                 Effects.emit (Effects.Sleep (login_delay a)) ;;
                 Login.login_loop a auth (i + 1)))%thread
      end
    else Effects.ret tt.
Proof. exact (login_loop_unfold a auth i). Qed.

End LoopTurns.

Section WorkerAccounting.
Import Effects Login Worker.
Local Open Scope thread_scope.

Lemma occurrences_app (e : event) (t1 t2 : list event) :
  occurrences e (t1 ++ t2) = (occurrences e t1 + occurrences e t2)%nat.
Proof. unfold occurrences. rewrite filter_app, length_app. reflexivity. Qed.

(** [check_login] touches neither the queue nor the map. *)
Lemma check_login_quiet (e : event) a ticket auth s :
  e = TaskDone \/ e = MapRequest \/ e = QueueGet \/ e = ParseMap
  \/ e = Log LogBanned ->
  occurrences e (trace (check_login a ticket auth s)) = 0%nat.
Proof.
  intro He. apply absent_event_occurrences.
  assert (Hloop : emits_only (fun e' => negb (is_event e e'))
                             (login_loop a auth 0)).
  { apply login_loop_emits_only;
      destruct He as [-> | [-> | [-> | [-> | ->]]]]; reflexivity. }
  assert (Hlogin : emits_only (fun e' => negb (is_event e e'))
            (emit SetPosition ;; login_loop a auth 0 ;;
             emit (Log LogLoginSuccessful))).
  { apply emits_only_bind; [| intro].
    - apply emits_only_emit.
      destruct He as [-> | [-> | [-> | [-> | ->]]]]; reflexivity.
    - apply emits_only_bind; [exact Hloop | intro].
      apply emits_only_emit.
      destruct He as [-> | [-> | [-> | [-> | ->]]]]; reflexivity. }
  unfold check_login.
  destruct ticket as [remaining_time |]; [| apply Hlogin].
  destruct (Qlt_le_dec 60 remaining_time); [| apply Hlogin].
  apply emits_only_emit.
  destruct He as [-> | [-> | [-> | [-> | ->]]]]; reflexivity.
Qed.

Lemma retry_loop_done_once md a world :
  forall failed_total sleep_time s,
  done_once (retry_loop md a world sleep_time failed_total s).
Proof.
  apply (counting_loop_ind (scan_retries a)
    (fun f => forall st s0, done_once (retry_loop md a world st f s0))).
  intros f IH st s0. rewrite retry_loop_turn.
  destruct (Z_lt_dec f (scan_retries a)) as [Hlt | Hge].
  - pose proof (check_login_quiet TaskDone a (ticket (world f))
                  (auth (world f)) s0 (or_introl eq_refl)) as Hquiet.
    cbv zeta. unfold bind at 1.
    destruct (check_login a (ticket (world f)) (auth (world f)) s0)
      as [[[[] | e] s1] t1]; unfold trace in Hquiet; cbn [snd] in Hquiet.
    2: { unfold done_once, trace, outcome. cbn [fst snd]. exact Hquiet. }
    destruct (answer (world f)).
    + (* nothing came back *)
      unfold bind, emit, incr_fail, set_message, modify. cbn [fst snd].
      match goal with
      | |- context [retry_loop md a world ?st' (f + 1) ?s'] =>
          specialize (IH (f + 1) Hlt ltac:(lia) st' s');
            destruct (retry_loop md a world st' (f + 1) s')
              as [[r s2] t2]
      end.
      unfold done_once, trace, outcome in *. cbn [fst snd] in *.
      rewrite occurrences_app, Hquiet. exact IH.
    + (* parsing raised KeyError *)
      destruct md;
        unfold bind, emit, incr_fail, set_message, modify, ret;
        cbn [fst snd];
        match goal with
        | |- context [retry_loop ?m a world ?st' (f + 1) ?s'] =>
            specialize (IH (f + 1) Hlt ltac:(lia) st' s');
              destruct (retry_loop m a world st' (f + 1) s')
                as [[r s2] t2]
        end;
        unfold done_once, trace, outcome in *; cbn [fst snd] in *;
        rewrite occurrences_app, Hquiet; exact IH.
    + unfold bind, emit, raise, done_once, trace, outcome. cbn [fst snd].
      rewrite occurrences_app, Hquiet. reflexivity.
    + unfold bind, emit, ret, done_once, trace, outcome. cbn [fst snd].
      destruct (findCount >? 0)%Z;
        unfold incr_success, incr_noitems, modify; cbn [fst snd];
        rewrite occurrences_app, Hquiet; reflexivity.
  - destruct md; unfold bind, emit, set_message, modify, ret;
      cbn [fst snd]; rewrite long_sleep_runs_cooldown; reflexivity.
Qed.

(** X7: the retry loop of either worker calls [task_done] exactly once
    when it returns (after a scan that was parsed, or when the job is
    abandoned) and not at all when an exception leaves it; a pass of the
    spawn-scan worker that returns has called it exactly once, skipped
    job or not. *)
Theorem job_marked_done_once
  (md : mode) (a : args) (world : Z -> attempt) (sleep_time : option Q)
  (failed_total : Z) (now : Z) (spawntime : Q) (s : status) :
  occurrences TaskDone
    (trace (retry_loop md a world sleep_time failed_total s))
  = match outcome (retry_loop md a world sleep_time failed_total s) with
    | Returns _ => 1%nat
    | Raises _ => 0%nat
    end /\
  (forall r,
     outcome (ss_job a now spawntime world sleep_time s) = Returns r ->
     occurrences TaskDone (trace (ss_job a now spawntime world sleep_time s))
     = 1%nat).
Proof.
  split; [apply retry_loop_done_once |].
  intros r. unfold ss_job.
  destruct (Qlt_le_dec (Clock.timeDif (inject_Z now) spawntime) 840).
  - unfold bind, emit, set_message, modify, ret, raise.
    cbn [fst snd st_success st_fail st_noitems st_skip].
    match goal with
    | |- context [retry_loop SpawnScan a world sleep_time 0 ?s'] =>
        pose proof (retry_loop_done_once SpawnScan a world 0%Z sleep_time s')
          as Hloop;
          destruct (retry_loop SpawnScan a world sleep_time 0 s')
            as [[[[seconds |] | e] s1] t1]
    end; unfold done_once, trace, outcome in *; cbn [fst snd app] in *;
      try discriminate.
    intros _. unfold occurrences in *. cbn [filter is_event].
    rewrite filter_app, length_app. cbn [filter is_event length].
    rewrite Nat.add_0_r. exact Hloop.
  - intros _. reflexivity.
Qed.

End WorkerAccounting.

Section WorkerCounters.
Import Effects Login Worker.
Local Open Scope thread_scope.

(** A run of [k] failed attempts from attempt [f0] on: the loop goes on at
    attempt [f0 + k] with the failure counter [k] higher, the other
    counters as they were, and no heartbeat of a cooldown so far. *)
Lemma retry_loop_after_failures md a world :
  forall (k : nat) (f0 : Z) (sleep_time : option Q) (s : status),
  (forall i, f0 <= i < f0 + Z.of_nat k -> failed_attempt a (world i)) ->
  f0 + Z.of_nat k <= scan_retries a ->
  exists sleep_time1 s1 t1,
    retry_loop md a world sleep_time f0 s
    = (let '(r, s2, t2) :=
         retry_loop md a world sleep_time1 (f0 + Z.of_nat k) s1 in
       (r, s2, t1 ++ t2)) /\
    st_fail s1 = st_fail s + Z.of_nat k /\
    st_success s1 = st_success s /\ st_noitems s1 = st_noitems s /\
    st_skip s1 = st_skip s /\
    occurrences (Log LogBanned) t1 = 0%nat.
Proof.
  induction k as [| k IH]; intros f0 st s Hfail Hle.
  - exists st, s, []. rewrite Z.add_0_r.
    destruct (retry_loop md a world st f0 s) as [[r s2] t2].
    repeat split; try reflexivity. simpl. lia.
  - rewrite retry_loop_turn.
    destruct (Z_lt_dec f0 (scan_retries a)) as [Hlt | Hge]; [| lia].
    destruct (Hfail f0 ltac:(lia)) as [Hlogin Hanswer].
    destruct (Hlogin s) as [sa [ta Hsa]].
    pose proof (check_login_quiet (Log LogBanned) a (ticket (world f0))
                  (auth (world f0)) s
                  (or_intror (or_intror (or_intror (or_intror eq_refl)))))
      as Hquiet.
    pose proof (check_login_preserves st_fail a (ticket (world f0))
                  (auth (world f0)) s) as Hpf.
    pose proof (check_login_preserves st_success a (ticket (world f0))
                  (auth (world f0)) s) as Hps.
    pose proof (check_login_preserves st_noitems a (ticket (world f0))
                  (auth (world f0)) s) as Hpn.
    pose proof (check_login_preserves st_skip a (ticket (world f0))
                  (auth (world f0)) s) as Hpk.
    rewrite Hsa in Hquiet, Hpf, Hps, Hpn, Hpk.
    unfold trace, status_after in *. cbn [fst snd] in *.
    cbv zeta. unfold bind at 1. rewrite Hsa.
    assert (Hrest : forall i, f0 + 1 <= i < f0 + 1 + Z.of_nat k ->
                              failed_attempt a (world i))
      by (intros i Hi; apply Hfail; lia).
    destruct Hanswer as [Ha | Ha]; rewrite Ha.
    + match goal with
      | |- context [retry_loop md a world ?st' (f0 + 1)] =>
          destruct (IH (f0 + 1) st'
            (mkStatus
               (MsgNoResponse (f0 + 1) (scan_delay a * (1 + inject_Z f0))%Q)
               (st_success sa) (st_fail sa + 1) (st_noitems sa) (st_skip sa))
            Hrest ltac:(lia))
            as [st1 [s1 [t1 [Hrun [Hf [Hs [Hn [Hk Hb]]]]]]]]
      end.
      unfold bind, emit, incr_fail, set_message, modify.
      cbn [fst snd st_success st_fail st_noitems st_skip st_message].
      rewrite Hrun.
      replace (f0 + 1 + Z.of_nat k) with (f0 + Z.of_nat (S k)) by lia.
      exists st1, s1,
        (ta ++ MapRequest :: Log LogDownloadFailed
            :: Sleep (scan_delay a * (1 + inject_Z f0))%Q :: t1).
      cbn [st_fail st_success st_noitems st_skip] in *.
      split.
      { destruct (retry_loop md a world st1 (f0 + Z.of_nat (S k)) s1)
          as [[r s2] t2].
        rewrite <- app_assoc. reflexivity. }
      repeat split; try lia; try congruence.
      rewrite occurrences_app, Hquiet.
      unfold occurrences in *. cbn [filter is_event]. exact Hb.
    + match goal with
      | |- context [retry_loop md a world ?st' (f0 + 1)] =>
          destruct (IH (f0 + 1) st'
            (mkStatus
               (MsgParsingFailed (f0 + 1) (scan_delay a * (1 + inject_Z f0))%Q)
               (st_success sa) (st_fail sa + 1) (st_noitems sa) (st_skip sa))
            Hrest ltac:(lia))
            as [st1 [s1 [t1 [Hrun [Hf [Hs [Hn [Hk Hb]]]]]]]]
      end.
      replace (f0 + 1 + Z.of_nat k) with (f0 + Z.of_nat (S k)) in Hrun by lia.
      cbn [st_fail st_success st_noitems st_skip] in *.
      destruct md; unfold bind, emit, incr_fail, set_message, modify, ret;
        cbn [fst snd st_success st_fail st_noitems st_skip st_message];
        rewrite Hrun.
      * exists st1, s1,
          (ta ++ MapRequest :: ParseMap :: Log LogParsingFailed
              :: Sleep (scan_delay a * (1 + inject_Z f0))%Q :: t1).
        split.
        { destruct (retry_loop Grid a world st1 (f0 + Z.of_nat (S k)) s1)
            as [[r s2] t2].
          rewrite <- app_assoc. reflexivity. }
        repeat split; try lia; try congruence.
        rewrite occurrences_app, Hquiet.
        unfold occurrences in *. cbn [filter is_event]. exact Hb.
      * exists st1, s1,
          (ta ++ MapRequest :: ParseMap :: Log LogParsingFailed
              :: Sleep (scan_delay a * (1 + inject_Z f0))%Q
              :: Sleep (scan_delay a * (1 + inject_Z f0))%Q :: t1).
        split.
        { destruct (retry_loop SpawnScan a world st1 (f0 + Z.of_nat (S k)) s1)
            as [[r s2] t2].
          rewrite <- app_assoc. reflexivity. }
        repeat split; try lia; try congruence.
        rewrite occurrences_app, Hquiet.
        unfold occurrences in *. cbn [filter is_event]. exact Hb.
Qed.

(** X8: a scan that succeeds at the attempt numbered [f] (counting from
    0) after [f] failed attempts returns with the failure counter [f]
    higher and exactly one of the success and no-items counters one
    higher (success when the parser found something), leaves
    [sleep_time = scan_delay * (1 + f)] behind, and starts no cooldown. *)
Theorem scan_success_counters
  (md : mode) (a : args) (world : Z -> attempt) (sleep_time : option Q)
  (s : status) (f : Z) (findCount : Z) :
  0 <= f < scan_retries a ->
  (forall i, 0 <= i < f -> failed_attempt a (world i)) ->
  (forall s0, exists s1 t1,
      check_login a (ticket (world f)) (auth (world f)) s0
      = (Returns tt, s1, t1)) ->
  answer (world f) = Found findCount ->
  outcome (retry_loop md a world sleep_time 0 s)
  = Returns (Some (scan_delay a * (1 + inject_Z f))%Q) /\
  st_fail (status_after (retry_loop md a world sleep_time 0 s))
  = st_fail s + f /\
  st_success (status_after (retry_loop md a world sleep_time 0 s))
  = st_success s + (if findCount >? 0 then 1 else 0) /\
  st_noitems (status_after (retry_loop md a world sleep_time 0 s))
  = st_noitems s + (if findCount >? 0 then 0 else 1) /\
  occurrences (Log LogBanned) (trace (retry_loop md a world sleep_time 0 s))
  = 0%nat.
Proof.
  intros Hf Hfail Hlogin Hfound.
  destruct (retry_loop_after_failures md a world (Z.to_nat f) 0 sleep_time s)
    as [st1 [s1 [t1 [Hrun [Hcf [Hcs [Hcn [_ Hb]]]]]]]].
  { intros i Hi. apply Hfail. lia. }
  { lia. }
  replace (0 + Z.of_nat (Z.to_nat f)) with f in Hrun by lia.
  destruct (Hlogin s1) as [sa [ta Hsa]].
  pose proof (check_login_quiet (Log LogBanned) a (ticket (world f))
                (auth (world f)) s1
                (or_intror (or_intror (or_intror (or_intror eq_refl)))))
    as Hquiet.
  pose proof (check_login_preserves st_fail a (ticket (world f))
                (auth (world f)) s1) as Hpf.
  pose proof (check_login_preserves st_success a (ticket (world f))
                (auth (world f)) s1) as Hps.
  pose proof (check_login_preserves st_noitems a (ticket (world f))
                (auth (world f)) s1) as Hpn.
  rewrite Hsa in Hquiet, Hpf, Hps, Hpn.
  unfold trace, status_after in Hquiet, Hpf, Hps, Hpn.
  cbn [fst snd] in Hquiet, Hpf, Hps, Hpn.
  assert (Hx : retry_loop md a world sleep_time 0 s
    = (Returns (Some (scan_delay a * (1 + inject_Z f))%Q),
       mkStatus (st_message sa)
                (st_success sa + (if findCount >? 0 then 1 else 0))
                (st_fail sa)
                (st_noitems sa + (if findCount >? 0 then 0 else 1))
                (st_skip sa),
       t1 ++ ta ++ [MapRequest; ParseMap; Log LogStepCompleted; TaskDone])).
  { rewrite Hrun. rewrite retry_loop_turn.
    destruct (Z_lt_dec f (scan_retries a)) as [_ | Hge]; [| lia].
    cbv zeta. unfold bind at 1. rewrite Hsa, Hfound.
    unfold bind, emit, ret. cbn [fst snd].
    destruct (findCount >? 0);
      unfold incr_success, incr_noitems, modify; cbn [fst snd app];
      rewrite ?Z.add_0_r, ?app_nil_r; destruct sa; reflexivity. }
  rewrite Hx. unfold outcome, status_after, trace.
  cbn [fst snd st_fail st_success st_noitems].
  split; [reflexivity |]. repeat split; try lia.
  rewrite !occurrences_app, Hb, Hquiet. reflexivity.
Qed.

Lemma scan_success_counters_witness :
  outcome (retry_loop Grid (mkArgs 3 10 3 5)
             (fun i => if i =? 1
                       then mkAttempt (Some 3000%Q) (fun _ => AuthOk) (Found 4)
                       else silent_world i) None 0 fresh_status)
  = Returns (Some (10 * (1 + inject_Z 1))%Q) /\
  st_fail (status_after (retry_loop Grid (mkArgs 3 10 3 5)
             (fun i => if i =? 1
                       then mkAttempt (Some 3000%Q) (fun _ => AuthOk) (Found 4)
                       else silent_world i) None 0 fresh_status))
  = 0 + 1 /\
  st_success (status_after (retry_loop Grid (mkArgs 3 10 3 5)
             (fun i => if i =? 1
                       then mkAttempt (Some 3000%Q) (fun _ => AuthOk) (Found 4)
                       else silent_world i) None 0 fresh_status))
  = 0 + 1 /\
  st_noitems (status_after (retry_loop Grid (mkArgs 3 10 3 5)
             (fun i => if i =? 1
                       then mkAttempt (Some 3000%Q) (fun _ => AuthOk) (Found 4)
                       else silent_world i) None 0 fresh_status))
  = 0 + 0 /\
  occurrences (Log LogBanned)
    (trace (retry_loop Grid (mkArgs 3 10 3 5)
             (fun i => if i =? 1
                       then mkAttempt (Some 3000%Q) (fun _ => AuthOk) (Found 4)
                       else silent_world i) None 0 fresh_status))
  = 0%nat.
Proof.
  apply (scan_success_counters Grid (mkArgs 3 10 3 5)
           (fun i => if i =? 1
                     then mkAttempt (Some 3000%Q) (fun _ => AuthOk) (Found 4)
                     else silent_world i) None fresh_status 1 4).
  - simpl. lia.
  - intros i Hi. assert (i = 0) by lia. subst i. split.
    + intro s0. exists s0, [Log LogCredentialsValid]. reflexivity.
    + left. reflexivity.
  - intro s0. exists s0, [Log LogCredentialsValid]. reflexivity.
  - reflexivity.
Defined.

(** X9: when [scan_retries] attempts in a row fail (with
    [scan_retries >= 0]), the job costs the worker exactly [scan_retries]
    on its failure counter and nothing on the success, no-items and
    skipped counters. *)
Theorem exhausted_retries_counters
  (md : mode) (a : args) (world : Z -> attempt) (sleep_time : option Q)
  (s : status) :
  0 <= scan_retries a ->
  (forall i, 0 <= i < scan_retries a -> failed_attempt a (world i)) ->
  st_fail (status_after (retry_loop md a world sleep_time 0 s))
  = st_fail s + scan_retries a /\
  st_success (status_after (retry_loop md a world sleep_time 0 s))
  = st_success s /\
  st_noitems (status_after (retry_loop md a world sleep_time 0 s))
  = st_noitems s /\
  st_skip (status_after (retry_loop md a world sleep_time 0 s))
  = st_skip s.
Proof.
  intros Hn Hfail.
  destruct (retry_loop_after_failures md a world (Z.to_nat (scan_retries a))
              0 sleep_time s)
    as [st1 [s1 [t1 [Hrun [Hcf [Hcs [Hcn [Hck _]]]]]]]].
  { intros i Hi. apply Hfail. lia. }
  { lia. }
  replace (0 + Z.of_nat (Z.to_nat (scan_retries a))) with (scan_retries a)
    in Hrun by lia.
  assert (Hx : exists m t2,
    retry_loop md a world sleep_time 0 s
    = (Returns st1,
       mkStatus m (st_success s1) (st_fail s1) (st_noitems s1) (st_skip s1),
       t2)).
  { rewrite Hrun. rewrite retry_loop_turn.
    destruct (Z_lt_dec (scan_retries a) (scan_retries a)) as [Hlt | _];
      [lia |].
    destruct md; unfold bind, emit, set_message, modify, ret;
      cbn [fst snd]; rewrite long_sleep_runs_cooldown;
      cbn [fst snd st_fail st_success st_noitems st_skip];
      eexists _, _; reflexivity. }
  destruct Hx as [m [t2 Hx]]. rewrite Hx.
  unfold status_after. cbn [fst snd st_fail st_success st_noitems st_skip].
  repeat split; lia.
Qed.

Lemma exhausted_retries_counters_witness :
  st_fail (status_after (retry_loop SpawnScan (mkArgs 3 10 3 5) silent_world
                           None 0 fresh_status)) = 0 + 3 /\
  st_success (status_after (retry_loop SpawnScan (mkArgs 3 10 3 5) silent_world
                              None 0 fresh_status)) = 0 /\
  st_noitems (status_after (retry_loop SpawnScan (mkArgs 3 10 3 5) silent_world
                              None 0 fresh_status)) = 0 /\
  st_skip (status_after (retry_loop SpawnScan (mkArgs 3 10 3 5) silent_world
                           None 0 fresh_status)) = 0.
Proof.
  apply (exhausted_retries_counters SpawnScan (mkArgs 3 10 3 5) silent_world
           None fresh_status).
  - simpl. lia.
  - intros i Hi. split.
    + intro s0. exists s0, [Log LogCredentialsValid]. reflexivity.
    + left. reflexivity.
Defined.

End WorkerCounters.

(** * The start-up delay of the threads *)

Section StaggerFacts.
Import Effects Stagger.
Local Open Scope Q_scope.

Lemma inject_nat_lt (i j : nat) :
  (i < j)%nat -> inject_Z (Z.of_nat i) + 1 <= inject_Z (Z.of_nat j).
Proof.
  intro H. change 1 with (inject_Z 1). rewrite <- inject_Z_plus.
  rewrite <- Zle_Qle. lia.
Qed.

Lemma inject_nat_nonneg (i : nat) : 0 <= inject_Z (Z.of_nat i).
Proof. change 0 with (inject_Z 0). rewrite <- Zle_Qle. lia. Qed.

(** The slice [scan_delay / accounts] of the even mode is at least a
    second, and [accounts] slices make up [scan_delay]. *)
Lemma even_slice (a : args) (accounts : nat) :
  (0 < accounts)%nat ->
  inject_Z (Z.of_nat accounts) <= scan_delay a ->
  1 <= scan_delay a / inject_Z (Z.of_nat accounts) /\
  scan_delay a / inject_Z (Z.of_nat accounts) * inject_Z (Z.of_nat accounts)
  == scan_delay a.
Proof.
  intros Hpos Hle.
  assert (Hn : 0 < inject_Z (Z.of_nat accounts)).
  { change 0 with (inject_Z 0). rewrite <- Zlt_Qlt. lia. }
  split.
  - apply Qle_shift_div_l; [exact Hn |]. lra.
  - rewrite Qmult_comm. apply Qmult_div_r. lra.
Qed.

(** X10: with more than one account, [stagger_thread] sleeps once, for a
    delay that is never negative; the delay stays below the number of
    accounts in the crowded mode ([len(accounts) > scan_delay]) and below
    [scan_delay] otherwise.  With a single account it does not sleep. *)
Theorem stagger_thread_delay
  (a : args) (accounts index : nat) (random : Q) (s : status) :
  (index < accounts)%nat -> unit_interval random ->
  ((accounts <= 1)%nat ->
   stagger_thread a accounts index random s = (Returns tt, s, [])) /\
  ((1 < accounts)%nat ->
   stagger_thread a accounts index random s
   = (Returns tt, s, [Sleep (stagger_delay a accounts index random)]) /\
   0 <= stagger_delay a accounts index random /\
   (scan_delay a < inject_Z (Z.of_nat accounts) ->
    stagger_delay a accounts index random < inject_Z (Z.of_nat accounts)) /\
   (inject_Z (Z.of_nat accounts) <= scan_delay a ->
    stagger_delay a accounts index random < scan_delay a)).
Proof.
  intros Hindex [Hr0 Hr1]. unfold stagger_thread. split; intro Hn.
  - destruct (Nat.ltb_spec 1 accounts); [lia | reflexivity].
  - destruct (Nat.ltb_spec 1 accounts); [| lia].
    split; [reflexivity |].
    pose proof (inject_nat_lt _ _ Hindex) as Hlt.
    pose proof (inject_nat_nonneg index) as Hi0.
    unfold stagger_delay.
    destruct (Qlt_le_dec (scan_delay a) (inject_Z (Z.of_nat accounts)))
      as [Hcrowded | Heven].
    + destruct (Nat.ltb_spec 0 index) as [Hpos | Hzero].
      * assert (H1 : 1 <= inject_Z (Z.of_nat index))
          by (change 1 with (inject_Z 1); rewrite <- Zle_Qle; lia).
        assert (E : (random - (5 # 10)) / 2 == random * (1 # 2) - (1 # 4))
          by field.
        rewrite E. repeat split; intros; lra.
      * repeat split; intros; lra.
    + destruct (even_slice a accounts ltac:(lia) Heven) as [Hslice Hall].
      set (slice := scan_delay a / inject_Z (Z.of_nat accounts)) in *.
      repeat split; intros.
      * apply Qmult_le_0_compat; lra.
      * lra.
      * apply Qlt_le_trans with (slice * inject_Z (Z.of_nat accounts));
          [apply Qmult_lt_l; lra | rewrite Hall; apply Qle_refl].
Qed.

Lemma stagger_thread_delay_witness :
  ((3 <= 1)%nat ->
   stagger_thread (mkArgs 3 10 3 5) 3 2 (1 # 4) Worker.fresh_status
   = (Returns tt, Worker.fresh_status, [])) /\
  ((1 < 3)%nat ->
   stagger_thread (mkArgs 3 10 3 5) 3 2 (1 # 4) Worker.fresh_status
   = (Returns tt, Worker.fresh_status,
      [Sleep (stagger_delay (mkArgs 3 10 3 5) 3 2 (1 # 4))]) /\
   0 <= stagger_delay (mkArgs 3 10 3 5) 3 2 (1 # 4) /\
   (scan_delay (mkArgs 3 10 3 5) < inject_Z (Z.of_nat 3) ->
    stagger_delay (mkArgs 3 10 3 5) 3 2 (1 # 4) < inject_Z (Z.of_nat 3)) /\
   (inject_Z (Z.of_nat 3) <= scan_delay (mkArgs 3 10 3 5) ->
    stagger_delay (mkArgs 3 10 3 5) 3 2 (1 # 4)
    < scan_delay (mkArgs 3 10 3 5))).
Proof.
  apply (stagger_thread_delay (mkArgs 3 10 3 5) 3 2 (1 # 4) Worker.fresh_status).
  - lia.
  - unfold unit_interval. lra.
Defined.

Lemma stagger_delay_rounded_exact (a : args) (accounts index : nat)
  (random : Q) :
  stagger_delay_rounded (fun x => x) a accounts index random
  = stagger_delay a accounts index random.
Proof. reflexivity. Qed.

Lemma identity_rounding (limit : Q) : rounding limit (fun x => x).
Proof.
  constructor.
  - intros x y H. exact H.
  - intros k _ _. reflexivity.
  - intros x _ _. split; lra.
Qed.

Lemma Qfloor_bounds (x : Q) :
  inject_Z (Qfloor x) <= x /\ x < inject_Z (Qfloor x) + 1.
Proof.
  split; [apply Qfloor_le |].
  pose proof (Qlt_floor x) as H. rewrite inject_Z_plus in H. exact H.
Qed.

Lemma Qfloor_half (z : Z) : Qfloor (inject_Z z + (1 # 2)) = z.
Proof.
  destruct (Qfloor_bounds (inject_Z z + (1 # 2))) as [Hlow Hhigh].
  set (f := Qfloor (inject_Z z + (1 # 2))) in *.
  destruct (Z_le_gt_dec f z) as [Hle | Hgt].
  - destruct (Z_le_gt_dec z f) as [Hge | Hlt]; [lia |].
    exfalso. assert (H : (f + 1 <= z)%Z) by lia.
    rewrite Zle_Qle, inject_Z_plus in H. change (inject_Z 1) with 1 in H.
    lra.
  - exfalso. assert (H : (z + 1 <= f)%Z) by lia.
    rewrite Zle_Qle, inject_Z_plus in H. change (inject_Z 1) with 1 in H.
    lra.
Qed.

Lemma nearest_eighth_rounding (limit : Q) : rounding limit nearest_eighth.
Proof.
  constructor; unfold nearest_eighth.
  - intros x y Hxy.
    assert (H : (Qfloor (x * 8 + (1 # 2)) <= Qfloor (y * 8 + (1 # 2)))%Z)
      by (apply Qfloor_resp_le; lra).
    rewrite Zle_Qle in H. lra.
  - intros k _ _.
    assert (E : inject_Z k * (1 # 4) * 8 + (1 # 2)
                == inject_Z (2 * k) + (1 # 2)).
    { rewrite inject_Z_mult. change (inject_Z 2) with 2. ring. }
    rewrite (Qfloor_comp _ _ E), Qfloor_half, inject_Z_mult.
    change (inject_Z 2) with 2. ring.
  - intros x _ _.
    destruct (Qfloor_bounds (x * 8 + (1 # 2))) as [Hlow Hhigh].
    set (f := inject_Z (Qfloor (x * 8 + (1 # 2)))) in *.
    split; lra.
Qed.

(** A rounded number is not above a multiple of a quarter that the exact
    number is not above, and likewise below. *)
Lemma rnd_not_above (limit : Q) (rnd : Q -> Q) (x c : Q) (k : Z) :
  rounding limit rnd ->
  c == inject_Z k * (1 # 4) -> - limit <= c -> c <= limit ->
  x <= c -> rnd x <= c.
Proof.
  intros Hrnd Hc Hlow Hhigh Hx.
  apply Qle_trans with (rnd (inject_Z k * (1 # 4))).
  - apply (rnd_monotone _ _ Hrnd). lra.
  - rewrite (rnd_quarters _ _ Hrnd k) by lra. lra.
Qed.

Lemma rnd_not_below (limit : Q) (rnd : Q -> Q) (x c : Q) (k : Z) :
  rounding limit rnd ->
  c == inject_Z k * (1 # 4) -> - limit <= c -> c <= limit ->
  c <= x -> c <= rnd x.
Proof.
  intros Hrnd Hc Hlow Hhigh Hx.
  apply Qle_trans with (rnd (inject_Z k * (1 # 4))).
  - rewrite (rnd_quarters _ _ Hrnd k) by lra. lra.
  - apply (rnd_monotone _ _ Hrnd). lra.
Qed.

(** The rounded delay of the crowded mode stays within a quarter of a
    second of the index. *)
Lemma crowded_delay_bounds (limit : Q) (rnd : Q -> Q) (index : nat)
  (random : Q) :
  rounding limit rnd -> unit_interval random ->
  inject_Z (Z.of_nat index) + 1 <= limit ->
  inject_Z (Z.of_nat index) - (1 # 4)
  <= rnd (inject_Z (Z.of_nat index) + rnd (rnd (random - (5 # 10)) / 2)) /\
  rnd (inject_Z (Z.of_nat index) + rnd (rnd (random - (5 # 10)) / 2))
  <= inject_Z (Z.of_nat index) + (1 # 4).
Proof.
  intros Hrnd [Hr0 Hr1] Hlimit.
  pose proof (inject_nat_nonneg index) as Hi0.
  set (n := inject_Z (Z.of_nat index)) in *.
  assert (Hsub : - (1 # 2) <= rnd (random - (5 # 10))
                 /\ rnd (random - (5 # 10)) <= 1 # 2).
  { split.
    - apply (rnd_not_below limit rnd _ _ (-2) Hrnd); try lra. reflexivity.
    - apply (rnd_not_above limit rnd _ _ 2 Hrnd); try lra. reflexivity. }
  set (x := rnd (random - (5 # 10))) in *.
  assert (Ehalf : x / 2 == x * (1 # 2)) by field.
  assert (Hdiv : - (1 # 4) <= rnd (x / 2) /\ rnd (x / 2) <= 1 # 4).
  { split.
    - apply (rnd_not_below limit rnd _ _ (-1) Hrnd); try lra. reflexivity.
    - apply (rnd_not_above limit rnd _ _ 1 Hrnd); try lra. reflexivity. }
  set (y := rnd (x / 2)) in *.
  split.
  - apply (rnd_not_below limit rnd _ _ (4 * Z.of_nat index - 1) Hrnd);
      try lra.
    unfold Z.sub. rewrite inject_Z_plus, inject_Z_mult. fold n.
    change (inject_Z 4) with 4. change (inject_Z (- (1))) with (- (1)). ring.
  - apply (rnd_not_above limit rnd _ _ (4 * Z.of_nat index + 1) Hrnd);
      try lra.
    rewrite inject_Z_plus, inject_Z_mult. fold n.
    change (inject_Z 4) with 4. change (inject_Z 1) with 1. ring.
Qed.

(** X11: the threads start in the order of their accounts and at least
    half a second apart, in the arithmetic of the code.  With every
    operation of the delay rounded, by a rounding that is monotone,
    exact on the multiples of a quarter and off by a quarter at most up
    to a limit above [len(accounts)] and [scan_delay + len(accounts)]
    (the doubles, up to 2^50; exact arithmetic), of two accounts the one
    with the higher index is delayed by half a second more or longer, in
    either mode and whatever the random numbers drawn. *)
Theorem stagger_delay_order
  (limit : Q) (rnd : Q -> Q) (a : args) (accounts i j : nat)
  (random_i random_j : Q) :
  rounding limit rnd ->
  inject_Z (Z.of_nat accounts) <= limit ->
  scan_delay a + inject_Z (Z.of_nat accounts) <= limit ->
  (i < j)%nat -> (j < accounts)%nat ->
  unit_interval random_i -> unit_interval random_j ->
  stagger_delay_rounded rnd a accounts i random_i + (1 # 2)
  <= stagger_delay_rounded rnd a accounts j random_j.
Proof.
  intros Hrnd Hn Hsum Hij Hj Hri Hrj.
  pose proof (inject_nat_lt _ _ Hij) as Hlt.
  pose proof (inject_nat_lt _ _ Hj) as Hjn.
  pose proof (inject_nat_nonneg i) as Hi0.
  unfold stagger_delay_rounded.
  destruct (Qlt_le_dec (scan_delay a) (inject_Z (Z.of_nat accounts)))
    as [Hcrowded | Heven].
  - destruct (crowded_delay_bounds limit rnd j random_j Hrnd Hrj
                ltac:(lra)) as [Hlow _].
    destruct (Nat.ltb_spec 0 j) as [_ | Hzero]; [| lia].
    destruct (Nat.ltb_spec 0 i) as [Hpos | Hnone].
    + destruct (crowded_delay_bounds limit rnd i random_i Hrnd Hri
                  ltac:(lra)) as [_ Hhigh].
      lra.
    + assert (H1 : 1 <= inject_Z (Z.of_nat j))
        by (change 1 with (inject_Z 1); rewrite <- Zle_Qle; lia).
      lra.
  - destruct (even_slice a accounts ltac:(lia) Heven) as [Hslice Hall].
    set (n := inject_Z (Z.of_nat accounts)) in *.
    set (slice := scan_delay a / n) in *.
    assert (Hn2 : 2 <= n).
    { unfold n. change 2 with (inject_Z 2). rewrite <- Zle_Qle. lia. }
    assert (Hslice_sd : slice <= scan_delay a).
    { rewrite <- Hall.
      apply Qle_trans with (slice * 1); [lra |].
      apply Qmult_le_l; lra. }
    destruct (rnd_close _ _ Hrnd slice ltac:(lra) ltac:(lra))
      as [_ Hq_high].
    assert (Hq_low : 1 <= rnd slice).
    { apply (rnd_not_below limit rnd _ _ 4 Hrnd); try lra. reflexivity. }
    set (q := rnd slice) in *.
    set (x := inject_Z (Z.of_nat i)) in *.
    set (y := inject_Z (Z.of_nat j)) in *.
    assert (Hstep : q * (x + 1) <= q * y) by (apply Qmult_le_l; lra).
    assert (Htop : q * y <= (slice + (1 # 4)) * (n - 1)).
    { apply Qle_trans with (q * (n - 1)).
      - apply Qmult_le_l; lra.
      - apply Qmult_le_compat_r; lra. }
    assert (Hqy : q * y <= limit).
    { apply Qle_trans with ((slice + (1 # 4)) * (n - 1)); [exact Htop |].
      assert (E : (slice + (1 # 4)) * (n - 1)
                  == slice * n - slice + (1 # 4) * (n - 1)) by ring.
      rewrite E, Hall. lra. }
    assert (Hqx0 : 0 <= q * x) by (apply Qmult_le_0_compat; lra).
    assert (Hqx : q * x <= q * y).
    { apply Qle_trans with (q * (x + 1)); [| exact Hstep].
      apply Qmult_le_l; lra. }
    assert (Hlimit0 : 0 <= limit) by lra.
    destruct (rnd_close _ _ Hrnd (q * x) ltac:(lra) ltac:(lra))
      as [_ Hdx].
    destruct (rnd_close _ _ Hrnd (q * y) ltac:(lra) ltac:(lra))
      as [Hdy _].
    assert (E : q * (x + 1) == q * x + q) by ring.
    lra.
Qed.

Lemma stagger_delay_order_witness :
  stagger_delay_rounded nearest_eighth (mkArgs 3 2 3 5) 4 1 (99 # 100)
  + (1 # 2)
  <= stagger_delay_rounded nearest_eighth (mkArgs 3 2 3 5) 4 2 0.
Proof.
  apply (stagger_delay_order 100 nearest_eighth (mkArgs 3 2 3 5) 4 1 2
           (99 # 100) 0).
  - apply nearest_eighth_rounding.
  - vm_compute. discriminate.
  - vm_compute. discriminate.
  - lia.
  - lia.
  - unfold unit_interval. lra.
  - unfold unit_interval. lra.
Defined.

(** The half second is reached: rounded to eighths, a draw of 0.99 for
    the account 1 and of 0 for the account 2 give the delays 1.25 and
    1.75, as the draws [1 - 2^-53] and 0 do in doubles. *)
Example stagger_gap_attained :
  stagger_delay_rounded nearest_eighth (mkArgs 3 2 3 5) 4 1 (99 # 100)
  == 5 # 4 /\
  stagger_delay_rounded nearest_eighth (mkArgs 3 2 3 5) 4 2 0 == 7 # 4.
Proof. split; vm_compute; reflexivity. Qed.

End StaggerFacts.

(** * The pages of the status printer *)

Section StatusPageFacts.
Import StatusPage.

(** The printing loop shows a window of the workers: the worker that is
    the [i]-th to be met from the current entry on is on line
    [current_line + 1 + i], and the lines from [start_line] to [end_line]
    are printed. *)
Lemma print_workers_window {name : Type} (is_worker : name -> bool)
  (start_line end_line : Z) (items : list name) :
  forall current_line,
  print_workers is_worker start_line end_line current_line items
  = skipn (Z.to_nat (start_line - current_line - 1))
          (firstn (Z.to_nat (end_line - current_line))
                  (filter is_worker items)).
Proof.
  induction items as [| item rest IH]; intro c; simpl.
  - rewrite firstn_nil, skipn_nil. reflexivity.
  - destruct (is_worker item); [| apply IH].
    destruct (Z.ltb_spec (c + 1) start_line) as [Hbefore | Hfrom].
    + rewrite IH.
      replace (Z.to_nat (start_line - c - 1))
        with (S (Z.to_nat (start_line - (c + 1) - 1))) by lia.
      destruct (Z_le_dec (end_line - c) 0) as [Hnone | Hsome].
      * replace (Z.to_nat (end_line - c)) with 0%nat by lia.
        replace (Z.to_nat (end_line - (c + 1))) with 0%nat by lia.
        simpl. rewrite skipn_nil. reflexivity.
      * replace (Z.to_nat (end_line - c))
          with (S (Z.to_nat (end_line - (c + 1)))) by lia.
        reflexivity.
    + replace (Z.to_nat (start_line - c - 1)) with 0%nat by lia.
      destruct (Z.gtb_spec (c + 1) end_line) as [Hafter | Hupto].
      * replace (Z.to_nat (end_line - c)) with 0%nat by lia. reflexivity.
      * rewrite IH.
        replace (Z.to_nat (end_line - c))
          with (S (Z.to_nat (end_line - (c + 1)))) by lia.
        replace (Z.to_nat (start_line - (c + 1) - 1)) with 0%nat by lia.
        reflexivity.
Qed.

(** [math.ceil] of the quotient, by integer division. *)
Lemma total_pages_div (entries usable_height : Z) :
  0 < usable_height ->
  total_pages entries usable_height = - ((- (entries - 1)) / usable_height).
Proof.
  intro Hpos. unfold total_pages, Qceiling, Qfloor.
  destruct usable_height as [| p | p]; try lia.
  unfold Qdiv, Qinv, Qmult, Qopp, inject_Z. simpl Qnum. simpl Qden.
  rewrite Z.mul_1_r. reflexivity.
Qed.

Lemma usable_height_positive (height : Z) : 1 <= usable_height height.
Proof.
  unfold usable_height. cbv zeta.
  destruct (Z.ltb_spec (height - 6) 1); lia.
Qed.

Lemma filter_thread_names (n : nat) :
  filter is_worker_name (thread_names n) = map WorkerName (seq 0 n).
Proof.
  unfold thread_names. simpl.
  induction (seq 0 n) as [| i l IH]; simpl; [reflexivity |].
  rewrite IH. reflexivity.
Qed.

Lemma firstn_seq_min (b start len : nat) :
  firstn b (seq start len) = seq start (Nat.min b len).
Proof.
  revert start len. induction b as [| b IH]; intros start [| len]; simpl;
    try reflexivity.
  rewrite IH. reflexivity.
Qed.

(** The workers in a window of the list of names. *)
Lemma In_window (k a b n : nat) :
  In (WorkerName k) (skipn a (firstn b (map WorkerName (seq 0 n))))
  <-> (a <= k /\ k < b /\ k < n)%nat.
Proof.
  rewrite firstn_map, skipn_map, firstn_seq_min, skipn_seq, in_map_iff.
  split.
  - intros [i [Hi Hin]]. inversion Hi; subst. apply in_seq in Hin. lia.
  - intro H. exists k. split; [reflexivity |]. apply in_seq. lia.
Qed.

(** What a pass of the display shows for [n] workers. *)
Lemma status_page_shown (height current_page : Z) (n : nat) :
  status_page is_worker_name height current_page (thread_names n)
  = (clamp_page current_page
       (total_pages (Z.of_nat (S n)) (usable_height height)),
     skipn (Z.to_nat
              (usable_height height
               * (clamp_page current_page
                    (total_pages (Z.of_nat (S n)) (usable_height height)) - 1)
               - 2))
           (firstn (Z.to_nat
                      (usable_height height
                       * clamp_page current_page
                           (total_pages (Z.of_nat (S n))
                                        (usable_height height))
                       - 1))
                   (map WorkerName (seq 0 n)))).
Proof.
  unfold status_page. cbv zeta.
  replace (length (thread_names n)) with (S n)
    by (unfold thread_names; simpl; rewrite length_map, length_seq;
        reflexivity).
  rewrite print_workers_window, filter_thread_names.
  f_equal. f_equal; [f_equal; lia | f_equal; f_equal; lia].
Qed.

Lemma clamp_page_bounds (current_page total_pages : Z) :
  1 <= clamp_page current_page total_pages <= Z.max 1 total_pages.
Proof.
  unfold clamp_page. cbv zeta.
  destruct (Z.gtb_spec current_page total_pages);
    match goal with
    | |- context [Z.ltb ?x ?y] => destruct (Z.ltb_spec x y)
    end; lia.
Qed.

End StatusPageFacts.

Section StatusPageClaims.
Import StatusPage.

(** X12: the page that the status printer shows is never below 1, and
    with [n] workers and a usable height [h] the page [p] lists the
    workers whose index (from 0) lies from [h * (p - 1) - 2] up to but
    not including [h * p - 1]: the first page holds at most [h - 1]
    workers and each later page at most [h + 1]. *)
Theorem status_page_window (height current_page : Z) (n : nat) :
  let h := usable_height height in
  let p := fst (status_page is_worker_name height current_page
                            (thread_names n)) in
  1 <= p /\
  p = clamp_page current_page (total_pages (Z.of_nat (S n)) h) /\
  snd (status_page is_worker_name height current_page (thread_names n))
  = skipn (Z.to_nat (h * (p - 1) - 2))
          (firstn (Z.to_nat (h * p - 1)) (map WorkerName (seq 0 n))).
Proof.
  cbv zeta. rewrite status_page_shown. cbn [fst snd].
  split; [apply clamp_page_bounds |]. split; reflexivity.
Qed.

(** X13: which workers can be brought on the screen.  Every worker but
    the last is on some page; the last worker is on some page exactly
    when the number of workers is not a multiple of the usable height. *)
Theorem status_page_reachable (height : Z) (n k : nat) :
  (k < n)%nat ->
  (exists current_page,
     In (WorkerName k)
        (snd (status_page is_worker_name height current_page
                          (thread_names n))))
  <-> ((k < n - 1)%nat \/ Z.of_nat n mod usable_height height <> 0).
Proof.
  intro Hk.
  pose proof (usable_height_positive height) as Hh.
  set (h := usable_height height) in *.
  assert (Hpage : forall current_page,
    In (WorkerName k)
       (snd (status_page is_worker_name height current_page (thread_names n)))
    <-> (let p := clamp_page current_page (total_pages (Z.of_nat (S n)) h) in
         h * (p - 1) - 2 <= Z.of_nat k /\ Z.of_nat k < h * p - 1)).
  { intro current_page.
    rewrite status_page_shown. cbn [snd]. fold h.
    rewrite In_window. cbv zeta. lia. }
  assert (Htotal : total_pages (Z.of_nat (S n)) h = - (- Z.of_nat n / h)).
  { rewrite total_pages_div by lia. do 2 f_equal. lia. }
  assert (Hceil : h * (total_pages (Z.of_nat (S n)) h - 1) < Z.of_nat n
                  <= h * total_pages (Z.of_nat (S n)) h).
  { rewrite Htotal.
    pose proof (Z.div_mod (- Z.of_nat n) h ltac:(lia)) as Hdm.
    pose proof (Z.mod_pos_bound (- Z.of_nat n) h ltac:(lia)) as Hmod.
    nia. }
  set (total := total_pages (Z.of_nat (S n)) h) in *.
  split.
  - intros [current_page Hin]. apply Hpage in Hin. cbv zeta in Hin.
    destruct (Nat.eq_dec k (n - 1)) as [Hlast | Hother]; [| left; lia].
    right. intro Hmultiple.
    assert (Hexact : Z.of_nat n = h * total).
    { apply Z.mod_divide in Hmultiple; [| lia].
      destruct Hmultiple as [c Hc].
      assert (c = total) by nia. subst c. lia. }
    pose proof (clamp_page_bounds current_page total) as Hp.
    assert (1 <= total) by nia.
    nia.
  - intro Hcase.
    assert (Hclamp : forall p, 1 <= p <= total -> clamp_page p total = p).
    { intros p Hp. unfold clamp_page. cbv zeta.
      destruct (Z.gtb_spec p total);
        match goal with
        | |- context [Z.ltb ?x ?y] => destruct (Z.ltb_spec x y)
        end; lia. }
    exists ((Z.of_nat k + 1) / h + 1). apply Hpage. cbv zeta.
    pose proof (Z.div_mod (Z.of_nat k + 1) h ltac:(lia)) as Hdm.
    pose proof (Z.mod_pos_bound (Z.of_nat k + 1) h ltac:(lia)) as Hmod.
    assert (Hq : 0 <= (Z.of_nat k + 1) / h) by (apply Z.div_pos; lia).
    rewrite Hclamp.
    + nia.
    + split; [lia |].
      destruct Hcase as [Hinner | Hragged].
      * assert ((Z.of_nat k + 1) / h < total); [| lia].
        apply Z.div_lt_upper_bound; [lia |]. nia.
      * assert (Hstrict : Z.of_nat n < h * total).
        { destruct (Z.eq_dec (Z.of_nat n) (h * total)) as [E | E]; [| lia].
          exfalso. apply Hragged. rewrite E, Z.mul_comm.
          apply Z.mod_mul. lia. }
        assert ((Z.of_nat k + 1) / h < total); [| lia].
        apply Z.div_lt_upper_bound; [lia |]. nia.
Qed.

Lemma status_page_reachable_witness :
  (exists current_page,
     In (WorkerName 5)
        (snd (status_page is_worker_name 9 current_page (thread_names 6))))
  <-> ((5 < 6 - 1)%nat \/ Z.of_nat 6 mod usable_height 9 <> 0).
Proof.
  apply (status_page_reachable 9 6 5). lia.
Defined.

End StatusPageClaims.

(** * The spawn-scan overseer *)

Section OverseerFacts.
Import Overseer.

Lemma py_index_in_range {A : Type} (l : list A) (i : Z) :
  0 <= i < Z.of_nat (length l) ->
  exists x, py_index l i = Some x /\ In x l.
Proof.
  intro Hi. unfold py_index.
  destruct (Z.leb_spec 0 i); [| lia].
  destruct (nth_error l (Z.to_nat i)) as [x |] eqn:Hx.
  - exists x. split; [reflexivity |]. eapply nth_error_In. exact Hx.
  - apply nth_error_None in Hx. lia.
Qed.

Lemma put_length queues w x : length (put queues w x) = length queues.
Proof.
  revert w. induction queues as [| q rest IH]; intros [| w]; simpl;
    try reflexivity.
  rewrite IH. reflexivity.
Qed.

(** [put] appends to the queue [w] and leaves the others alone. *)
Lemma put_nth_error queues w x w' :
  nth_error (put queues w x) w'
  = if Nat.eqb w' w
    then option_map (fun q => q ++ [x]) (nth_error queues w')
    else nth_error queues w'.
Proof.
  revert w w'. induction queues as [| q rest IH]; intros w w'.
  - replace (put [] w x) with (@nil (list search_args))
      by (destruct w; reflexivity).
    destruct (Nat.eqb w' w); destruct w'; reflexivity.
  - destruct w as [| w]; destruct w' as [| w']; simpl; try reflexivity.
    apply IH.
Qed.

Lemma own_jobs_put spawns queues w x :
  own_jobs spawns queues -> job_of spawns w x ->
  own_jobs spawns (put queues w x).
Proof.
  intros Hown Hjob w' q Hq. rewrite put_nth_error in Hq.
  destruct (Nat.eqb_spec w' w) as [-> | Hother].
  - destruct (nth_error queues w) as [q0 |] eqn:Hq0; [| discriminate].
    simpl in Hq. inversion Hq; subst q.
    apply Forall_app. split; [apply (Hown w q0 Hq0) |].
    constructor; [exact Hjob | constructor].
  - apply (Hown w' q Hq).
Qed.

Lemma own_jobs_empty spawns n : own_jobs spawns (repeat [] n).
Proof.
  intros w q Hq. apply nth_error_In in Hq. apply repeat_spec in Hq.
  subst q. constructor.
Qed.

(** While every spawn point of the schedule carries the index of one of
    the queues, a poll with [pos] inside the schedule does not fail, and
    what it leaves is again such a state. *)
Lemma overseer_poll_safe (spawns : list spawn) (accounts : nat)
  (queues : list (list search_args)) (pos now : Z) :
  (forall sp, In sp spawns ->
     exists w, worker sp = Some w /\ (w < accounts)%nat) ->
  length queues = accounts ->
  0 <= pos < Z.of_nat (length spawns) ->
  own_jobs spawns queues ->
  overseer_poll spawns queues pos now = Waits \/
  exists queues' pos',
    overseer_poll spawns queues pos now = Queues queues' pos' /\
    length queues' = accounts /\
    0 <= pos' < Z.of_nat (length spawns) /\
    own_jobs spawns queues'.
Proof.
  intros Htagged Hlen Hpos Hown. unfold overseer_poll.
  destruct (py_index_in_range spawns pos Hpos) as [sp [Hsp Hin]].
  rewrite Hsp.
  destruct (Qlt_le_dec (Clock.timeDif (inject_Z now) (time sp)) 60);
    [left; reflexivity | right].
  destruct (Htagged sp Hin) as [w [Hw Hbound]]. cbv zeta. rewrite Hw.
  destruct (nth_error queues w) as [queue |] eqn:Hq.
  2: { apply nth_error_None in Hq. lia. }
  eexists _, _. split; [reflexivity |].
  split; [rewrite put_length; exact Hlen |].
  split; [apply Z.mod_pos_bound; lia |].
  apply own_jobs_put; [exact Hown |].
  exists sp. repeat split; assumption.
Qed.

Lemma overseer_run_safe (spawns : list spawn) (accounts : nat) :
  (forall sp, In sp spawns ->
     exists w, worker sp = Some w /\ (w < accounts)%nat) ->
  forall (clock : list Z) (queues : list (list search_args)) (pos : Z),
  length queues = accounts ->
  0 <= pos < Z.of_nat (length spawns) ->
  own_jobs spawns queues ->
  exists queues' pos',
    overseer_run spawns queues pos clock = inr (queues', pos') /\
    length queues' = accounts /\
    0 <= pos' < Z.of_nat (length spawns) /\
    own_jobs spawns queues'.
Proof.
  intros Htagged clock.
  induction clock as [| now clock IH]; intros queues pos Hlen Hpos Hown.
  - exists queues, pos. repeat split; try assumption; lia.
  - simpl.
    destruct (overseer_poll_safe spawns accounts queues pos now
                Htagged Hlen Hpos Hown)
      as [Hwait | [queues1 [pos1 [Hput [Hlen1 [Hpos1 Hown1]]]]]].
    + rewrite Hwait. apply IH; assumption.
    + rewrite Hput. apply IH; assumption.
Qed.

Lemma initial_position_in_range (spawns : list spawn) (now : Z) :
  spawns <> [] ->
  0 <= initial_position spawns now < Z.of_nat (length spawns).
Proof.
  intro Hne. unfold initial_position, Cursor.SbSearch. cbv zeta.
  assert (Hlen : 0 <= Z.of_nat (length spawns) - 1)
    by (destruct spawns; [congruence | simpl length; lia]).
  pose proof (search_loop_bounds spawns
                (inject_Z (initial_target now)) 0
                (Z.of_nat (length spawns) - 1) Hlen).
  lia.
Qed.

End OverseerFacts.

Section OverseerClaims.
Import Effects Assigner Overseer.

(** X14: the spawn-scan overseer never fails on a schedule of its own
    making.  When [assign_spawns] returns a non-empty schedule for
    [accounts] workers, the dispatch loop, started at the position that
    [SbSearch] finds and run over any readings of the clock with one
    empty queue per account, raises neither from [spawns[pos]] nor from
    [search_items_queues[...]]; [pos] stays inside the schedule, and
    every queue receives only jobs of spawn points assigned to its own
    worker. *)
Theorem overseer_run_never_fails
  (dist : spawn -> spawn -> Q) (scan_delay : Q) (max_speed max_delay : num)
  (points : list spawn) (accounts : nat) (spawns : list spawn)
  (now : Z) (clock : list Z) :
  assign_spawns dist scan_delay max_speed max_delay points accounts
  = Returns spawns ->
  spawns <> [] ->
  exists queues pos,
    overseer_run spawns (repeat [] accounts) (initial_position spawns now)
                 clock
    = inr (queues, pos) /\
    length queues = accounts /\
    0 <= pos < Z.of_nat (length spawns) /\
    own_jobs spawns queues.
Proof.
  intros Hout Hne.
  destruct (assign_spawns_schedule _ _ _ _ _ _ _ Hout)
    as [st [Hrun [_ [_ Htags]]]].
  apply overseer_run_safe.
  - intros sp Hin. destruct (Htags sp Hin) as [w [original [Hw [_ Hsp]]]].
    exists w. rewrite (greedy_assign_length _ _ _ _ _ _ _ Hrun) in Hw.
    split; [rewrite Hsp; reflexivity | exact Hw].
  - apply repeat_length.
  - apply initial_position_in_range. exact Hne.
  - apply own_jobs_empty.
Qed.

Lemma overseer_run_never_fails_witness :
  exists queues pos,
    overseer_run
      [mkSpawn 0 0 50 (Some 0%nat); mkSpawn 0 0 100 (Some 0%nat);
       mkSpawn 0 0 102 (Some 1%nat); mkSpawn 0 0 110 (Some 0%nat)]
      (repeat [] 2)
      (initial_position
         [mkSpawn 0 0 50 (Some 0%nat); mkSpawn 0 0 100 (Some 0%nat);
          mkSpawn 0 0 102 (Some 1%nat); mkSpawn 0 0 110 (Some 0%nat)] 161)
      [161; 162; 163; 170; 171]
    = inr (queues, pos) /\
    length queues = 2%nat /\
    0 <= pos
      < Z.of_nat
          (length
             [mkSpawn 0 0 50 (Some 0%nat); mkSpawn 0 0 100 (Some 0%nat);
              mkSpawn 0 0 102 (Some 1%nat); mkSpawn 0 0 110 (Some 0%nat)]) /\
    own_jobs
      [mkSpawn 0 0 50 (Some 0%nat); mkSpawn 0 0 100 (Some 0%nat);
       mkSpawn 0 0 102 (Some 1%nat); mkSpawn 0 0 110 (Some 0%nat)] queues.
Proof.
  apply (overseer_run_never_fails degree_dist 10 (Fin 1) (Fin 60)
           [at_origin 100; at_origin 101; at_origin 102; at_origin 50] 2).
  - vm_compute. reflexivity.
  - discriminate.
Defined.

(** X15: without a spawn point to track the overseer dies at once.
    [assign_spawns] turns an empty input into the empty schedule,
    [SbSearch] answers 0 on it, and the first evaluation of
    [spawns[pos]] raises [IndexError], whatever the clock and the
    queues. *)
Theorem overseer_run_empty_schedule
  (dist : spawn -> spawn -> Q) (scan_delay : Q) (max_speed max_delay : num)
  (accounts : nat) (queues : list (list search_args))
  (now0 now : Z) (clock : list Z) :
  assign_spawns dist scan_delay max_speed max_delay [] accounts
  = Returns [] /\
  initial_position [] now0 = 0 /\
  overseer_run [] queues (initial_position [] now0) (now :: clock)
  = inl IndexError.
Proof.
  split; [| split].
  - unfold assign_spawns, greedy_assign. simpl.
    rewrite tag_workers_empty_queues. reflexivity.
  - unfold initial_position, Cursor.SbSearch. cbv zeta. simpl length.
    rewrite Cursor.search_loop_equation_1. reflexivity.
  - assert (E : initial_position [] now0 = 0).
    { unfold initial_position, Cursor.SbSearch. cbv zeta. simpl length.
      rewrite Cursor.search_loop_equation_1. reflexivity. }
    rewrite E. reflexivity.
Qed.

(** X16: the time that the overseer looks up first is the time one
    minute ago.  For a reading [now] of [curSec()] in [0, 3600) the
    target [(now + 3540) % 3600] is again a time past the hour, it is
    exactly 60 seconds old by [timeDif], and a spawn point with that
    time is queued by the first poll, not waited for. *)
Theorem initial_target_one_minute_old
  (now : Z) (sp : spawn) (rest : list spawn)
  (queues : list (list search_args)) (w : nat) :
  0 <= now < 3600 ->
  time sp = inject_Z (initial_target now) ->
  worker sp = Some w -> (w < length queues)%nat ->
  0 <= initial_target now < 3600 /\
  (Clock.timeDif (inject_Z now) (inject_Z (initial_target now)) == 60)%Q /\
  overseer_poll (sp :: rest) queues 0 now
  = Queues (put queues w
              (mkSearchArgs 0 (lat sp, lng sp, 4032 # 100) (time sp)))
           (1 mod Z.of_nat (length (sp :: rest))).
Proof.
  intros Hnow Htime Hw Hbound.
  assert (Hrange : 0 <= initial_target now < 3600)
    by (apply Z.mod_pos_bound; lia).
  assert (Hage : (Clock.timeDif (inject_Z now) (inject_Z (initial_target now))
                  == 60)%Q).
  { unfold Clock.timeDif. cbv zeta.
    assert (Hcases : (60 <= now /\ initial_target now = now - 60)
                     \/ (now < 60 /\ initial_target now = now + 3540)).
    { unfold initial_target.
      destruct (Z_lt_dec now 60).
      - right. split; [lia |]. apply Z.mod_small. lia.
      - left. split; [lia |].
        replace (now + 3540) with (now - 60 + 1 * 3600) by lia.
        rewrite Z.mod_add by lia. apply Z.mod_small. lia. }
    assert (Hnow' : (0 <= inject_Z now)%Q /\ (inject_Z now < 3600)%Q).
    { split; [change 0%Q with (inject_Z 0); rewrite <- Zle_Qle; lia
             | change 3600%Q with (inject_Z 3600); rewrite <- Zlt_Qlt; lia]. }
    destruct Hcases as [[Hge E] | [Hlt E]]; rewrite E.
    - assert (E' : (inject_Z (now - 60) == inject_Z now - 60)%Q).
      { unfold Z.sub. rewrite inject_Z_plus. reflexivity. }
      repeat match goal with
             | |- context [Qlt_le_dec ?x ?y] => destruct (Qlt_le_dec x y)
             end; lra.
    - assert (E' : (inject_Z (now + 3540) == inject_Z now + 3540)%Q).
      { rewrite inject_Z_plus. reflexivity. }
      assert (Hlow : (inject_Z now < 60)%Q).
      { change 60%Q with (inject_Z 60). rewrite <- Zlt_Qlt. lia. }
      repeat match goal with
             | |- context [Qlt_le_dec ?x ?y] => destruct (Qlt_le_dec x y)
             end; lra. }
  split; [exact Hrange |]. split; [exact Hage |].
  unfold overseer_poll.
  assert (Hidx : py_index (sp :: rest) 0 = Some sp) by reflexivity.
  rewrite Hidx.
  destruct (Qlt_le_dec (Clock.timeDif (inject_Z now) (time sp)) 60)
    as [Hlt | _].
  - exfalso. rewrite Htime, Hage in Hlt. apply (Qlt_irrefl 60). exact Hlt.
  - cbv zeta. rewrite Hw.
    destruct (nth_error queues w) as [queue |] eqn:Hq.
    + reflexivity.
    + apply nth_error_None in Hq. lia.
Qed.

Lemma initial_target_one_minute_old_witness :
  0 <= initial_target 30 < 3600 /\
  (Clock.timeDif (inject_Z 30) (inject_Z (initial_target 30)) == 60)%Q /\
  overseer_poll [mkSpawn 1 2 3570 (Some 0%nat)] [[]] 0 30
  = Queues (put [[]] 0
              (mkSearchArgs 0
                 (lat (mkSpawn 1 2 3570 (Some 0%nat)),
                  lng (mkSpawn 1 2 3570 (Some 0%nat)), 4032 # 100)
                 (time (mkSpawn 1 2 3570 (Some 0%nat)))))
           (1 mod Z.of_nat (length [mkSpawn 1 2 3570 (Some 0%nat)])).
Proof.
  apply (initial_target_one_minute_old 30 (mkSpawn 1 2 3570 (Some 0%nat))
           [] [[]] 0).
  - lia.
  - reflexivity.
  - reflexivity.
  - simpl. lia.
Defined.

End OverseerClaims.

(** * The grid overseer *)

Section GridOverseerFacts.
Import Steps GridOverseer.


Lemma enumerate_skipn (k : nat) :
  forall (step : Z) (locations : list location),
  skipn k (enumerate step locations)
  = enumerate (step + Z.of_nat k) (skipn k locations).
Proof.
  induction k as [| k IH]; intros step locations.
  - simpl. rewrite Z.add_0_r. reflexivity.
  - destruct locations as [| l rest]; [reflexivity |].
    simpl skipn. simpl enumerate at 1. simpl skipn. rewrite IH.
    f_equal. lia.
Qed.

Lemma enumerate_In (step0 : Z) (locations : list location)
  (step : Z) (step_location : location) :
  In (step, step_location) (enumerate step0 locations) ->
  step0 <= step /\
  nth_error locations (Z.to_nat (step - step0)) = Some step_location.
Proof.
  revert step0. induction locations as [| l rest IH]; intros step0 Hin;
    simpl in Hin; [contradiction |].
  destruct Hin as [Hhead | Htail].
  - inversion Hhead; subst. split; [lia |].
    rewrite Z.sub_diag. reflexivity.
  - destruct (IH _ Htail) as [Hle Hnth]. split; [lia |].
    replace (Z.to_nat (step - step0)) with (S (Z.to_nat (step - (step0 + 1))))
      by lia.
    exact Hnth.
Qed.

Lemma tl_skipn {A : Type} (k : nat) (l : list A) :
  tl (skipn k l) = skipn (S k) l.
Proof.
  revert l. induction k as [| k IH]; intros [| x l]; try reflexivity.
  simpl skipn at 1. rewrite IH. reflexivity.
Qed.

Section Invariant.
Variable m : libm.
Variable o : options.
Variable any_spawnpoints_in_range : location -> location -> bool.

#[local] Abbreviation queue_of_grid :=
  (GridOverseer.queue_of_grid m o any_spawnpoints_in_range).

Lemma overseer_turn_queue_of_grid paused new_location_queue st :
  queue_of_grid st ->
  queue_of_grid
    (fst (overseer_turn m o any_spawnpoints_in_range paused
                        new_location_queue st)).
Proof.
  intros [[k Hqueue] Hgrid]. unfold overseer_turn.
  destruct paused.
  - split; [| exact Hgrid]. cbn [fst search_items_queue locations].
    exists (length (enumerate 1 (locations st))).
    rewrite skipn_all. reflexivity.
  - destruct new_location_queue as [| l rest]; cbv zeta.
    + destruct (search_items_queue st) as [| job queue] eqn:Hq;
        cbn [fst search_items_queue locations current_location];
        (split; [| exact Hgrid]).
      * exists 0%nat. reflexivity.
      * exists k. exact Hqueue.
    + cbn [search_items_queue locations current_location fst].
      split; [exists 0%nat; reflexivity | reflexivity].
Qed.

Lemma worker_get_queue_of_grid st :
  queue_of_grid st -> queue_of_grid (worker_get st).
Proof.
  intros [[k Hqueue] Hgrid]. split; [| exact Hgrid].
  unfold worker_get. cbn [search_items_queue locations].
  exists (S k). rewrite Hqueue. apply tl_skipn.
Qed.

Lemma run_queue_of_grid actions :
  forall st, queue_of_grid st ->
  queue_of_grid (run m o any_spawnpoints_in_range actions st).
Proof.
  induction actions as [| a actions IH]; intros st Hst; [exact Hst |].
  simpl. apply IH. destruct a as [paused new_location_queue |].
  - apply overseer_turn_queue_of_grid. exact Hst.
  - apply worker_get_queue_of_grid. exact Hst.
Qed.

Lemma initial_state_queue_of_grid : queue_of_grid initial_state.
Proof. split; [exists 0%nat; reflexivity | reflexivity]. Qed.

End Invariant.

Lemma In_skipn_In {A : Type} (k : nat) (l : list A) (x : A) :
  In x (skipn k l) -> In x l.
Proof.
  intro H. rewrite <- (firstn_skipn k l). apply in_or_app. right. exact H.
Qed.



End GridOverseerFacts.

Section GridOverseerClaims.
Import Steps GridOverseer.
#[local] Set Warnings "-inexact-float".

(** X17: whatever the overseer and the workers do to the search queue,
    in whatever order (turns of the overseer, paused or not, with or
    without new locations, and workers taking jobs), a job [(step,
    step_location)] that is on the queue belongs to the grid of the
    current location: [step] counts from 1 and [step_location] is the
    entry [step - 1] of [locations], which is the grid generated around
    [current_location].  No job of an abandoned grid stays queued. *)
Theorem queued_steps_index_the_grid
  (m : libm) (o : options)
  (any_spawnpoints_in_range : location -> location -> bool)
  (actions : list action) (step : Z) (step_location : location) :
  In (step, step_location)
     (search_items_queue
        (run m o any_spawnpoints_in_range actions initial_state)) ->
  1 <= step /\
  nth_error
    (locations (run m o any_spawnpoints_in_range actions initial_state))
    (Z.to_nat (step - 1))
  = Some step_location /\
  exists current,
    current_location (run m o any_spawnpoints_in_range actions initial_state)
    = Some current /\
    locations (run m o any_spawnpoints_in_range actions initial_state)
    = scan_locations m o any_spawnpoints_in_range current.
Proof.
  pose proof (run_queue_of_grid m o any_spawnpoints_in_range actions
                initial_state
                (initial_state_queue_of_grid m o any_spawnpoints_in_range))
    as [[k Hqueue] Hgrid].
  set (st := run m o any_spawnpoints_in_range actions initial_state) in *.
  intro Hin. rewrite Hqueue in Hin. apply In_skipn_In in Hin.
  destruct (enumerate_In _ _ _ _ Hin) as [Hstep Hnth].
  split; [exact Hstep |]. split; [exact Hnth |].
  destruct (current_location st) as [current |].
  - exists current. split; [reflexivity | exact Hgrid].
  - rewrite Hgrid in Hin. contradiction.
Qed.

Lemma queued_steps_index_the_grid_witness :
  1 <= 1 /\
  nth_error
    (locations
       (run (mkLibm (fun x => x) (fun x => x) (fun x => x) (fun x _ => x))
            (mkOptions false false 1) (fun _ _ => true)
            [OverseerTurn false [(1.5, 2.5, 40.32)%float]] initial_state))
    (Z.to_nat (1 - 1))
  = Some (1.5, 2.5, 0)%float /\
  exists current,
    current_location
      (run (mkLibm (fun x => x) (fun x => x) (fun x => x) (fun x _ => x))
           (mkOptions false false 1) (fun _ _ => true)
           [OverseerTurn false [(1.5, 2.5, 40.32)%float]] initial_state)
    = Some current /\
    locations
      (run (mkLibm (fun x => x) (fun x => x) (fun x => x) (fun x _ => x))
           (mkOptions false false 1) (fun _ _ => true)
           [OverseerTurn false [(1.5, 2.5, 40.32)%float]] initial_state)
    = scan_locations
        (mkLibm (fun x => x) (fun x => x) (fun x => x) (fun x _ => x))
        (mkOptions false false 1) (fun _ _ => true) current.
Proof.
  apply (queued_steps_index_the_grid
           (mkLibm (fun x => x) (fun x => x) (fun x => x) (fun x _ => x))
           (mkOptions false false 1) (fun _ _ => true)
           [OverseerTurn false [(1.5, 2.5, 40.32)%float]] 1
           (1.5, 2.5, 0)%float).
  left. reflexivity.
Defined.

(** X18: a pause empties the queue but loses neither the grid nor the
    locations sent meanwhile.  After a paused turn the queue is empty,
    the grid and the pending locations are as before; the next turn
    without pause queues the whole grid again, numbered from 1: the old
    grid when no location is pending, and the grid around the most recent
    pending location otherwise. *)
Theorem pause_then_resume
  (m : libm) (o : options)
  (any_spawnpoints_in_range : location -> location -> bool)
  (pending : list location) (st : state) :
  let paused := overseer_turn m o any_spawnpoints_in_range true pending st in
  let resumed :=
    overseer_turn m o any_spawnpoints_in_range false (snd paused)
                  (fst paused) in
  search_items_queue (fst paused) = [] /\
  snd paused = pending /\
  locations (fst paused) = locations st /\
  search_items_queue (fst resumed) = enumerate 1 (locations (fst resumed)) /\
  snd resumed = [] /\
  (pending = [] ->
   locations (fst resumed) = locations st /\
   current_location (fst resumed) = current_location st) /\
  (forall l rest, pending = l :: rest ->
   current_location (fst resumed) = Some (last rest l) /\
   locations (fst resumed)
   = scan_locations m o any_spawnpoints_in_range (last rest l)).
Proof.
  cbv zeta. unfold overseer_turn. cbn [fst snd].
  destruct pending as [| l rest];
    cbn [search_items_queue locations current_location fst snd];
    repeat split; try reflexivity; try discriminate.
  all: match goal with
       | H : _ :: _ = _ :: _ |- _ => inversion H; subst; reflexivity
       end.
Qed.



End GridOverseerClaims.

(** * Further properties of the step generator *)

Section RingTurns.

(** One turn of the [while ring < step_count] loop. *)
Lemma walk_rings_turn (m : Steps.libm) xdist ydist step_count ring loc :
  Steps.walk_rings m xdist ydist step_count ring loc =
  if Z_lt_dec ring step_count then
    fst (Steps.walk_ring m xdist ydist (Z.to_nat ring) loc)
      ++ Steps.walk_rings m xdist ydist step_count (ring + 1)
           (snd (Steps.walk_ring m xdist ydist (Z.to_nat ring) loc))
  else [].
Proof. exact (walk_rings_unfold m xdist ydist step_count ring loc). Qed.

End RingTurns.

Section StepShape.
Import Steps.
Variable m : libm.

Lemma walk_side_altitude xdist ydist direction i :
  forall loc,
  Forall at_altitude_zero (fst (walk_side m xdist ydist direction i loc)).
Proof.
  induction i as [| i IH]; intro loc; simpl; [constructor |].
  specialize (IH (move m xdist ydist direction loc)).
  destruct (walk_side m xdist ydist direction i
              (move m xdist ydist direction loc)) as [rest loc'].
  simpl in *. constructor; [reflexivity | exact IH].
Qed.

Lemma walk_sides_altitude xdist ydist directions ring :
  forall loc,
  Forall at_altitude_zero (fst (walk_sides m xdist ydist directions ring loc)).
Proof.
  induction directions as [| direction rest IH]; intro loc; simpl;
    [constructor |].
  pose proof (walk_side_altitude xdist ydist direction ring loc) as Hside.
  destruct (walk_side m xdist ydist direction ring loc) as [out1 loc1].
  specialize (IH loc1).
  destruct (walk_sides m xdist ydist rest ring loc1) as [out2 loc2].
  simpl in *. apply Forall_app. split; assumption.
Qed.

Lemma walk_rings_altitude xdist ydist step_count :
  forall ring loc,
  Forall at_altitude_zero (walk_rings m xdist ydist step_count ring loc).
Proof.
  apply (counting_loop_ind step_count
    (fun ring => forall loc,
       Forall at_altitude_zero (walk_rings m xdist ydist step_count ring loc))).
  intros ring IH loc. rewrite walk_rings_turn.
  destruct (Z_lt_dec ring step_count) as [Hlt | Hge]; [| constructor].
  apply Forall_app. split.
  - unfold walk_ring. apply walk_sides_altitude.
  - apply IH; lia.
Qed.



End StepShape.

Section StepShapeClaims.
Import Steps.
#[local] Set Warnings "-inexact-float".

(** X20: every location that the generator yields has altitude 0, and
    the altitude of the center has no influence on the steps; with a step
    count of 1 or less (0 and negative counts included) the only step is
    the center at altitude 0. *)
Theorem generate_location_steps_altitude
  (m : libm) (C : location) (step_count : Z) (d : float) :
  Forall (fun l => loc_alt l = 0%float)
         (generate_location_steps m C step_count d) /\
  (forall altitude,
     generate_location_steps m (loc_lat C, loc_lng C, altitude) step_count d
     = generate_location_steps m C step_count d) /\
  (step_count <= 1 ->
   generate_location_steps m C step_count d
   = [(loc_lat C, loc_lng C, 0%float)]).
Proof.
  unfold generate_location_steps. cbv zeta. split; [| split].
  - constructor; [reflexivity |].
    apply (walk_rings_altitude m).
  - intro altitude. reflexivity.
  - intro Hle. rewrite walk_rings_turn.
    destruct (Z_lt_dec 1 step_count); [lia | reflexivity].
Qed.



End StepShapeClaims.

(** * Sleeping and failing in the worker threads *)

Section WorkerSleep.
Import Effects Login Worker.
Local Open Scope thread_scope.

Lemma sleep_total_app (t1 t2 : list event) :
  (sleep_total (t1 ++ t2) == sleep_total t1 + sleep_total t2)%Q.
Proof.
  induction t1 as [| e t1 IH]; simpl; [ring |].
  destruct e; rewrite ?IH; ring.
Qed.

Lemma inject_Z_succ (x : Z) : (inject_Z (x + 1) == inject_Z x + 1)%Q.
Proof. rewrite inject_Z_plus. reflexivity. Qed.

(** The seconds slept from the attempt [f] on, when every attempt meets
    fresh credentials and fails in the same way. *)
Lemma retry_loop_backoff md a world (r : response) :
  (forall i, 0 <= i < scan_retries a ->
     exists t, ticket (world i) = Some t /\ (60 < t)%Q) ->
  (forall i, 0 <= i < scan_retries a -> answer (world i) = r) ->
  r = NoResponse \/ r = ParseKeyError ->
  forall f, 0 <= f <= scan_retries a -> forall sleep_time s,
  (sleep_total (trace (retry_loop md a world sleep_time f s))
   == match md, r with
      | SpawnScan, ParseKeyError => 2
      | _, _ => 1
      end
      * (scan_delay a
         * ((inject_Z (scan_retries a) - inject_Z f)
            * (inject_Z (scan_retries a) + inject_Z f + 1) / 2))
      + 2400)%Q.
Proof.
  intros Hfresh Hanswer Hr.
  apply (counting_loop_ind (scan_retries a)
    (fun f => 0 <= f <= scan_retries a -> forall st s,
       (sleep_total (trace (retry_loop md a world st f s))
        == match md, r with
           | SpawnScan, ParseKeyError => 2
           | _, _ => 1
           end
           * (scan_delay a
              * ((inject_Z (scan_retries a) - inject_Z f)
                 * (inject_Z (scan_retries a) + inject_Z f + 1) / 2))
           + 2400)%Q)).
  intros f IH Hf st s. rewrite retry_loop_turn.
  destruct (Z_lt_dec f (scan_retries a)) as [Hlt | Hge].
  - destruct (Hfresh f ltac:(lia)) as [t [Ht H60]].
    rewrite Ht, (Hanswer f ltac:(lia)). unfold check_login.
    destruct (Qlt_le_dec 60 t) as [_ | Hold];
      [| exfalso; apply (Qlt_not_le _ _ H60); exact Hold].
    cbv zeta.
    destruct Hr as [-> | ->]; destruct md;
      unfold bind, emit, incr_fail, set_message, modify, ret;
      cbn [fst snd];
      match goal with
      | |- context [retry_loop ?m a world ?st' (f + 1) ?s'] =>
          pose proof (IH (f + 1) Hlt ltac:(lia) ltac:(lia) st' s') as Hrest;
            destruct (retry_loop m a world st' (f + 1) s') as [[r2 s2] t2]
      end;
      unfold trace in *; cbn [fst snd app sleep_total] in *;
      rewrite Hrest, inject_Z_succ; field.
  - assert (f = scan_retries a) by lia. subst f.
    assert (Hcool : sleep_total cooldown_trace = 2400%Q) by reflexivity.
    destruct md; unfold bind, emit, set_message, modify, ret;
      cbn [fst snd]; rewrite long_sleep_runs_cooldown;
      unfold trace; cbn [fst snd app sleep_total];
      rewrite app_nil_r, Hcool; destruct r; field.
Qed.





(** The tries and the sleeps of the login loop from the try [i] on. *)
Lemma login_loop_bounded a auth :
  (0 <= login_delay a)%Q ->
  forall i s,
  Z.of_nat (occurrences SetAuthentication (trace (login_loop a auth i s)))
  <= Z.max 0 (login_retries a - i) /\
  (sleep_total (trace (login_loop a auth i s))
   <= login_delay a * inject_Z (Z.max 0 (login_retries a - i)))%Q.
Proof.
  intro Hdelay.
  apply (counting_loop_ind (login_retries a)
    (fun i => forall s,
       Z.of_nat (occurrences SetAuthentication
                   (trace (login_loop a auth i s)))
       <= Z.max 0 (login_retries a - i) /\
       (sleep_total (trace (login_loop a auth i s))
        <= login_delay a * inject_Z (Z.max 0 (login_retries a - i)))%Q)).
  intros i IH s. rewrite login_loop_turn.
  assert (Hnonneg : forall x, (0 <= login_delay a * inject_Z (Z.max 0 x))%Q).
  { intro x. apply Qmult_le_0_compat; [exact Hdelay |].
    change 0%Q with (inject_Z 0). rewrite <- Zle_Qle. lia. }
  destruct (Z_lt_dec i (login_retries a)) as [Hlt | Hge].
  - destruct (auth i).
    + split; [simpl; lia | apply Hnonneg].
    + destruct (Z.geb_spec i (login_retries a)) as [Hge | _]; [lia |].
      unfold bind, emit. cbn [fst snd].
      destruct (IH (i + 1) Hlt ltac:(lia) s) as [Hcalls Hsleeps].
      destruct (login_loop a auth (i + 1) s) as [[r2 s2] t2].
      unfold trace in *. cbn [fst snd app sleep_total] in *.
      replace (Z.max 0 (login_retries a - (i + 1)))
        with (login_retries a - i - 1) in * by lia.
      replace (Z.max 0 (login_retries a - i))
        with (login_retries a - i - 1 + 1) by lia.
      split.
      * unfold occurrences in *. cbn [filter is_event length]. lia.
      * rewrite inject_Z_succ.
        set (left := inject_Z (login_retries a - i - 1)) in *.
        rewrite Qmult_plus_distr_r, Qmult_1_r, Qplus_comm.
        apply Qplus_le_compat; [exact Hsleeps | apply Qle_refl].
    + split; [simpl; lia | apply Hnonneg].
  - split; [simpl; lia | apply Hnonneg].
Qed.

End WorkerSleep.

Section WorkerSleepClaims.
Import Effects Login Worker.
Local Open Scope thread_scope.

(** X22: the backoff of a job that fails throughout.  When every attempt
    meets credentials valid for more than a minute and fails in the same
    way, the job sleeps [scan_delay * (1 + 2 + ... + scan_retries)]
    seconds between its attempts and then the 2400 seconds of the
    cooldown; the spawn-scan worker sleeps twice after each parsing
    failure and so doubles the first part.  (With the defaults 5 and 5:
    5 + 10 + 15 + 20 + 25 seconds.) *)
Theorem retry_backoff_total
  (md : mode) (a : args) (world : Z -> attempt) (sleep_time : option Q)
  (s : status) (r : response) :
  0 <= scan_retries a ->
  (forall i, 0 <= i < scan_retries a ->
     exists t, ticket (world i) = Some t /\ (60 < t)%Q) ->
  (forall i, 0 <= i < scan_retries a -> answer (world i) = r) ->
  r = NoResponse \/ r = ParseKeyError ->
  (sleep_total (trace (retry_loop md a world sleep_time 0 s))
   == match md, r with
      | SpawnScan, ParseKeyError => 2
      | _, _ => 1
      end
      * (scan_delay a
         * (inject_Z (scan_retries a) * (inject_Z (scan_retries a) + 1) / 2))
      + 2400)%Q.
Proof.
  intros Hn Hfresh Hanswer Hr.
  rewrite (retry_loop_backoff md a world r Hfresh Hanswer Hr 0 ltac:(lia)).
  destruct md; destruct r; change (inject_Z 0) with 0%Q; field.
Qed.

Lemma retry_backoff_total_witness :
  (sleep_total
     (trace (retry_loop SpawnScan (mkArgs 5 5 3 5)
               (fun _ => mkAttempt (Some 3000%Q) (fun _ => AuthOk)
                                   ParseKeyError)
               None 0 fresh_status))
   == 2 * (5 * (inject_Z 5 * (inject_Z 5 + 1) / 2)) + 2400)%Q.
Proof.
  apply (retry_backoff_total SpawnScan (mkArgs 5 5 3 5)
           (fun _ => mkAttempt (Some 3000%Q) (fun _ => AuthOk) ParseKeyError)
           None fresh_status ParseKeyError).
  - simpl. lia.
  - intros i Hi. exists 3000%Q. split; [reflexivity | reflexivity].
  - intros i Hi. reflexivity.
  - right. reflexivity.
Defined.


(** X24: [check_login] does not get stuck.  With a login delay that is
    not negative it calls [set_authentication] at most [login_retries]
    times, sets the position at most once, and sleeps at most
    [login_delay * login_retries] seconds (not at all when
    [login_retries] is 0 or less). *)
Theorem check_login_bounded
  (a : args) (ticket : option Q) (auth : Z -> auth_outcome) (s : status) :
  (0 <= login_delay a)%Q ->
  (occurrences SetAuthentication (trace (check_login a ticket auth s))
   <= Z.to_nat (login_retries a))%nat /\
  (occurrences SetPosition (trace (check_login a ticket auth s)) <= 1)%nat /\
  (sleep_total (trace (check_login a ticket auth s))
   <= login_delay a * inject_Z (Z.max 0 (login_retries a)))%Q.
Proof.
  intro Hdelay.
  assert (Hnonneg : (0 <= login_delay a * inject_Z (Z.max 0 (login_retries a)))%Q).
  { apply Qmult_le_0_compat; [exact Hdelay |].
    change 0%Q with (inject_Z 0). rewrite <- Zle_Qle. lia. }
  assert (Hlogin :
    (occurrences SetAuthentication
       (trace ((emit SetPosition ;; login_loop a auth 0 ;;
                emit (Log LogLoginSuccessful)) s))
     <= Z.to_nat (login_retries a))%nat /\
    (occurrences SetPosition
       (trace ((emit SetPosition ;; login_loop a auth 0 ;;
                emit (Log LogLoginSuccessful)) s)) <= 1)%nat /\
    (sleep_total
       (trace ((emit SetPosition ;; login_loop a auth 0 ;;
                emit (Log LogLoginSuccessful)) s))
     <= login_delay a * inject_Z (Z.max 0 (login_retries a)))%Q).
  { destruct (login_loop_bounded a auth Hdelay 0 s) as [Hcalls Hsleeps].
    rewrite Z.sub_0_r in Hcalls, Hsleeps.
    pose proof (login_loop_emits_only
                  (fun e => negb (is_event SetPosition e)) a auth 0
                  ltac:(reflexivity) ltac:(reflexivity) ltac:(reflexivity) s)
      as Hquiet.
    apply absent_event_occurrences in Hquiet.
    unfold bind, emit. cbn [fst snd].
    destruct (login_loop a auth 0 s) as [[[[] | e] s2] t2];
      unfold trace in *; cbn [fst snd app sleep_total] in *;
      unfold occurrences in *; cbn [filter is_event length];
      rewrite ?filter_app, ?length_app, ?sleep_total_app;
      cbn [filter is_event length sleep_total];
      repeat split; try lia; try lra. }
  unfold check_login.
  destruct ticket as [remaining_time |]; [| exact Hlogin].
  destruct (Qlt_le_dec 60 remaining_time); [| exact Hlogin].
  unfold trace, emit, occurrences. cbn [snd filter is_event length].
  split; [lia | split; [lia | exact Hnonneg]].
Qed.

Lemma check_login_bounded_witness :
  (occurrences SetAuthentication
     (trace (check_login (mkArgs 3 10 3 5) None (fun _ => AuthFails)
                         fresh_status))
   <= Z.to_nat (login_retries (mkArgs 3 10 3 5)))%nat /\
  (occurrences SetPosition
     (trace (check_login (mkArgs 3 10 3 5) None (fun _ => AuthFails)
                         fresh_status)) <= 1)%nat /\
  (sleep_total
     (trace (check_login (mkArgs 3 10 3 5) None (fun _ => AuthFails)
                         fresh_status))
   <= login_delay (mkArgs 3 10 3 5)
      * inject_Z (Z.max 0 (login_retries (mkArgs 3 10 3 5))))%Q.
Proof.
  apply (check_login_bounded (mkArgs 3 10 3 5) None (fun _ => AuthFails)
           fresh_status).
  simpl. discriminate.
Defined.

End WorkerSleepClaims.

(** * The delays that the assigner records *)

Section AssignerDelays.
Import Effects Assigner.
Local Open Scope Q_scope.

Variable dist : spawn -> spawn -> Q.
Variable scan_delay : Q.
Variable max_speed : num.
Variable limit : Q.

#[local] Abbreviation recorded := (Assigner.recorded limit).

Lemma greedy_step_delays (st st' : assignment) (sp : spawn) :
  greedy_step dist scan_delay max_speed (Fin limit) st sp = Returns st' ->
  Forall recorded (delays st) -> Forall recorded (delays st').
Proof.
  unfold greedy_step.
  destruct (dry_scores dist scan_delay max_speed 0 (queues st) sp)
    as [scores | e]; [| discriminate].
  destruct (min_entry scores) as [[min_score min_index] | e];
    [| discriminate].
  destruct (num_leb (delay min_score) (Fin limit)) eqn:Hgate.
  - destruct (insert dist scan_delay max_speed
                (nth min_index (queues st) []) sp false)
      as [[q sc] | e]; [| discriminate].
    intros H Hold. inversion H; subst. clear H. cbn [delays].
    destruct (num_ltb (Fin 0) (delay min_score)) eqn:Hpositive;
      [| exact Hold].
    apply Forall_app. split; [exact Hold |].
    constructor; [| constructor].
    destruct (delay min_score) as [d |]; [| discriminate Hgate].
    exists d. split; [reflexivity |].
    unfold num_ltb, num_leb in Hpositive, Hgate.
    apply Qle_bool_iff in Hgate. split; [| exact Hgate].
    apply Qnot_le_lt. intro Hle. apply Qle_bool_iff in Hle.
    rewrite Hle in Hpositive. discriminate Hpositive.
  - intros H Hold. inversion H; subst. exact Hold.
Qed.

Lemma greedy_loop_delays (spawns : list spawn) :
  forall st st',
  greedy_loop dist scan_delay max_speed (Fin limit) st spawns = Returns st' ->
  Forall recorded (delays st) -> Forall recorded (delays st').
Proof.
  induction spawns as [| sp spawns IH]; intros st st' Hloop Hold;
    simpl in Hloop.
  - inversion Hloop; subst. exact Hold.
  - destruct (greedy_step dist scan_delay max_speed (Fin limit) st sp)
      as [st1 | e] eqn:Hstep; [| discriminate].
    apply (IH st1 st' Hloop). eapply greedy_step_delays; eassumption.
Qed.

End AssignerDelays.

Section AssignerDelayClaims.
Import Effects Assigner.
Local Open Scope Q_scope.

(** X25: under a finite [max_delay], every delay that [greedy_assign]
    records (the list of which the average and the maximum are logged)
    is a finite number, greater than 0 and at most [max_delay]. *)
Theorem greedy_assign_delays
  (dist : spawn -> spawn -> Q) (scan_delay : Q) (max_speed : num) (limit : Q)
  (spawns : list spawn) (n : nat) (st : assignment) :
  greedy_assign dist scan_delay max_speed (Fin limit) spawns n = Returns st ->
  Forall (fun d => exists q, d = Fin q /\ 0 < q /\ q <= limit) (delays st).
Proof.
  intro Hrun. unfold greedy_assign in Hrun.
  apply (greedy_loop_delays dist scan_delay max_speed limit _ _ _ Hrun).
  constructor.
Qed.

Lemma greedy_assign_delays_witness :
  Forall (fun d => exists q, d = Fin q /\ 0 < q /\ q <= 60)
    (delays
       (match greedy_assign degree_dist 10 (Fin 1) (Fin 60)
                [mkSpawn 0 0 100 None; mkSpawn (1 # 10000) 0 105 None] 1 with
        | Returns st => st
        | Raises _ => mkAssignment [] [] []
        end)).
Proof.
  apply (greedy_assign_delays degree_dist 10 (Fin 1) 60
           [mkSpawn 0 0 100 None; mkSpawn (1 # 10000) 0 105 None] 1).
  vm_compute. reflexivity.
Defined.

End AssignerDelayClaims.
